(** * Random-walk BSSRDF (appleseed, [randomwalkbssrdf.cpp])

    A shallow embedding of [RandomWalkBSSRDF] and the properties of its
    optical-property preprocessor, Russian roulette, MIS densities and
    random-walk driver.

    Conventions of the embedding.
    - A C++ [float] or [double] is read as a real number ([R]): arithmetic is
      exact, there is no rounding, overflow, infinity or NaN.  Nothing below
      relies on the value Rocq gives to a division by zero.
    - A [Spectrum] is a list of reals of length [Spectrum_size]; [s[i]] is
      [spectrum_get s i] and an in-place write [s[i] = x] is
      [spectrum_set s i x].
    - Mutable objects ([SamplingContext], [BSSRDFSample]) are threaded
      explicitly through the functions that mutate them.
    - Code of the repository that is not part of this translation unit
      (intersector, sampling context, phase functions, CDF helpers, BRDF) is
      gathered in the class [Environment]; small numeric helpers are modelled
      from their specification and say so. *)

From Stdlib Require Import Reals Lra Lia Psatz List Bool ZArith.
Import ListNotations.

Open Scope R_scope.

(* ------------------------------------------------------------------ *)
(** ** Scalars *)

(** Modelled from the spec: [rcp] is the reciprocal ([foundation/math/scalar.h]). *)
Definition rcp (x : R) : R := 1 / x.

(** [std::min(a, b)]: [b] when [b < a], else [a]. *)
Definition fmin (a b : R) : R := if Rlt_dec b a then b else a.

(** [std::max(a, b)]: [b] when [a < b], else [a]. *)
Definition fmax (a b : R) : R := if Rlt_dec a b then b else a.

(** Modelled from the spec: [clamp(x, low, high)] brings [x] into
    [[low, high]] ([foundation/math/scalar.h]). *)
Definition clamp (x low high : R) : R :=
  if Rlt_dec x low then low else if Rlt_dec high x then high else x.

(** Modelled from the spec: [clamp_low(x, low)] brings [x] to at least [low]. *)
Definition clamp_low (x low : R) : R := if Rlt_dec x low then low else x.

(** Modelled from the spec: [mix(a, b, t)] is the linear interpolation that
    gives weight [t] to [b] and [1 - t] to [a] ([foundation/math/scalar.h]). *)
Definition mix (a b t : R) : R := a * (1 - t) + b * t.

(** Modelled from the spec: [FourPi<float>()]. *)
Definition FourPi : R := 4 * PI.

(** Comparisons of the source as booleans. *)
Definition Rltb (a b : R) : bool := if Rlt_dec a b then true else false.
Definition Rleb (a b : R) : bool := if Rle_dec a b then true else false.
Definition Reqb (a b : R) : bool := if Req_dec_T a b then true else false.

(** Modelled from the spec: [sample_exponential_distribution(s, a)] draws
    [d = -ln(1 - s) / a], the inverse CDF of the exponential distribution
    ([foundation/math/sampling/mappings.h]). *)
Definition sample_exponential_distribution (s a : R) : R := - ln (1 - s) / a.

(** Modelled from the spec: [pass_rr(probability, s)] continues the path with
    probability [probability], that is when the variate [s] is below it
    ([foundation/math/rr.h]). *)
Definition pass_rr (probability s : R) : bool := Rltb s probability.

(* ------------------------------------------------------------------ *)
(** ** Vectors *)

Record Vector3 : Type := mkVector3 { vx : R; vy : R; vz : R }.

Definition dot (a b : Vector3) : R := vx a * vx b + vy a * vy b + vz a * vz b.
Definition vneg (a : Vector3) : Vector3 := mkVector3 (- vx a) (- vy a) (- vz a).
Definition vadd (a b : Vector3) : Vector3 :=
  mkVector3 (vx a + vx b) (vy a + vy b) (vz a + vz b).
Definition vscale (k : R) (a : Vector3) : Vector3 :=
  mkVector3 (k * vx a) (k * vy a) (k * vz a).

(** [is_normalized]: the vector has unit length. *)
Definition is_normalized (a : Vector3) : Prop := dot a a = 1.

(* ------------------------------------------------------------------ *)
(** ** Spectra *)

Definition Spectrum : Type := list R.

Definition spectrum_get (s : Spectrum) (i : nat) : R := nth i s 0.

Fixpoint spectrum_set (s : Spectrum) (i : nat) (x : R) : Spectrum :=
  match s, i with
  | [], _ => []
  | _ :: t, O => x :: t
  | h :: t, S j => h :: spectrum_set t j x
  end.

(** [Spectrum::set(x)] on a spectrum of [n] channels. *)
Definition spectrum_fill (n : nat) (x : R) : Spectrum := repeat x n.

(** [a *= b] with [b] a spectrum: channel-wise product. *)
Fixpoint spectrum_mul (a b : Spectrum) : Spectrum :=
  match a, b with
  | x :: a', y :: b' => x * y :: spectrum_mul a' b'
  | _, _ => []
  end.

(** [a *= k] and [a /= k] with [k] a scalar. *)
Definition spectrum_scale (a : Spectrum) (k : R) : Spectrum := map (fun x => x * k) a.
Definition spectrum_div (a : Spectrum) (k : R) : Spectrum := map (fun x => x / k) a.

(** Modelled from the spec: [clamp_in_place(s, low, high)] clamps every
    channel to [[low, high]]; [clamp_low_in_place(s, low)] to at least [low]. *)
Definition clamp_in_place (s : Spectrum) (low high : R) : Spectrum :=
  map (fun x => clamp x low high) s.
Definition clamp_low_in_place (s : Spectrum) (low : R) : Spectrum :=
  map (fun x => clamp_low x low) s.

(** Modelled from the spec: [max_value(s)] is the largest channel of [s]. *)
Fixpoint max_value (s : Spectrum) : R :=
  match s with
  | [] => 0
  | [x] => x
  | x :: t => fmax x (max_value t)
  end.

(* ------------------------------------------------------------------ *)
(** ** Input values *)

Record Precomputed : Type := mkPrecomputed {
  m_albedo : Spectrum;
  m_extinction : Spectrum;
  m_scattering : Spectrum;
  m_rcp_diffusion_length : Spectrum
}.

Record RandomWalkBSSRDFInputValues : Type := mkInputValues {
  m_weight : R;
  m_reflectance : Spectrum;
  m_reflectance_multiplier : R;
  m_mfp : Spectrum;
  m_mfp_multiplier : R;
  m_ior : R;
  m_fresnel_weight : R;
  m_zero_scattering_weight : R;
  m_single_scattering_weight : R;
  m_multiple_scattering_weight : R;
  m_precomputed : Precomputed
}.

(* ------------------------------------------------------------------ *)
(** ** Optical property preprocessor *)

Definition compute_rcp_diffusion_length_low_albedo (albedo : R) : R :=
  let a := rcp albedo in
  let b := exp (- 2.0 * a) in
  let x0 := 1.0 in
  let x1 := a * 4.0 - 1.0 in
  let x2 := a * (a * 24.0 - 12.0) + 1.0 in
  let x3 := a * (a * (a * 512.0 - 384.0) + 72.0) - 3.0 in
  1.0 - 2.0 * b * (x0 + b * (x1 + b * (x2 + b * x3))).

Definition compute_rcp_diffusion_length_high_albedo (albedo : R) : R :=
  let a := 1.0 - albedo in
  let b := sqrt (3.0 * a) in
  let x0 := 1.0000000000 in
  let x1 := - 0.4000000000 in
  let x2 := - 0.0685714286 in
  let x3 := - 0.0160000000 in
  let x4 := - 0.0024638218 in
  b * (x0 + a * (x1 + a * (x2 + a * (x3 + a * x4)))).

Definition compute_rcp_diffusion_length (albedo : R) : R :=
  let a := clamp albedo 0.0 0.999 in
  if Rltb a 0.56
  then compute_rcp_diffusion_length_low_albedo a
  else compute_rcp_diffusion_length_high_albedo a.

Definition albedo_from_reflectance (r : R) : R :=
  1.0 - exp (r * (- 5.09406 + r * (2.61188 - 4.31805 * r))).

(* ------------------------------------------------------------------ *)
(** ** Geometry records *)

Record Basis3 : Type := mkBasis3 { m_n : Vector3; m_u : Vector3; m_v : Vector3 }.

Inductive VisibilityFlags : Type := CameraRay | ShadowRay.

Record ShadingRay : Type := mkShadingRay {
  m_org : Vector3;
  m_dir : Vector3;
  m_time : R;
  m_flags : VisibilityFlags;
  m_depth : nat;
  m_tmax : option R            (* [None]: the ray is unbounded *)
}.

Definition point_at (ray : ShadingRay) (t : R) : Vector3 :=
  vadd (m_org ray) (vscale t (m_dir ray)).

(** The part of a [ShadingPoint] (hit record) the BSSRDF reads. *)
Record ShadingPoint : Type := mkShadingPoint {
  is_valid : bool;
  hit_surface : bool;
  get_distance : R;
  get_point : Vector3;
  get_geometric_normal : Vector3;
  get_shading_basis : Basis3;
  get_time : R;
  get_ray_depth : nat
}.

Inductive ScatteringMode : Type := ScatteringModeAll.

Record BSDFSample : Type := mkBSDFSample {
  m_shading_point : option ShadingPoint;
  m_geometric_normal : Vector3;
  m_shading_basis : Basis3;
  m_outgoing : Vector3;
  m_incoming : Vector3;
  m_bsdf_value : Spectrum;
  m_bsdf_probability : R
}.

(** [m_brdf] and [m_brdf_data] are set to the BSSRDF's own Lambertian BRDF and
    its fixed parameter block; [m_has_brdf] records that they were set. *)
Record BSSRDFSample : Type := mkBSSRDFSample {
  m_value : Spectrum;
  m_probability : R;
  m_incoming_point : ShadingPoint;
  m_has_brdf : bool
}.

(* ------------------------------------------------------------------ *)
(** ** The rest of the renderer *)

(** What this translation unit calls and does not define: the size of a
    spectrum, the normalized-diffusion helper of [sss.h], the sampling
    context, the direction samplers and phase function, the CDF helpers, the
    intersector and the BRDF used at the exit point. *)
Class Environment : Type := {
  Spectrum_size : nat;
  normalized_diffusion_s_mfp : R -> R;
  SamplingContext : Type;
  split_in_place : nat -> nat -> SamplingContext -> SamplingContext;
  next2_float : SamplingContext -> R * SamplingContext;
  next2_vector2 : SamplingContext -> (R * R) * SamplingContext;
  sample_hemisphere_cosine : R * R -> Vector3;
  sample_sphere_uniform : R * R -> Vector3;
  (** [DwivediPhaseFunction(nu0).sample(outgoing, s, incoming)] and
      [DwivediPhaseFunction(nu0).evaluate(outgoing, incoming)]. *)
  dwivedi_sample : R -> Vector3 -> R * R -> Vector3;
  dwivedi_evaluate : R -> Vector3 -> Vector3 -> R;
  (** [build_cdf_and_pdf(src, cdf, pdf)] returns [(cdf, pdf)];
      [sample_cdf(cdf, s)] returns the index of the chosen channel. *)
  build_cdf_and_pdf : Spectrum -> Spectrum * Spectrum;
  sample_cdf : Spectrum -> R -> nat;
  transform_to_parent : Basis3 -> Vector3 -> Vector3;
  (** [Intersector::trace(ray, shading_point, parent)]: the hit record it
      fills, after [shading_point.clear()]. *)
  trace : ShadingRay -> option ShadingPoint -> ShadingPoint;
  flip_side : ShadingPoint -> ShadingPoint;
  (** [m_brdf->sample(sampling_context, data, adjoint, cosine_mult, modes, sample)]. *)
  brdf_sample :
    SamplingContext -> bool -> bool -> ScatteringMode -> BSDFSample ->
    SamplingContext * BSDFSample
}.

Section RandomWalkBSSRDF.

Context {E : Environment}.

(** A spectrum of the renderer has [Spectrum_size] channels. *)
Definition well_formed (s : Spectrum) : Prop := length s = Spectrum_size.

(* ------------------------------------------------------------------ *)
(** ** [prepare_inputs] *)

(** The loop over the channels [i, i + k) of [prepare_inputs]. *)
Fixpoint prepare_inputs_loop (k i : nat) (reflectance mfp : Spectrum)
    (precomputed : Precomputed) : Precomputed :=
  match k with
  | O => precomputed
  | S k' =>
      (* Compute single-scattering albedo from multiple-scattering albedo. *)
      let albedo := albedo_from_reflectance (spectrum_get reflectance i) in
      (* Compute extinction coefficient. *)
      let s := normalized_diffusion_s_mfp (spectrum_get reflectance i) in
      let extinction := rcp (spectrum_get mfp i * s) in
      (* Compute diffusion length, required by Dwivedi sampling. *)
      let kappa := fmin (compute_rcp_diffusion_length albedo) 0.99 in
      prepare_inputs_loop k' (S i) reflectance mfp
        {| m_albedo := spectrum_set (m_albedo precomputed) i albedo;
           m_extinction := spectrum_set (m_extinction precomputed) i extinction;
           m_scattering :=
             spectrum_set (m_scattering precomputed) i (albedo * extinction);
           m_rcp_diffusion_length :=
             spectrum_set (m_rcp_diffusion_length precomputed) i kappa |}
  end.

Definition prepare_inputs (values : RandomWalkBSSRDFInputValues)
    : RandomWalkBSSRDFInputValues :=
  (* Apply multipliers to input values. *)
  let reflectance :=
    spectrum_scale (m_reflectance values) (m_reflectance_multiplier values) in
  let mfp := spectrum_scale (m_mfp values) (m_mfp_multiplier values) in
  (* Clamp input values. *)
  let reflectance := clamp_in_place reflectance 0.001 0.999 in
  let mfp := clamp_low_in_place mfp 1.0e-6 in
  {| m_weight := m_weight values;
     m_reflectance := reflectance;
     m_reflectance_multiplier := m_reflectance_multiplier values;
     m_mfp := mfp;
     m_mfp_multiplier := m_mfp_multiplier values;
     m_ior := m_ior values;
     m_fresnel_weight := m_fresnel_weight values;
     m_zero_scattering_weight := m_zero_scattering_weight values;
     m_single_scattering_weight := m_single_scattering_weight values;
     m_multiple_scattering_weight := m_multiple_scattering_weight values;
     m_precomputed :=
       prepare_inputs_loop Spectrum_size 0 reflectance mfp (m_precomputed values) |}.

(* ------------------------------------------------------------------ *)
(** ** Russian roulette *)

(** The probability of extending the path, computed by [test_rr]. *)
Definition scattering_prob (value : Spectrum) : R := fmin (max_value value) 0.99.

Definition test_rr (sampling_context : SamplingContext) (bssrdf_sample : BSSRDFSample)
    : bool * SamplingContext * BSSRDFSample :=
  (* Generate a uniform sample in [0,1). *)
  let sampling_context := split_in_place 1 1 sampling_context in
  let '(s, sampling_context) := next2_float sampling_context in
  (* Compute the probability of extending this path. *)
  let scattering_prob := scattering_prob (m_value bssrdf_sample) in
  (* Russian Roulette. *)
  if negb (pass_rr scattering_prob s)
  then (false, sampling_context, bssrdf_sample)
  else
    (* Adjust throughput to account for terminated paths. *)
    (true, sampling_context,
     {| m_value := spectrum_div (m_value bssrdf_sample) scattering_prob;
        m_probability := m_probability bssrdf_sample;
        m_incoming_point := m_incoming_point bssrdf_sample;
        m_has_brdf := m_has_brdf bssrdf_sample |}).

Definition compute_classical_sampling_probability (anisotropy : R) : R :=
  fmax 0.1 (Rabs anisotropy ^ 3).

(* ------------------------------------------------------------------ *)
(** ** MIS densities *)

(** The loop over the channels [i, i + k) of
    [compute_transmission_classical_sampling]; the state is [mis_base] and the
    output spectrum [transmission]. *)
Fixpoint compute_transmission_classical_sampling_loop (k i : nat)
    (distance : R) (extinction channel_pdf : Spectrum) (transmitted : bool)
    (mis_base : R) (transmission : Spectrum) : R * Spectrum :=
  match k with
  | O => (mis_base, transmission)
  | S k' =>
      let x := - distance * spectrum_get extinction i in
      let transmission := spectrum_set transmission i (exp x) in
      let transmission :=
        if negb transmitted
        then spectrum_set transmission i
               (spectrum_get transmission i * spectrum_get extinction i)
        else transmission in
      let mis_base :=
        mis_base + spectrum_get transmission i * spectrum_get channel_pdf i in
      compute_transmission_classical_sampling_loop k' (S i)
        distance extinction channel_pdf transmitted mis_base transmission
  end.

(** Returns the MIS density and the spectrum written through [transmission]. *)
Definition compute_transmission_classical_sampling
    (distance : R) (extinction channel_pdf : Spectrum) (transmitted : bool)
    (transmission : Spectrum) : R * Spectrum :=
  compute_transmission_classical_sampling_loop Spectrum_size 0
    distance extinction channel_pdf transmitted 0.0 transmission.

Fixpoint compute_mis_dwivedi_sampling_loop (k i : nat)
    (distance : R) (extinction rcp_diffusion_length : Spectrum) (cosine : R)
    (channel_pdf : Spectrum) (transmitted : bool)
    (slab_normal incoming : Vector3) (mis_base : R) : R :=
  match k with
  | O => mis_base
  | S k' =>
      let effective_extinction :=
        spectrum_get extinction i
        * (1.0 - cosine * spectrum_get rcp_diffusion_length i) in
      let x := - distance * effective_extinction in
      let distance_prob :=
        (if transmitted then 1.0 else effective_extinction) * exp x in
      let direction_prob :=
        dwivedi_evaluate (rcp (spectrum_get rcp_diffusion_length i))
          slab_normal incoming in
      let mis_base :=
        mis_base + distance_prob * spectrum_get channel_pdf i * direction_prob in
      compute_mis_dwivedi_sampling_loop k' (S i)
        distance extinction rcp_diffusion_length cosine channel_pdf transmitted
        slab_normal incoming mis_base
  end.

Definition compute_mis_dwivedi_sampling
    (distance : R) (extinction rcp_diffusion_length : Spectrum) (cosine : R)
    (channel_pdf : Spectrum) (transmitted : bool)
    (slab_normal incoming : Vector3) : R :=
  compute_mis_dwivedi_sampling_loop Spectrum_size 0
    distance extinction rcp_diffusion_length cosine channel_pdf transmitted
    slab_normal incoming 0.0
  * FourPi.

(* ------------------------------------------------------------------ *)
(** ** The random walk of [sample] *)

Definition classical_sampling_prob : R := 0.1.
Definition MaxIterationsCount : nat := 64.
Definition MinRRIteration : nat := 8.

(** What [sample] fixes before the walking loop and only reads inside it:
    the channel, sampled distance and hit distance of the initial segment, and
    the constants derived from them. *)
Record WalkConstants : Type := mkWalkConstants {
  initial_channel : nat;         (* [channel] of the initial segment *)
  initial_distance : R;          (* [distance] of the initial segment *)
  ray_length : R;
  bias_strategy_prob : R;
  near_slab_normal : Vector3;
  far_slab_normal : Vector3;
  slab_normal : Vector3;
  walk_time : R                  (* [outgoing_point.get_time()] *)
}.

(** The variables of [sample] that live across iterations of the loop. *)
Record LoopState : Type := mkLoopState {
  sampling_context : SamplingContext;
  bssrdf_sample : BSSRDFSample;
  ray : ShadingRay;
  transmitted : bool;
  n_iteration : nat;
  current_point : Vector3
}.

(** The locals of one complete pass through the loop body, kept for the
    statements about single iterations; the walk itself does not read them. *)
Record Iteration : Type := mkIteration {
  it_channel : nat;
  it_channel_pdf : Spectrum;
  it_is_biased : bool;
  it_incoming : Vector3;
  it_cosine : R;
  it_effective_extinction : R;
  it_sampled_distance : R;       (* the operand of the assertion on [distance] *)
  it_transmitted : bool;
  it_distance : R;               (* the length of the traced segment *)
  it_scattered_value : Spectrum; (* [m_value] after [*= albedo] *)
  it_transmission : Spectrum;    (* as returned by the classical density *)
  it_mis_classical : R;
  it_mis_dwivedi_near : R;
  it_mis_dwivedi_far : R
}.

Inductive BodyResult : Type :=
  | LostIterations               (* [++n_iteration > MaxIterationsCount] *)
  | FailedRR                     (* the Russian roulette test failed *)
  | LostChannel                  (* degenerate channel *)
  | Stepped (it : Iteration) (st : LoopState).

Definition set_value (b : BSSRDFSample) (v : Spectrum) : BSSRDFSample :=
  {| m_value := v;
     m_probability := m_probability b;
     m_incoming_point := m_incoming_point b;
     m_has_brdf := m_has_brdf b |}.

Definition set_incoming_point (b : BSSRDFSample) (p : ShadingPoint) : BSSRDFSample :=
  {| m_value := m_value b;
     m_probability := m_probability b;
     m_incoming_point := p;
     m_has_brdf := m_has_brdf b |}.

(** One pass through the body of [while (!transmitted)]. *)
Definition loop_body (values : RandomWalkBSSRDFInputValues) (c : WalkConstants)
    (st : LoopState) : BodyResult :=
  let extinction := m_extinction (m_precomputed values) in
  let albedo := m_albedo (m_precomputed values) in
  let scattering := m_scattering (m_precomputed values) in
  let rcp_diffusion_length := m_rcp_diffusion_length (m_precomputed values) in
  let n_iteration := S (n_iteration st) in
  if (MaxIterationsCount <? n_iteration)%nat then LostIterations else
  let '(passed, sampling_context, bssrdf_sample) :=
    if (MinRRIteration <? n_iteration)%nat
    then test_rr (sampling_context st) (bssrdf_sample st)
    else (true, sampling_context st, bssrdf_sample st) in
  if negb passed then FailedRR else
  let sampling_context := split_in_place 1 2 sampling_context in
  (* Choose color channel used for distance sampling. *)
  let '(channel_cdf, channel_pdf) := build_cdf_and_pdf (m_value bssrdf_sample) in
  let '(s_channel, sampling_context) := next2_float sampling_context in
  let channel := sample_cdf channel_cdf s_channel in
  if Reqb (spectrum_get scattering channel) 0.0
     || Reqb (spectrum_get (m_value bssrdf_sample) channel) 0.0
  then LostChannel else
  (* Determine if we do Dwivedi (biased) sampling or classical sampling. *)
  let '(s_biased, sampling_context) := next2_float sampling_context in
  let is_biased := Rltb classical_sampling_prob s_biased in
  (* Find next random-walk direction. *)
  let sampling_context := split_in_place 2 1 sampling_context in
  let '(s_direction, sampling_context) := next2_vector2 sampling_context in
  let incoming :=
    if is_biased
    then dwivedi_sample (rcp (spectrum_get rcp_diffusion_length channel))
           (slab_normal c) s_direction
    else sample_sphere_uniform s_direction in
  (* Update transmission by albedo. *)
  let scattered_value := spectrum_mul (m_value bssrdf_sample) albedo in
  (* Construct ray in the sampled direction. *)
  let depth := S (m_depth (ray st)) in
  (* Sample distance, assuming that the ray is infinite. *)
  let sampling_context := split_in_place 1 1 sampling_context in
  let cosine := dot incoming (slab_normal c) in
  let '(s_distance, sampling_context) := next2_float sampling_context in
  let effective_extinction :=
    if is_biased
    then spectrum_get extinction channel
         * (1.0 - cosine * spectrum_get rcp_diffusion_length channel)
    else spectrum_get extinction channel in
  let sampled_distance :=
    sample_exponential_distribution s_distance effective_extinction in
  (* Trace ray up to the sampled distance. *)
  let ray :=
    mkShadingRay (current_point st) incoming (walk_time c) ShadowRay depth
      (Some sampled_distance) in
  let incoming_point := trace ray None in
  let transmitted := hit_surface incoming_point in
  let current_point := point_at ray sampled_distance in
  let distance :=
    if transmitted then get_distance incoming_point else sampled_distance in
  (* Compute transmission for the distance sample. *)
  let '(mis_classical, transmission) :=
    compute_transmission_classical_sampling
      distance extinction channel_pdf transmitted
      (spectrum_fill Spectrum_size 0.0) in
  let mis_dwivedi_near :=
    compute_mis_dwivedi_sampling
      distance extinction rcp_diffusion_length cosine channel_pdf transmitted
      (near_slab_normal c) incoming in
  let mis_dwivedi_far :=
    compute_mis_dwivedi_sampling
      distance extinction rcp_diffusion_length cosine channel_pdf transmitted
      (far_slab_normal c) incoming in
  let mis_dwivedi := mix mis_dwivedi_far mis_dwivedi_near (bias_strategy_prob c) in
  let weighted_transmission :=
    spectrum_scale transmission
      (rcp (mix mis_dwivedi mis_classical classical_sampling_prob)) in
  Stepped
    {| it_channel := channel;
       it_channel_pdf := channel_pdf;
       it_is_biased := is_biased;
       it_incoming := incoming;
       it_cosine := cosine;
       it_effective_extinction := effective_extinction;
       it_sampled_distance := sampled_distance;
       it_transmitted := transmitted;
       it_distance := distance;
       it_scattered_value := scattered_value;
       it_transmission := transmission;
       it_mis_classical := mis_classical;
       it_mis_dwivedi_near := mis_dwivedi_near;
       it_mis_dwivedi_far := mis_dwivedi_far |}
    {| sampling_context := sampling_context;
       bssrdf_sample :=
         set_incoming_point
           (set_value bssrdf_sample
              (spectrum_mul scattered_value weighted_transmission))
           incoming_point;
       ray := ray;
       transmitted := transmitted;
       n_iteration := n_iteration;
       current_point := current_point |}.

(** How the walk of [sample] ends. *)
Inductive WalkResult : Type :=
  | Escaped                          (* the initial ray hit nothing *)
  | Lost (n : nat)                   (* iteration cap exceeded at iteration [n] *)
  | Terminated (n : nat)             (* Russian roulette failed at iteration [n] *)
  | Degenerate (n : nat)             (* degenerate channel at iteration [n] *)
  | Exited (st : LoopState)          (* the loop was left with [transmitted] *)
  | OutOfFuel.

(** [while (!transmitted) { ... }], with [fuel] bounding the number of passes. *)
Fixpoint walk_loop (fuel : nat) (values : RandomWalkBSSRDFInputValues)
    (c : WalkConstants) (st : LoopState) : WalkResult :=
  if transmitted st then Exited st else
  match fuel with
  | O => OutOfFuel
  | S fuel' =>
      match loop_body values c st with
      | LostIterations => Lost (S (n_iteration st))
      | FailedRR => Terminated (S (n_iteration st))
      | LostChannel => Degenerate (S (n_iteration st))
      | Stepped _ st' => walk_loop fuel' values c st'
      end
  end.

(** [sample] up to the loop: the initial segment.  [None] when the initial ray
    never reaches a surface. *)
Definition sample_initial (values : RandomWalkBSSRDFInputValues)
    (sampling_context : SamplingContext) (outgoing_point : ShadingPoint)
    (bssrdf_sample : BSSRDFSample) : option (WalkConstants * LoopState) :=
  let extinction := m_extinction (m_precomputed values) in
  (* Initialize BSSRDF value. *)
  let value := spectrum_fill Spectrum_size 1.0 in
  (* Pick initial random-walk direction uniformly. *)
  let sampling_context := split_in_place 2 1 sampling_context in
  let '(s_initial, sampling_context) := next2_vector2 sampling_context in
  let initial_dir := sample_hemisphere_cosine s_initial in
  let initial_dir :=
    mkVector3 (vx initial_dir) (- vy initial_dir) (vz initial_dir) in
  let initial_dir :=
    transform_to_parent (get_shading_basis outgoing_point) initial_dir in
  let ray :=
    mkShadingRay (get_point outgoing_point) initial_dir (get_time outgoing_point)
      ShadowRay (S (get_ray_depth outgoing_point)) None in
  (* Choose color channel used for distance sampling. *)
  let sampling_context := split_in_place 1 1 sampling_context in
  let '(channel_cdf, channel_pdf) := build_cdf_and_pdf value in
  let '(s_channel, sampling_context) := next2_float sampling_context in
  let channel := sample_cdf channel_cdf s_channel in
  (* Sample distance (we always use classical sampling here). *)
  let sampling_context := split_in_place 1 1 sampling_context in
  let '(s_distance, sampling_context) := next2_float sampling_context in
  let distance :=
    sample_exponential_distribution s_distance (spectrum_get extinction channel) in
  (* Trace the initial ray till we reach the surface from inside. *)
  let incoming_point := trace ray (Some outgoing_point) in
  if negb (is_valid incoming_point) then None else
  let ray_length := get_distance incoming_point in
  let transmitted := Rleb ray_length distance in
  let '(mis_weight, value) :=
    compute_transmission_classical_sampling
      (if transmitted then ray_length else distance)
      extinction channel_pdf transmitted value in
  let value := spectrum_scale value (rcp mis_weight) in
  (* Determine the closest surface point and corresponding slab normal. *)
  let bias_strategy_prob :=
    exp (- spectrum_get extinction channel * ray_length * 0.5) in
  let outgoing_point_is_closer := Rltb distance (0.5 * ray_length) in
  let near_slab_normal := get_geometric_normal outgoing_point in
  let far_slab_normal := vneg (get_geometric_normal incoming_point) in
  let slab_normal :=
    if outgoing_point_is_closer then far_slab_normal else near_slab_normal in
  let current_point := point_at ray distance in
  Some
    ({| initial_channel := channel;
        initial_distance := distance;
        ray_length := ray_length;
        bias_strategy_prob := bias_strategy_prob;
        near_slab_normal := near_slab_normal;
        far_slab_normal := far_slab_normal;
        slab_normal := slab_normal;
        walk_time := get_time outgoing_point |},
     {| sampling_context := sampling_context;
        bssrdf_sample :=
          {| m_value := value;
             m_probability := 1.0;
             m_incoming_point := incoming_point;
             m_has_brdf := m_has_brdf bssrdf_sample |};
        ray := ray;
        transmitted := transmitted;
        n_iteration := 0;
        current_point := current_point |}).

(** The walk of [sample]: the initial segment, then the loop.  The loop
    returns at the latest when [++n_iteration] exceeds [MaxIterationsCount],
    so [MaxIterationsCount + 1] passes are enough. *)
Definition random_walk (values : RandomWalkBSSRDFInputValues)
    (sampling_context : SamplingContext) (outgoing_point : ShadingPoint)
    (bssrdf_sample : BSSRDFSample) : WalkResult :=
  match sample_initial values sampling_context outgoing_point bssrdf_sample with
  | None => Escaped
  | Some (c, st) => walk_loop (S MaxIterationsCount) values c st
  end.

(** The throughput right after the loop: [clamp_in_place(m_value, 0, 2)]. *)
Definition post_walk_value (st : LoopState) : Spectrum :=
  clamp_in_place (m_value (bssrdf_sample st)) 0.0 2.0.

(** The scattering-order weighting that follows the clamp. *)
Definition apply_scattering_weights (values : RandomWalkBSSRDFInputValues)
    (n_iteration : nat) (value : Spectrum) : Spectrum :=
  let value :=
    if (n_iteration =? 1)%nat
    then spectrum_scale value (m_zero_scattering_weight values)
    else value in
  if (n_iteration =? 2)%nat
  then spectrum_scale value (m_single_scattering_weight values)
  else spectrum_scale value (m_multiple_scattering_weight values).

(** [sample] after the loop: clamp, weight, hand over to the BRDF. *)
Definition sample_exit (values : RandomWalkBSSRDFInputValues) (st : LoopState)
    (bsdf_sample : BSDFSample) : SamplingContext * BSSRDFSample * BSDFSample :=
  let value := post_walk_value st in
  let value := apply_scattering_weights values (n_iteration st) value in
  let incoming_point := flip_side (m_incoming_point (bssrdf_sample st)) in
  let bssrdf_sample :=
    {| m_value := value;
       m_probability := m_probability (bssrdf_sample st);
       m_incoming_point := incoming_point;
       m_has_brdf := true |} in
  (* Sample the BSDF at the incoming point. *)
  let bsdf_sample :=
    {| m_shading_point := Some incoming_point;
       m_geometric_normal := get_geometric_normal incoming_point;
       m_shading_basis := get_shading_basis incoming_point;
       m_outgoing := get_geometric_normal incoming_point;
       m_incoming := m_incoming bsdf_sample;
       m_bsdf_value := m_bsdf_value bsdf_sample;
       m_bsdf_probability := m_bsdf_probability bsdf_sample |} in
  let '(sampling_context, bsdf_sample) :=
    brdf_sample (sampling_context st) false true ScatteringModeAll bsdf_sample in
  (sampling_context, bssrdf_sample, bsdf_sample).

(** [RandomWalkBSSRDF::sample]: [None] is [return false], [Some] is
    [return true] with the sampling context and the two samples as left by the
    call. *)
Definition sample (values : RandomWalkBSSRDFInputValues)
    (sampling_context : SamplingContext) (outgoing_point : ShadingPoint)
    (bssrdf_sample : BSSRDFSample) (bsdf_sample : BSDFSample)
    : option (SamplingContext * BSSRDFSample * BSDFSample) :=
  match random_walk values sampling_context outgoing_point bssrdf_sample with
  | Exited st => Some (sample_exit values st bsdf_sample)
  | _ => None
  end.

End RandomWalkBSSRDF.

(* ------------------------------------------------------------------ *)
(** ** The vocabulary of the properties *)

(** The sum of [f i] over the channels [i < n]. *)
Fixpoint sum_channels (n : nat) (f : nat -> R) : R :=
  match n with
  | O => 0
  | S n' => sum_channels n' f + f n'
  end.

(** The transmission of channel [i] along a segment of length [distance]:
    [exp(-distance * extinction_i)], times [extinction_i] unless the segment
    ended on a surface. *)
Definition classical_transmission (distance : R) (extinction : Spectrum)
    (transmitted : bool) (i : nat) : R :=
  exp (- distance * spectrum_get extinction i)
  * (if transmitted then 1 else spectrum_get extinction i).

(** The exponent of [albedo_from_reflectance]. *)
Definition albedo_exponent (r : R) : R :=
  r * (- 5.09406 + r * (2.61188 - 4.31805 * r)).


Section Specification.

Context {E : Environment}.

(** The classical MIS density of the specification. *)
Definition classical_density_spec (distance : R)
    (extinction channel_pdf : Spectrum) (transmitted : bool) : R :=
  sum_channels Spectrum_size
    (fun i => classical_transmission distance extinction transmitted i
              * spectrum_get channel_pdf i).

(** The Dwivedi MIS density of a segment of length [distance] for the slab
    normal [normal], with the cosine [cosine] in the effective extinction
    [extinction_i * (1 - cosine * kappa_i)]: the sum over the channels of
    the distance density (the effective extinction dropped when the segment
    ended on a surface) times the channel probability times the
    phase-function density of the direction, times [4 pi]. *)
Definition dwivedi_density (distance : R) (extinction rcp_diffusion_length : Spectrum)
    (cosine : R) (channel_pdf : Spectrum) (transmitted : bool)
    (normal incoming : Vector3) : R :=
  sum_channels Spectrum_size
    (fun i =>
       let effective_extinction :=
         spectrum_get extinction i
         * (1 - cosine * spectrum_get rcp_diffusion_length i) in
       (if transmitted then 1 else effective_extinction)
       * exp (- distance * effective_extinction)
       * spectrum_get channel_pdf i
       * dwivedi_evaluate (rcp (spectrum_get rcp_diffusion_length i)) normal incoming)
  * FourPi.

(** The density as the claim words it: the cosine of the effective
    extinction is taken against the same slab normal as the phase function. *)
Definition dwivedi_density_own_cosine (distance : R)
    (extinction rcp_diffusion_length channel_pdf : Spectrum) (transmitted : bool)
    (normal incoming : Vector3) : R :=
  dwivedi_density distance extinction rcp_diffusion_length
    (dot incoming normal) channel_pdf transmitted normal incoming.

(** The values [prepare_inputs] stores for a channel whose clamped
    reflectance is [r] and whose clamped mean free path is [mfp]. *)
Definition channel_albedo (r : R) : R := albedo_from_reflectance r.
Definition channel_extinction (r mfp : R) : R :=
  rcp (mfp * normalized_diffusion_s_mfp r).
Definition channel_kappa (r : R) : R :=
  fmin (compute_rcp_diffusion_length (albedo_from_reflectance r)) 0.99.

(** The initial ray of [sample], from the first draw of the sampling context. *)
Definition initial_ray (sc : SamplingContext) (outgoing_point : ShadingPoint)
    : ShadingRay :=
  let local_dir :=
    sample_hemisphere_cosine (fst (next2_vector2 (split_in_place 2 1 sc))) in
  mkShadingRay (get_point outgoing_point)
    (transform_to_parent (get_shading_basis outgoing_point)
       (mkVector3 (vx local_dir) (- vy local_dir) (vz local_dir)))
    (get_time outgoing_point) ShadowRay (S (get_ray_depth outgoing_point)) None.

(** What the walk expects of the rest of the renderer: variates are not
    negative, channel probabilities are not negative and positive where the
    throughput is, the chosen channel exists, the phase function is a
    density, sampled directions have unit length, and a valid hit has a unit
    geometric normal and a distance that is not negative. *)
Record environment_contract : Prop := mk_environment_contract {
  variate_nonneg : forall sc, 0 <= fst (next2_float sc);
  pdf_nonneg :
    forall value i,
      well_formed value ->
      (forall j, (j < Spectrum_size)%nat -> 0 <= spectrum_get value j) ->
      (i < Spectrum_size)%nat ->
      0 <= spectrum_get (snd (build_cdf_and_pdf value)) i;
  pdf_positive :
    forall value i,
      well_formed value ->
      (forall j, (j < Spectrum_size)%nat -> 0 <= spectrum_get value j) ->
      (i < Spectrum_size)%nat ->
      0 < spectrum_get value i ->
      0 < spectrum_get (snd (build_cdf_and_pdf value)) i;
  channel_in_range : forall cdf s, (sample_cdf cdf s < Spectrum_size)%nat;
  phase_function_nonneg : forall nu0 outgoing incoming,
      0 <= dwivedi_evaluate nu0 outgoing incoming;
  sphere_direction_normalized : forall s, is_normalized (sample_sphere_uniform s);
  dwivedi_direction_normalized : forall nu0 outgoing s,
      is_normalized outgoing -> is_normalized (dwivedi_sample nu0 outgoing s);
  hit_normal_normalized : forall ray parent,
      is_valid (trace ray parent) = true ->
      is_normalized (get_geometric_normal (trace ray parent));
  hit_distance_nonneg : forall ray parent,
      is_valid (trace ray parent) = true ->
      0 <= get_distance (trace ray parent)
}.

(** The precomputed optical properties of the data model: positive albedo
    and extinction, reciprocal diffusion length in [[0, 0.99]]. *)
Record optical_properties_valid (values : RandomWalkBSSRDFInputValues) : Prop :=
  mk_optical_properties_valid {
  albedo_well_formed : well_formed (m_albedo (m_precomputed values));
  albedo_positive : forall i, (i < Spectrum_size)%nat ->
      0 < spectrum_get (m_albedo (m_precomputed values)) i;
  extinction_positive : forall i, (i < Spectrum_size)%nat ->
      0 < spectrum_get (m_extinction (m_precomputed values)) i;
  kappa_range : forall i, (i < Spectrum_size)%nat ->
      0 <= spectrum_get (m_rcp_diffusion_length (m_precomputed values)) i <= 0.99
}.

(** All the channels of a spectrum hold the same value. *)
Definition uniform_channels (s : Spectrum) : Prop :=
  forall i j, (i < Spectrum_size)%nat -> (j < Spectrum_size)%nat ->
    spectrum_get s i = spectrum_get s j.

(** The throughput has a value for every channel, none negative. *)
Definition throughput_nonneg (value : Spectrum) : Prop :=
  well_formed value
  /\ forall i, (i < Spectrum_size)%nat -> 0 <= spectrum_get value i.

(** The constants of a walk: the interpolation weight is a probability and
    the three slab normals have unit length. *)
Definition walk_constants_valid (c : WalkConstants) : Prop :=
  0 < bias_strategy_prob c <= 1
  /\ is_normalized (slab_normal c)
  /\ is_normalized (near_slab_normal c)
  /\ is_normalized (far_slab_normal c).

(** The loop-head states of a walk that starts in [st0]. *)
Inductive walk_reaches (values : RandomWalkBSSRDFInputValues) (c : WalkConstants)
    (st0 : LoopState) : LoopState -> Prop :=
  | reaches_start : walk_reaches values c st0 st0
  | reaches_step (st st' : LoopState) (it : Iteration) :
      walk_reaches values c st0 st ->
      transmitted st = false ->
      loop_body values c st = Stepped it st' ->
      walk_reaches values c st0 st'.

(** The variates [sample] draws before the loop for the channel and for the
    distance of the initial segment, after the two of the initial direction. *)
Definition initial_channel_variate (sc : SamplingContext) : R :=
  let d0 := next2_vector2 (split_in_place 2 1 sc) in
  fst (next2_float (split_in_place 1 1 (snd d0))).

Definition initial_distance_variate (sc : SamplingContext) : R :=
  let d0 := next2_vector2 (split_in_place 2 1 sc) in
  let d1 := next2_float (split_in_place 1 1 (snd d0)) in
  fst (next2_float (split_in_place 1 1 (snd d1))).

(** The head of a pass: the Russian roulette, run once the incremented
    iteration count exceeds [MinRRIteration]; the result is whether the walk
    goes on, with the sampling context and the sample the roulette leaves. *)
Definition after_roulette (st : LoopState) : bool * SamplingContext * BSSRDFSample :=
  if (MinRRIteration <? S (n_iteration st))%nat
  then test_rr (sampling_context st) (bssrdf_sample st)
  else (true, sampling_context st, bssrdf_sample st).

(** The draws of a pass, in the order of the loop body, from the sampling
    context [sc1] the roulette leaves: the variate of the channel, of the
    choice between Dwivedi and classical sampling, of the direction and of
    the distance, and the sampling context after them. *)
Definition pass_channel_variate (sc1 : SamplingContext) : R :=
  fst (next2_float (split_in_place 1 2 sc1)).

Definition pass_strategy_variate (sc1 : SamplingContext) : R :=
  let d1 := next2_float (split_in_place 1 2 sc1) in
  fst (next2_float (snd d1)).

Definition pass_direction_variate (sc1 : SamplingContext) : R * R :=
  let d1 := next2_float (split_in_place 1 2 sc1) in
  let d2 := next2_float (snd d1) in
  fst (next2_vector2 (split_in_place 2 1 (snd d2))).

Definition pass_distance_variate (sc1 : SamplingContext) : R :=
  let d1 := next2_float (split_in_place 1 2 sc1) in
  let d2 := next2_float (snd d1) in
  let d3 := next2_vector2 (split_in_place 2 1 (snd d2)) in
  fst (next2_float (split_in_place 1 1 (snd d3))).

Definition pass_context (sc1 : SamplingContext) : SamplingContext :=
  let d1 := next2_float (split_in_place 1 2 sc1) in
  let d2 := next2_float (snd d1) in
  let d3 := next2_vector2 (split_in_place 2 1 (snd d2)) in
  snd (next2_float (split_in_place 1 1 (snd d3))).

(** The walk that starts in [st0] ends as [result] says: at a loop head it
    reaches from [st0] by complete passes of the loop body, all run with the
    constants [c]; there the loop is left, or the pass that starts there
    fails. *)
Definition walk_ends_at (values : RandomWalkBSSRDFInputValues) (c : WalkConstants)
    (st0 : LoopState) (result : WalkResult) : Prop :=
  match result with
  | Exited st => walk_reaches values c st0 st /\ transmitted st = true
  | Lost n =>
      exists st, walk_reaches values c st0 st /\ transmitted st = false
                 /\ loop_body values c st = LostIterations
                 /\ n = S (n_iteration st)
  | Terminated n =>
      exists st, walk_reaches values c st0 st /\ transmitted st = false
                 /\ loop_body values c st = FailedRR
                 /\ n = S (n_iteration st)
  | Degenerate n =>
      exists st, walk_reaches values c st0 st /\ transmitted st = false
                 /\ loop_body values c st = LostChannel
                 /\ n = S (n_iteration st)
  | Escaped => False
  | OutOfFuel => False
  end.

End Specification.

(* ------------------------------------------------------------------ *)
(** ** A concrete renderer: a planar slab *)

Module Slab.

(** The slab [0 <= z <= 1] with two-channel spectra, a sampling context that
    replays a script of variates, two-valued direction samplers and an
    isotropic phase-function density. *)

Inductive Variate : Type :=
  | Zero                         (* 0 *)
  | Half                         (* 1/2 *)
  | OneMinusExp (k : positive).  (* 1 - exp(-k) *)

Definition variate (v : Variate) : R :=
  match v with
  | Zero => 0
  | Half => 1 / 2
  | OneMinusExp k => 1 - exp (- IZR (Zpos k))
  end.

Definition Script : Type := list Variate.

Definition next_float (sc : Script) : R * Script :=
  match sc with
  | [] => (0, [])
  | v :: sc' => (variate v, sc')
  end.

Definition next_vector2 (sc : Script) : (R * R) * Script :=
  let '(a, sc) := next_float sc in
  let '(b, sc) := next_float sc in
  ((a, b), sc).

Definition z_axis : Vector3 := mkVector3 0 0 1.

Definition two_valued (axis : Vector3) (s : R * R) : Vector3 :=
  if Rlt_dec (fst s) (1 / 2) then axis else vneg axis.

(** Channel probabilities proportional to the two channel values. *)
Definition proportional (src : Spectrum) : Spectrum * Spectrum :=
  let a := spectrum_get src 0 in
  let b := spectrum_get src 1 in
  ([a / (a + b); 1], [a / (a + b); b / (a + b)]).

Definition pick (cdf : Spectrum) (s : R) : nat :=
  if Rlt_dec s (spectrum_get cdf 0) then 0%nat else 1%nat.

Definition to_parent (basis : Basis3) (v : Vector3) : Vector3 :=
  vadd (vscale (vx v) (m_u basis))
    (vadd (vscale (vy v) (m_n basis)) (vscale (vz v) (m_v basis))).

Definition slab_basis (n : Vector3) : Basis3 :=
  mkBasis3 n (mkVector3 1 0 0) (mkVector3 0 1 0).

Definition no_hit (ray : ShadingRay) : ShadingPoint :=
  mkShadingPoint false false 0 (m_org ray) z_axis (slab_basis z_axis)
    (m_time ray) (m_depth ray).

(** The hit at parameter [t] of [ray], on the plane whose normal, turned
    towards the ray, is [n]; no hit unless [0 <= t <= tmax]. *)
Definition hit_at (ray : ShadingRay) (t : R) (n : Vector3) : ShadingPoint :=
  if Rle_dec 0 t
  then match m_tmax ray with
       | Some tmax =>
           if Rle_dec t tmax
           then mkShadingPoint true true t (point_at ray t) n (slab_basis n)
                  (m_time ray) (m_depth ray)
           else no_hit ray
       | None =>
           mkShadingPoint true true t (point_at ray t) n (slab_basis n)
             (m_time ray) (m_depth ray)
       end
  else no_hit ray.

Definition slab_trace (ray : ShadingRay) (parent : option ShadingPoint)
    : ShadingPoint :=
  let oz := vz (m_org ray) in
  let dz := vz (m_dir ray) in
  if Rlt_dec 0 dz then hit_at ray ((1 - oz) / dz) (vneg z_axis)
  else if Rlt_dec dz 0 then hit_at ray ((0 - oz) / dz) z_axis
  else no_hit ray.

Definition flip (p : ShadingPoint) : ShadingPoint :=
  mkShadingPoint (is_valid p) (hit_surface p) (get_distance p) (get_point p)
    (vneg (get_geometric_normal p)) (get_shading_basis p) (get_time p)
    (get_ray_depth p).

#[export] Instance environment : Environment := {|
  Spectrum_size := 2;
  normalized_diffusion_s_mfp := fun a => 1.85 - a + 7.0 * (Rabs (a - 0.8)) ^ 3;
  SamplingContext := Script;
  split_in_place := fun _ _ sc => sc;
  next2_float := next_float;
  next2_vector2 := next_vector2;
  sample_hemisphere_cosine := fun _ => mkVector3 0 1 0;
  sample_sphere_uniform := two_valued z_axis;
  dwivedi_sample := fun _ outgoing s => two_valued outgoing s;
  dwivedi_evaluate := fun _ _ _ => 1 / FourPi;
  build_cdf_and_pdf := proportional;
  sample_cdf := pick;
  transform_to_parent := to_parent;
  trace := slab_trace;
  flip_side := flip;
  brdf_sample := fun sc _ _ _ bsdf => (sc, bsdf)
|}.

(** The entry point: the origin, on the face [z = 0], outward normal [-z]. *)
Definition entry_point : ShadingPoint :=
  mkShadingPoint true true 0 (mkVector3 0 0 0) (vneg z_axis)
    (slab_basis (vneg z_axis)) 0 0.

(** An entry point whose shading basis sends the initial ray along the
    faces of the slab, so that it reaches no surface. *)
Definition grazing_point : ShadingPoint :=
  mkShadingPoint true true 0 (mkVector3 0 0 (1 / 2)) (vneg z_axis)
    (slab_basis (mkVector3 1 0 0)) 0 0.

Definition empty_sample : BSSRDFSample :=
  mkBSSRDFSample [0; 0] 0 (no_hit (mkShadingRay z_axis z_axis 0 ShadowRay 0 None)) false.

Definition empty_bsdf_sample : BSDFSample :=
  mkBSDFSample None z_axis (slab_basis z_axis) z_axis z_axis [0; 0] 0.

(** Input values with the given precomputed optical properties and
    scattering-order weights 2, 5 and 3. *)
Definition input_values (p : Precomputed) : RandomWalkBSSRDFInputValues :=
  mkInputValues 1 [1 / 2; 1 / 4] 1 [1; 2] 1 1.3 1 2 5 3 p.

(** A medium with extinction 4, albedo 1/2 and [kappa = 1/2] in both
    channels, and a medium with no extinction at all. *)
Definition medium : Precomputed :=
  mkPrecomputed [1 / 2; 1 / 2] [4; 4] [2; 2] [1 / 2; 1 / 2].

Definition clear_medium : Precomputed :=
  mkPrecomputed [1 / 2; 1 / 2] [0; 0] [0; 0] [1 / 2; 1 / 2].

(** Input values whose scattering-order weights, 1/2, 1 and 1/4, respect the
    hard limits [[0, 1]] of their inputs. *)
Definition bounded_values (p : Precomputed) : RandomWalkBSSRDFInputValues :=
  mkInputValues 1 [1 / 2; 1 / 4] 1 [1; 2] 1 1.3 1 (1 / 2) 1 (1 / 4) p.

End Slab.

(** The constants and the first loop state of a walk in the slab. *)
Definition slab_start (values : RandomWalkBSSRDFInputValues) (script : Slab.Script)
    (outgoing_point : ShadingPoint) : WalkConstants * LoopState :=
  match sample_initial (E := Slab.environment) values script outgoing_point
          Slab.empty_sample with
  | Some r => r
  | None =>
      (mkWalkConstants 0 0 0 0 Slab.z_axis Slab.z_axis Slab.z_axis 0,
       mkLoopState (E := Slab.environment) script Slab.empty_sample
         (mkShadingRay Slab.z_axis Slab.z_axis 0 ShadowRay 0 None) false 0 Slab.z_axis)
  end.

(** The script of a walk whose initial distance is 1/4 and whose first pass
    picks the biased strategy, the direction opposite to the slab normal and
    the variate [v] for its distance. *)
Definition slab_script (v : Slab.Variate) : Slab.Script :=
  [Slab.Zero; Slab.Zero; Slab.Zero; Slab.OneMinusExp 1;
   Slab.Zero; Slab.Half; Slab.Half; Slab.Zero; v].

Definition slab_constants (v : Slab.Variate) : WalkConstants :=
  fst (slab_start (Slab.input_values Slab.medium) (slab_script v) Slab.entry_point).

Definition slab_state (v : Slab.Variate) : LoopState :=
  snd (slab_start (Slab.input_values Slab.medium) (slab_script v) Slab.entry_point).

(** A walk whose initial segment, of sampled length 5/4, crosses the slab. *)
Definition crossing_script : Slab.Script :=
  [Slab.Zero; Slab.Zero; Slab.Zero; Slab.OneMinusExp 5].

Definition crossing_state : LoopState :=
  snd (slab_start (Slab.input_values Slab.medium) crossing_script Slab.entry_point).









(* ------------------------------------------------------------------ *)
(** * Properties *)

(* ------------------------------------------------------------------ *)
(** ** Facts about spectra *)

Lemma spectrum_set_length (s : Spectrum) (i : nat) (x : R) :
  length (spectrum_set s i x) = length s.
Proof.
  revert i; induction s as [|h t IH]; intros [|j]; simpl; auto.
Qed.

Lemma spectrum_get_set_same (s : Spectrum) (i : nat) (x : R) :
  (i < length s)%nat -> spectrum_get (spectrum_set s i x) i = x.
Proof.
  unfold spectrum_get; revert i.
  induction s as [|h t IH]; intros [|j] Hi; simpl in *; try lia; auto.
  apply IH; lia.
Qed.

Lemma spectrum_get_set_other (s : Spectrum) (i j : nat) (x : R) :
  i <> j -> spectrum_get (spectrum_set s i x) j = spectrum_get s j.
Proof.
  unfold spectrum_get; revert i j.
  induction s as [|h t IH]; intros [|i] [|j] Hij; simpl; auto; try lia.
Qed.

Lemma spectrum_get_map (f : R -> R) (s : Spectrum) (i : nat) :
  (i < length s)%nat -> spectrum_get (map f s) i = f (spectrum_get s i).
Proof.
  unfold spectrum_get; revert i.
  induction s as [|h t IH]; intros [|j] Hi; simpl in *; try lia; auto.
  apply IH; lia.
Qed.

Lemma spectrum_mul_length (a b : Spectrum) :
  length a = length b -> length (spectrum_mul a b) = length a.
Proof.
  revert b; induction a as [|x a IH]; intros [|y b] H; simpl in *; try lia.
  f_equal; apply IH; lia.
Qed.

Lemma spectrum_get_mul (a b : Spectrum) (i : nat) :
  (i < length a)%nat -> (i < length b)%nat ->
  spectrum_get (spectrum_mul a b) i = spectrum_get a i * spectrum_get b i.
Proof.
  unfold spectrum_get; revert b i.
  induction a as [|x a IH]; intros [|y b] [|j] Ha Hb; simpl in *; try lia; auto.
  apply IH; lia.
Qed.

Lemma spectrum_get_fill (n i : nat) (x : R) :
  (i < n)%nat -> spectrum_get (spectrum_fill n x) i = x.
Proof.
  unfold spectrum_get, spectrum_fill; revert i.
  induction n as [|n IH]; intros [|j] Hi; simpl; try lia; auto.
  apply IH; lia.
Qed.

Lemma sum_channels_nonneg (n : nat) (f : nat -> R) :
  (forall i, (i < n)%nat -> 0 <= f i) -> 0 <= sum_channels n f.
Proof.
  induction n as [|n IH]; intros H; simpl; [lra|].
  specialize (IH (fun i Hi => H i (Nat.lt_lt_succ_r _ _ Hi))).
  specialize (H n (Nat.lt_succ_diag_r n)); lra.
Qed.

Lemma sum_channels_ge_term (n : nat) (f : nat -> R) (j : nat) :
  (forall i, (i < n)%nat -> 0 <= f i) -> (j < n)%nat -> f j <= sum_channels n f.
Proof.
  induction n as [|n IH]; intros H Hj; simpl; [lia|].
  assert (Hn : 0 <= f n) by (apply H; lia).
  destruct (Nat.eq_dec j n) as [->|Hne].
  - assert (0 <= sum_channels n f) by (apply sum_channels_nonneg; intros; apply H; lia).
    lra.
  - assert (f j <= sum_channels n f) by (apply IH; [intros; apply H; lia | lia]).
    lra.
Qed.

Section Densities.

Context {E : Environment}.

(** The loop of the classical density, from any channel [i] on: the channels
    below [i] are left alone, the channels [i .. i + k) receive their
    transmission, and [mis_base] grows by their weighted sum. *)
Lemma compute_transmission_classical_sampling_loop_spec
    (distance : R) (extinction channel_pdf : Spectrum) (transmitted : bool) :
  forall (k i : nat) (mis_base : R) (transmission : Spectrum),
    (i + k <= length transmission)%nat ->
    let f := fun j => classical_transmission distance extinction transmitted j in
    let r := compute_transmission_classical_sampling_loop k i
               distance extinction channel_pdf transmitted mis_base transmission in
    fst r = mis_base
            + (sum_channels (i + k) (fun j => f j * spectrum_get channel_pdf j)
               - sum_channels i (fun j => f j * spectrum_get channel_pdf j))
    /\ length (snd r) = length transmission
    /\ (forall j, (i <= j < i + k)%nat -> spectrum_get (snd r) j = f j)
    /\ (forall j, (j < i)%nat -> spectrum_get (snd r) j = spectrum_get transmission j).
Proof.
  induction k as [|k IH]; intros i mis_base transmission Hlen f r.
  - subst r; simpl. rewrite Nat.add_0_r.
    repeat split; auto; try lra; intros; lia.
  - subst r; simpl compute_transmission_classical_sampling_loop.
    set (tr1 := spectrum_set transmission i (exp (- distance * spectrum_get extinction i))).
    set (tr2 := if negb transmitted
                then spectrum_set tr1 i (spectrum_get tr1 i * spectrum_get extinction i)
                else tr1).
    assert (Hl2 : length tr2 = length transmission).
    { subst tr2 tr1; destruct transmitted; simpl;
        rewrite ?spectrum_set_length; reflexivity. }
    assert (Hi : spectrum_get tr2 i = f i).
    { subst tr2 tr1 f; unfold classical_transmission.
      destruct transmitted; simpl.
      - rewrite spectrum_get_set_same by lia; lra.
      - rewrite !spectrum_get_set_same by (rewrite ?spectrum_set_length; lia).
        reflexivity. }
    assert (Hlow : forall j, (j < i)%nat -> spectrum_get tr2 j = spectrum_get transmission j).
    { intros j Hj; subst tr2 tr1; destruct transmitted; simpl;
        rewrite ?spectrum_get_set_other by lia; reflexivity. }
    destruct (IH (S i) (mis_base + spectrum_get tr2 i * spectrum_get channel_pdf i) tr2)
      as (H1 & H2 & H3 & H4); [lia|].
    repeat split.
    + rewrite H1, Hi. replace (i + S k)%nat with (S i + k)%nat by lia.
      subst f; cbn [sum_channels Nat.add]; lra.
    + rewrite H2; exact Hl2.
    + intros j Hj. destruct (Nat.eq_dec j i) as [->|Hne].
      * rewrite H4 by lia. exact Hi.
      * apply H3; lia.
    + intros j Hj. rewrite H4 by lia. apply Hlow; exact Hj.
Qed.

(** The classical density and the transmission it writes. *)
Lemma compute_transmission_classical_sampling_spec
    (distance : R) (extinction channel_pdf : Spectrum) (transmitted : bool)
    (transmission : Spectrum) :
  well_formed transmission ->
  let r := compute_transmission_classical_sampling
             distance extinction channel_pdf transmitted transmission in
  fst r = classical_density_spec distance extinction channel_pdf transmitted
  /\ well_formed (snd r)
  /\ forall i, (i < Spectrum_size)%nat ->
       spectrum_get (snd r) i
       = exp (- distance * spectrum_get extinction i)
         * (if transmitted then 1 else spectrum_get extinction i).
Proof.
  intros Hwf r; unfold well_formed in *.
  destruct (compute_transmission_classical_sampling_loop_spec
              distance extinction channel_pdf transmitted
              Spectrum_size 0 0.0 transmission) as (H1 & H2 & H3 & _); [lia|].
  subst r; unfold compute_transmission_classical_sampling, classical_density_spec.
  repeat split.
  - rewrite H1; simpl; lra.
  - rewrite H2; exact Hwf.
  - intros i Hi. rewrite H3 by lia. reflexivity.
Qed.

(** C8. After a segment of length [distance],
    [compute_transmission_classical_sampling] returns the sum over the
    channels of [exp(-distance * extinction_i) * channel_pdf_i], each term
    multiplied by [extinction_i] exactly when the segment did not end on a
    surface, and writes that per-channel transmission into every channel of
    its output spectrum. *)
Theorem classical_density_is_weighted_transmission_sum
    (distance : R) (extinction channel_pdf : Spectrum) (transmitted : bool)
    (transmission : Spectrum) :
  well_formed transmission ->
  let r := compute_transmission_classical_sampling
             distance extinction channel_pdf transmitted transmission in
  fst r = sum_channels Spectrum_size
            (fun i => exp (- distance * spectrum_get extinction i)
                      * (if transmitted then 1 else spectrum_get extinction i)
                      * spectrum_get channel_pdf i)
  /\ well_formed (snd r)
  /\ forall i, (i < Spectrum_size)%nat ->
       spectrum_get (snd r) i
       = exp (- distance * spectrum_get extinction i)
         * (if transmitted then 1 else spectrum_get extinction i).
Proof.
  intros Hwf r.
  destruct (compute_transmission_classical_sampling_spec
              distance extinction channel_pdf transmitted transmission Hwf)
    as (H1 & H2 & H3).
  split; [|split]; [|exact H2|exact H3].
  subst r; rewrite H1. reflexivity.
Qed.

End Densities.

(* ------------------------------------------------------------------ *)
(** ** The optical property preprocessor *)

Lemma albedo_from_reflectance_eq (r : R) :
  albedo_from_reflectance r = 1 - exp (albedo_exponent r).
Proof. unfold albedo_from_reflectance, albedo_exponent; f_equal; lra. Qed.

Lemma albedo_exponent_decreasing (r1 r2 : R) :
  r1 < r2 -> albedo_exponent r2 < albedo_exponent r1.
Proof.
  intros H; unfold albedo_exponent.
  assert (H0 : 0 < 5.09406 - 2.61188 * (r1 + r2)
                   + 4.31805 * (r1 * r1 + r1 * r2 + r2 * r2)).
  { pose proof (Rle_0_sqr (r1 - r2)) as Ha.
    pose proof (Rle_0_sqr (r1 + r2 - 0.4)) as Hb.
    unfold Rsqr in Ha, Hb. nra. }
  nra.
Qed.

Lemma albedo_exponent_negative (r : R) : 0 < r -> albedo_exponent r < 0.
Proof.
  intros H. pose proof (albedo_exponent_decreasing 0 r H) as H1.
  assert (H0 : albedo_exponent 0 = 0) by (unfold albedo_exponent; lra).
  lra.
Qed.

Lemma exp_square_bound (a b c d : R) :
  0 <= c -> c <= exp a -> d <= c * c -> b = 2 * a -> d <= exp b.
Proof.
  intros Hc Hle Hd ->. replace (2 * a) with (a + a) by lra.
  rewrite exp_plus. nra.
Qed.

(** [exp(-6.7875) > 0.0011], by ten squarings of [exp(-6.7875/1024)]. *)
Lemma exp_lower_bound : 0.0011 < exp (- 6.7875).
Proof.
  assert (H0 : 0.9933715820 <= exp (- 6.7875 / 1024)).
  { pose proof (exp_ineq1 (- 6.7875 / 1024)) as H. lra. }
  assert (H1 : 0.9867870999 <= exp (- 6.7875 / 512)).
  { apply (exp_square_bound (- 6.7875 / 1024) _ 0.9933715820 _); [lra | exact H0 | lra | lra]. }
  assert (H2 : 0.9737487805 <= exp (- 6.7875 / 256)).
  { apply (exp_square_bound (- 6.7875 / 512) _ 0.9867870999 _); [lra | exact H1 | lra | lra]. }
  assert (H3 : 0.9481866875 <= exp (- 6.7875 / 128)).
  { apply (exp_square_bound (- 6.7875 / 256) _ 0.9737487805 _); [lra | exact H2 | lra | lra]. }
  assert (H4 : 0.8990579943 <= exp (- 6.7875 / 64)).
  { apply (exp_square_bound (- 6.7875 / 128) _ 0.9481866875 _); [lra | exact H3 | lra | lra]. }
  assert (H5 : 0.8083052771 <= exp (- 6.7875 / 32)).
  { apply (exp_square_bound (- 6.7875 / 64) _ 0.8990579943 _); [lra | exact H4 | lra | lra]. }
  assert (H6 : 0.6533574209 <= exp (- 6.7875 / 16)).
  { apply (exp_square_bound (- 6.7875 / 32) _ 0.8083052771 _); [lra | exact H5 | lra | lra]. }
  assert (H7 : 0.4268759194 <= exp (- 6.7875 / 8)).
  { apply (exp_square_bound (- 6.7875 / 16) _ 0.6533574209 _); [lra | exact H6 | lra | lra]. }
  assert (H8 : 0.1822230505 <= exp (- 6.7875 / 4)).
  { apply (exp_square_bound (- 6.7875 / 8) _ 0.4268759194 _); [lra | exact H7 | lra | lra]. }
  assert (H9 : 0.0332052401 <= exp (- 6.7875 / 2)).
  { apply (exp_square_bound (- 6.7875 / 4) _ 0.1822230505 _); [lra | exact H8 | lra | lra]. }
  assert (H10 : 0.0011025879 <= exp (- 6.7875 / 1)).
  { apply (exp_square_bound (- 6.7875 / 2) _ 0.0332052401 _); [lra | exact H9 | lra | lra]. }
  replace (- 6.7875) with (- 6.7875 / 1) by lra. lra.
Qed.

(** On the clamped reflectances the albedo stays inside [(0, 0.999)], so the
    clamp of [compute_rcp_diffusion_length] leaves it alone. *)
Lemma albedo_from_reflectance_range (r : R) :
  0.001 <= r <= 0.999 ->
  0 < albedo_from_reflectance r < 0.999.
Proof.
  intros [Hlo Hhi]. rewrite albedo_from_reflectance_eq.
  assert (Hneg : albedo_exponent r < 0) by (apply albedo_exponent_negative; lra).
  assert (H1 : exp (albedo_exponent r) < 1).
  { rewrite <- exp_0. apply exp_increasing; exact Hneg. }
  assert (H2 : - 6.7875 < albedo_exponent r).
  { assert (albedo_exponent 0.999 <= albedo_exponent r).
    { destruct (Req_dec r 0.999) as [->|Hne]; [lra|].
      left; apply albedo_exponent_decreasing; lra. }
    assert (- 6.7875 < albedo_exponent 0.999) by (unfold albedo_exponent; lra).
    lra. }
  apply exp_increasing in H2. pose proof exp_lower_bound. lra.
Qed.

(** C7. For every reflectance in [[0.001, 0.999]] the albedo computed by
    [albedo_from_reflectance] lies strictly between 0 and 1, and
    [albedo_from_reflectance] is increasing on that interval. *)
Theorem albedo_from_reflectance_unit_interval_and_increasing (r1 r2 : R) :
  0.001 <= r1 <= 0.999 ->
  0.001 <= r2 <= 0.999 ->
  0 < albedo_from_reflectance r1 < 1
  /\ (r1 < r2 -> albedo_from_reflectance r1 < albedo_from_reflectance r2)
  /\ (r1 <= r2 -> albedo_from_reflectance r1 <= albedo_from_reflectance r2).
Proof.
  intros Hr1 Hr2.
  assert (Hstrict : r1 < r2 ->
            albedo_from_reflectance r1 < albedo_from_reflectance r2).
  { intros H. rewrite !albedo_from_reflectance_eq.
    pose proof (exp_increasing _ _ (albedo_exponent_decreasing r1 r2 H)). lra. }
  split; [|split].
  - pose proof (albedo_from_reflectance_range r1 Hr1). lra.
  - exact Hstrict.
  - intros [H| ->]; [left; apply Hstrict; exact H | right; reflexivity].
Qed.

(** The decimal literals [1.0] and [0.0] of the source. *)
Lemma literal_one : 1.0 = 1.
Proof. lra. Qed.

Lemma literal_zero : 0.0 = 0.
Proof. lra. Qed.

Lemma fmin_is_Rmin (a b : R) : fmin a b = Rmin a b.
Proof.
  unfold fmin, Rmin. destruct (Rlt_dec b a), (Rle_dec a b); lra.
Qed.

Lemma clamp_range (x low high : R) : low <= high -> low <= clamp x low high <= high.
Proof.
  intros H; unfold clamp.
  destruct (Rlt_dec x low); [lra|]. destruct (Rlt_dec high x); lra.
Qed.

Lemma clamp_inside (x low high : R) : low <= x <= high -> clamp x low high = x.
Proof.
  intros H; unfold clamp.
  destruct (Rlt_dec x low); [lra|]. destruct (Rlt_dec high x); lra.
Qed.

Lemma clamp_low_lower (x low : R) : low <= clamp_low x low.
Proof. unfold clamp_low; destruct (Rlt_dec x low); lra. Qed.


Section Preprocessor.

Context {E : Environment}.

(** The channel loop of [prepare_inputs], from any channel [i] on. *)
Lemma prepare_inputs_loop_spec (reflectance mfp : Spectrum) :
  forall (k i : nat) (p : Precomputed),
    (i + k <= length (m_albedo p))%nat ->
    (i + k <= length (m_extinction p))%nat ->
    (i + k <= length (m_scattering p))%nat ->
    (i + k <= length (m_rcp_diffusion_length p))%nat ->
    let q := prepare_inputs_loop k i reflectance mfp p in
    (length (m_albedo q) = length (m_albedo p)
     /\ length (m_extinction q) = length (m_extinction p)
     /\ length (m_scattering q) = length (m_scattering p)
     /\ length (m_rcp_diffusion_length q) = length (m_rcp_diffusion_length p))
    /\ (forall j, (j < i)%nat ->
          spectrum_get (m_albedo q) j = spectrum_get (m_albedo p) j
          /\ spectrum_get (m_extinction q) j = spectrum_get (m_extinction p) j
          /\ spectrum_get (m_scattering q) j = spectrum_get (m_scattering p) j
          /\ spectrum_get (m_rcp_diffusion_length q) j
             = spectrum_get (m_rcp_diffusion_length p) j)
    /\ (forall j, (i <= j < i + k)%nat ->
          let r := spectrum_get reflectance j in
          let m := spectrum_get mfp j in
          spectrum_get (m_albedo q) j = channel_albedo r
          /\ spectrum_get (m_extinction q) j = channel_extinction r m
          /\ spectrum_get (m_scattering q) j
             = channel_albedo r * channel_extinction r m
          /\ spectrum_get (m_rcp_diffusion_length q) j = channel_kappa r).
Proof.
  induction k as [|k IH]; intros i p Ha He Hs Hk q.
  - subst q; simpl. repeat split; auto; intros; lia.
  - subst q; simpl prepare_inputs_loop.
    match goal with
    | |- context [prepare_inputs_loop k (S i) reflectance mfp ?p'] => set (p1 := p')
    end.
    destruct (IH (S i) p1) as (Hlen & Hlow & Hnew);
      try (subst p1; simpl; rewrite spectrum_set_length; lia).
    destruct Hlen as (L1 & L2 & L3 & L4).
    split; [|split].
    + rewrite L1, L2, L3, L4. subst p1; simpl.
      rewrite !spectrum_set_length; auto.
    + intros j Hj. destruct (Hlow j ltac:(lia)) as (A & B & C & D).
      rewrite A, B, C, D. subst p1; simpl.
      rewrite !spectrum_get_set_other by lia; auto.
    + intros j Hj r m. destruct (Nat.eq_dec j i) as [->|Hne].
      * destruct (Hlow i ltac:(lia)) as (A & B & C & D).
        rewrite A, B, C, D. subst p1; simpl.
        rewrite !spectrum_get_set_same by lia.
        subst r m; unfold channel_albedo, channel_extinction, channel_kappa; auto.
      * apply Hnew; lia.
Qed.


End Preprocessor.

(* ------------------------------------------------------------------ *)
(** ** The random walk *)

Section Walk.

Context {E : Environment}.

Lemma Reqb_false (a b : R) : Reqb a b = false -> a <> b.
Proof. unfold Reqb; destruct (Req_dec_T a b); [discriminate | auto]. Qed.

Lemma Rltb_true (a b : R) : Rltb a b = true <-> a < b.
Proof. unfold Rltb; destruct (Rlt_dec a b); split; auto; discriminate. Qed.

Lemma Rltb_false (a b : R) : Rltb a b = false <-> ~ a < b.
Proof. unfold Rltb; destruct (Rlt_dec a b); split; auto; try discriminate; tauto. Qed.

(** What a complete pass through the loop body did, read off its result. *)
Lemma loop_body_stepped (values : RandomWalkBSSRDFInputValues) (c : WalkConstants)
    (st st' : LoopState) (it : Iteration) :
  loop_body values c st = Stepped it st' ->
  let extinction := m_extinction (m_precomputed values) in
  let albedo := m_albedo (m_precomputed values) in
  let scattering := m_scattering (m_precomputed values) in
  let rcp_diffusion_length := m_rcp_diffusion_length (m_precomputed values) in
  exists (sc1 : SamplingContext) (bs1 : BSSRDFSample) (cdf : Spectrum)
         (s_channel s_biased s_distance : R) (s_direction : R * R),
    (S (n_iteration st) <= MaxIterationsCount)%nat
    /\ n_iteration st' = S (n_iteration st)
    /\ (if (MinRRIteration <? S (n_iteration st))%nat
        then test_rr (sampling_context st) (bssrdf_sample st)
        else (true, sampling_context st, bssrdf_sample st)) = (true, sc1, bs1)
    /\ build_cdf_and_pdf (m_value bs1) = (cdf, it_channel_pdf it)
    /\ it_channel it = sample_cdf cdf s_channel
    /\ spectrum_get scattering (it_channel it) <> 0
    /\ spectrum_get (m_value bs1) (it_channel it) <> 0
    /\ it_is_biased it = Rltb classical_sampling_prob s_biased
    /\ it_incoming it
       = (if it_is_biased it
          then dwivedi_sample (rcp (spectrum_get rcp_diffusion_length (it_channel it)))
                 (slab_normal c) s_direction
          else sample_sphere_uniform s_direction)
    /\ it_scattered_value it = spectrum_mul (m_value bs1) albedo
    /\ it_cosine it = dot (it_incoming it) (slab_normal c)
    /\ it_effective_extinction it
       = (if it_is_biased it
          then spectrum_get extinction (it_channel it)
               * (1.0 - it_cosine it * spectrum_get rcp_diffusion_length (it_channel it))
          else spectrum_get extinction (it_channel it))
    /\ it_sampled_distance it
       = sample_exponential_distribution s_distance (it_effective_extinction it)
    /\ ray st'
       = mkShadingRay (current_point st) (it_incoming it) (walk_time c) ShadowRay
           (S (m_depth (ray st))) (Some (it_sampled_distance it))
    /\ m_incoming_point (bssrdf_sample st') = trace (ray st') None
    /\ it_transmitted it = hit_surface (m_incoming_point (bssrdf_sample st'))
    /\ transmitted st' = it_transmitted it
    /\ it_distance it
       = (if it_transmitted it
          then get_distance (m_incoming_point (bssrdf_sample st'))
          else it_sampled_distance it)
    /\ compute_transmission_classical_sampling (it_distance it) extinction
         (it_channel_pdf it) (it_transmitted it) (spectrum_fill Spectrum_size 0.0)
       = (it_mis_classical it, it_transmission it)
    /\ it_mis_dwivedi_near it
       = compute_mis_dwivedi_sampling (it_distance it) extinction rcp_diffusion_length
           (it_cosine it) (it_channel_pdf it) (it_transmitted it)
           (near_slab_normal c) (it_incoming it)
    /\ it_mis_dwivedi_far it
       = compute_mis_dwivedi_sampling (it_distance it) extinction rcp_diffusion_length
           (it_cosine it) (it_channel_pdf it) (it_transmitted it)
           (far_slab_normal c) (it_incoming it)
    /\ m_value (bssrdf_sample st')
       = spectrum_mul (it_scattered_value it)
           (spectrum_scale (it_transmission it)
              (rcp (mix (mix (it_mis_dwivedi_far it) (it_mis_dwivedi_near it)
                           (bias_strategy_prob c))
                        (it_mis_classical it) classical_sampling_prob)))
    /\ current_point st' = point_at (ray st') (it_sampled_distance it)
    /\ (let d1 := next2_float (split_in_place 1 2 sc1) in
        let d2 := next2_float (snd d1) in
        let d3 := next2_vector2 (split_in_place 2 1 (snd d2)) in
        let d4 := next2_float (split_in_place 1 1 (snd d3)) in
        s_channel = fst d1 /\ s_biased = fst d2 /\ s_direction = fst d3
        /\ s_distance = fst d4 /\ sampling_context st' = snd d4).
Proof.
  intros H extinction albedo scattering rcp_diffusion_length.
  unfold loop_body in H.
  destruct (MaxIterationsCount <? S (n_iteration st))%nat eqn:Hmax; [discriminate|].
  destruct (if (MinRRIteration <? S (n_iteration st))%nat
            then test_rr (sampling_context st) (bssrdf_sample st)
            else (true, sampling_context st, bssrdf_sample st))
    as [[passed sc1] bs1] eqn:Hrr.
  destruct passed; [|discriminate]. simpl negb in H. cbv iota in H.
  destruct (build_cdf_and_pdf (m_value bs1)) as [cdf pdf] eqn:Hcdf.
  destruct (next2_float (split_in_place 1 2 sc1)) as [s_channel sc2] eqn:Hs1.
  destruct (Reqb (spectrum_get (m_scattering (m_precomputed values))
                    (sample_cdf cdf s_channel)) 0.0) eqn:Hscat; [discriminate|].
  destruct (Reqb (spectrum_get (m_value bs1) (sample_cdf cdf s_channel)) 0.0)
    eqn:Hval; [discriminate|].
  simpl orb in H. cbv iota in H.
  destruct (next2_float sc2) as [s_biased sc3] eqn:Hs2.
  destruct (next2_vector2 (split_in_place 2 1 sc3)) as [s_direction sc4] eqn:Hs3.
  destruct (next2_float (split_in_place 1 1 sc4)) as [s_distance sc5] eqn:Hs4.
  match type of H with
  | context [compute_transmission_classical_sampling ?d ?e ?p ?t ?tr] =>
      destruct (compute_transmission_classical_sampling d e p t tr)
        as [mis_classical transmission] eqn:Hcl
  end.
  inversion H; subst it st'; clear H; simpl.
  exists sc1, bs1, cdf, s_channel, s_biased, s_distance, s_direction.
  apply Reqb_false in Hscat, Hval. apply Nat.ltb_ge in Hmax.
  subst extinction albedo scattering rcp_diffusion_length.
  repeat (split;
          [first [ assumption | reflexivity
                 | intros Heq; first [apply Hscat | apply Hval]; lra ]|]).
  cbv zeta. cbn [fst snd].
  repeat (first [rewrite Hs1 | rewrite Hs2 | rewrite Hs3 | rewrite Hs4];
          cbn [fst snd]).
  repeat split; reflexivity.
Qed.

Lemma loop_body_counts (values : RandomWalkBSSRDFInputValues) (c : WalkConstants)
    (st st' : LoopState) (it : Iteration) :
  loop_body values c st = Stepped it st' ->
  n_iteration st' = S (n_iteration st)
  /\ (S (n_iteration st) <= MaxIterationsCount)%nat
  /\ transmitted st' = it_transmitted it.
Proof.
  intros H. apply loop_body_stepped in H.
  destruct H as (? & ? & ? & ? & ? & ? & ? & H). tauto.
Qed.

(** The loop returns within [MaxIterationsCount + 1] passes. *)
Lemma walk_loop_returns (values : RandomWalkBSSRDFInputValues) (c : WalkConstants) :
  forall (fuel : nat) (st : LoopState),
    (n_iteration st <= MaxIterationsCount)%nat ->
    (S MaxIterationsCount <= n_iteration st + fuel)%nat ->
    walk_loop fuel values c st <> OutOfFuel.
Proof.
  induction fuel as [|fuel IH]; intros st Hn Hfuel; simpl.
  - lia.
  - destruct (transmitted st); [discriminate|].
    destruct (loop_body values c st) as [| | |it st'] eqn:Hbody; try discriminate.
    destruct (loop_body_counts _ _ _ _ _ Hbody) as (Hn' & Hmax & _).
    apply IH; rewrite Hn'; [exact Hmax | lia].
Qed.

(** What the initial segment computed, read off its result. *)
Lemma sample_initial_some (values : RandomWalkBSSRDFInputValues)
    (sc : SamplingContext) (outgoing_point : ShadingPoint) (bs : BSSRDFSample)
    (c : WalkConstants) (st : LoopState) :
  sample_initial values sc outgoing_point bs = Some (c, st) ->
  let extinction := m_extinction (m_precomputed values) in
  let incoming_point := m_incoming_point (bssrdf_sample st) in
  exists (cdf channel_pdf : Spectrum) (s_channel s_distance : R),
    n_iteration st = O
    /\ is_valid incoming_point = true
    /\ build_cdf_and_pdf (spectrum_fill Spectrum_size 1.0) = (cdf, channel_pdf)
    /\ initial_channel c = sample_cdf cdf s_channel
    /\ initial_distance c
       = sample_exponential_distribution s_distance
           (spectrum_get extinction (initial_channel c))
    /\ ray_length c = get_distance incoming_point
    /\ transmitted st = Rleb (ray_length c) (initial_distance c)
    /\ m_value (bssrdf_sample st)
       = (let '(mis_weight, value) :=
            compute_transmission_classical_sampling
              (if transmitted st then ray_length c else initial_distance c)
              extinction channel_pdf (transmitted st)
              (spectrum_fill Spectrum_size 1.0) in
          spectrum_scale value (rcp mis_weight))
    /\ bias_strategy_prob c
       = exp (- spectrum_get extinction (initial_channel c) * ray_length c * 0.5)
    /\ near_slab_normal c = get_geometric_normal outgoing_point
    /\ far_slab_normal c = vneg (get_geometric_normal incoming_point)
    /\ slab_normal c
       = (if Rltb (initial_distance c) (0.5 * ray_length c)
          then far_slab_normal c else near_slab_normal c)
    /\ incoming_point = trace (ray st) (Some outgoing_point)
    /\ (let d0 := next2_vector2 (split_in_place 2 1 sc) in
        let d1 := next2_float (split_in_place 1 1 (snd d0)) in
        let d2 := next2_float (split_in_place 1 1 (snd d1)) in
        let local_dir := sample_hemisphere_cosine (fst d0) in
        s_channel = fst d1 /\ s_distance = fst d2
        /\ sampling_context st = snd d2
        /\ ray st
           = mkShadingRay (get_point outgoing_point)
               (transform_to_parent (get_shading_basis outgoing_point)
                  (mkVector3 (vx local_dir) (- vy local_dir) (vz local_dir)))
               (get_time outgoing_point) ShadowRay
               (S (get_ray_depth outgoing_point)) None
        /\ current_point st = point_at (ray st) (initial_distance c)
        /\ walk_time c = get_time outgoing_point).
Proof.
  intros H extinction incoming_point. unfold sample_initial in H.
  destruct (next2_vector2 (split_in_place 2 1 sc)) as [s_initial sc1] eqn:Hs0.
  destruct (build_cdf_and_pdf (spectrum_fill Spectrum_size 1.0))
    as [cdf channel_pdf] eqn:Hcdf.
  destruct (next2_float (split_in_place 1 1 sc1)) as [s_channel sc2] eqn:Hs1.
  destruct (next2_float (split_in_place 1 1 sc2)) as [s_distance sc3] eqn:Hs2.
  match type of H with
  | context [is_valid ?p] => destruct (is_valid p) eqn:Hvalid
  end; [|discriminate].
  simpl negb in H. cbv iota in H.
  match type of H with
  | context [compute_transmission_classical_sampling ?d ?e ?p ?t ?tr] =>
      destruct (compute_transmission_classical_sampling d e p t tr)
        as [mis_weight value] eqn:Hcl
  end.
  inversion H; subst c st; clear H.
  subst extinction incoming_point; simpl.
  exists cdf, channel_pdf, s_channel, s_distance.
  rewrite Hcl.
  repeat (split; [first [assumption | reflexivity]|]).
  cbv zeta. cbn [fst snd].
  repeat (first [rewrite Hs0 | rewrite Hs1 | rewrite Hs2]; cbn [fst snd]).
  repeat split; reflexivity.
Qed.

Lemma sample_initial_starts (values : RandomWalkBSSRDFInputValues)
    (sc : SamplingContext) (outgoing_point : ShadingPoint) (bs : BSSRDFSample)
    (c : WalkConstants) (st : LoopState) :
  sample_initial values sc outgoing_point bs = Some (c, st) ->
  n_iteration st = O.
Proof.
  intros H. apply sample_initial_some in H.
  destruct H as (? & ? & ? & ? & H & _). exact H.
Qed.

(** X1. [sample] always returns: the walking loop ends, by exit or by
    failure, within [MaxIterationsCount + 1] passes through its body, so the
    passes allotted to the model's loop never run out. *)
Theorem random_walk_returns (values : RandomWalkBSSRDFInputValues)
    (sc : SamplingContext) (outgoing_point : ShadingPoint) (bs : BSSRDFSample) :
  random_walk values sc outgoing_point bs <> OutOfFuel.
Proof.
  unfold random_walk.
  destruct (sample_initial values sc outgoing_point bs) as [[c st]|] eqn:Hinit;
    [|discriminate].
  apply walk_loop_returns;
    rewrite (sample_initial_starts _ _ _ _ _ _ Hinit); unfold MaxIterationsCount; lia.
Qed.

(** The initial segment succeeds as soon as the initial ray hits a surface. *)
Lemma sample_initial_hits (values : RandomWalkBSSRDFInputValues)
    (sc : SamplingContext) (outgoing_point : ShadingPoint) (bs : BSSRDFSample) :
  is_valid (trace (initial_ray sc outgoing_point) (Some outgoing_point)) = true ->
  exists c st, sample_initial values sc outgoing_point bs = Some (c, st).
Proof.
  unfold initial_ray, sample_initial; intros H.
  destruct (next2_vector2 (split_in_place 2 1 sc)) as [s_initial sc1].
  destruct (build_cdf_and_pdf (spectrum_fill Spectrum_size 1.0)) as [cdf pdf].
  destruct (next2_float (split_in_place 1 1 sc1)) as [s_channel sc2].
  destruct (next2_float (split_in_place 1 1 sc2)) as [s_distance sc3].
  cbn [fst] in H. rewrite H. cbn [negb].
  destruct (compute_transmission_classical_sampling _ _ _ _ _) as [mis value].
  eexists; eexists; reflexivity.
Qed.

Lemma sample_initial_misses (values : RandomWalkBSSRDFInputValues)
    (sc : SamplingContext) (outgoing_point : ShadingPoint) (bs : BSSRDFSample) :
  is_valid (trace (initial_ray sc outgoing_point) (Some outgoing_point)) = false ->
  sample_initial values sc outgoing_point bs = None.
Proof.
  unfold initial_ray, sample_initial; intros H.
  destruct (next2_vector2 (split_in_place 2 1 sc)) as [s_initial sc1].
  destruct (build_cdf_and_pdf (spectrum_fill Spectrum_size 1.0)) as [cdf pdf].
  destruct (next2_float (split_in_place 1 1 sc1)) as [s_channel sc2].
  destruct (next2_float (split_in_place 1 1 sc2)) as [s_distance sc3].
  cbn [fst] in H. rewrite H. reflexivity.
Qed.

(** A pass through the loop body is complete as soon as the iteration cap
    is not reached, no Russian roulette is due and the selected channel is
    not degenerate. *)
Lemma loop_body_steps (values : RandomWalkBSSRDFInputValues) (c : WalkConstants)
    (st : LoopState) :
  (S (n_iteration st) <= MinRRIteration)%nat ->
  (forall channel, (channel < Spectrum_size)%nat ->
     spectrum_get (m_scattering (m_precomputed values)) channel <> 0
     /\ spectrum_get (m_value (bssrdf_sample st)) channel <> 0) ->
  (forall cdf s, (sample_cdf cdf s < Spectrum_size)%nat) ->
  exists it st', loop_body values c st = Stepped it st'.
Proof.
  intros Hn Hch Hrange. unfold loop_body.
  assert (H1 : (MaxIterationsCount <? S (n_iteration st))%nat = false)
    by (apply Nat.ltb_ge; unfold MaxIterationsCount, MinRRIteration in *; lia).
  assert (H2 : (MinRRIteration <? S (n_iteration st))%nat = false)
    by (apply Nat.ltb_ge; exact Hn).
  rewrite H1, H2. cbv beta iota. cbn [negb].
  destruct (build_cdf_and_pdf (m_value (bssrdf_sample st))) as [cdf pdf].
  destruct (next2_float (split_in_place 1 2 (sampling_context st)))
    as [s_channel sc2].
  destruct (Hch _ (Hrange cdf s_channel)) as [Hs Hv].
  unfold Reqb.
  destruct (Req_dec_T _ 0.0) as [Heq|_]; [exfalso; apply Hs; rewrite Heq; lra|].
  destruct (Req_dec_T _ 0.0) as [Heq|_]; [exfalso; apply Hv; rewrite Heq; lra|].
  cbn [orb].
  destruct (next2_float sc2) as [s_biased sc3].
  destruct (next2_vector2 (split_in_place 2 1 sc3)) as [s_direction sc4].
  destruct (next2_float (split_in_place 1 1 sc4)) as [s_distance sc5].
  destruct (compute_transmission_classical_sampling _ _ _ _ _) as [mis tr].
  eexists; eexists; reflexivity.
Qed.

Lemma walk_loop_exited (values : RandomWalkBSSRDFInputValues) (c : WalkConstants) :
  forall (fuel : nat) (st0 st : LoopState),
    walk_loop fuel values c st0 = Exited st -> transmitted st = true.
Proof.
  induction fuel as [|fuel IH]; intros st0 st H; simpl in H.
  - destruct (transmitted st0) eqn:Ht; [inversion H; subst; exact Ht | discriminate].
  - destruct (transmitted st0) eqn:Ht; [inversion H; subst; exact Ht|].
    destruct (loop_body values c st0) as [| | |it st1]; try discriminate.
    eapply IH; exact H.
Qed.

Lemma clamp_in_place_range (s : Spectrum) (low high : R) :
  low <= high -> Forall (fun x => low <= x <= high) (clamp_in_place s low high).
Proof.
  intros H; unfold clamp_in_place. apply Forall_map, Forall_forall.
  intros x _; apply clamp_range; exact H.
Qed.

(** C9. On every successful walk ([sample] returns [true]) each channel of
    the throughput lies within [[0, 2]] right after the loop, before the
    scattering-order weight is applied to it. *)
Theorem post_walk_throughput_clamped (values : RandomWalkBSSRDFInputValues)
    (sc : SamplingContext) (outgoing_point : ShadingPoint) (bs : BSSRDFSample)
    (bsdf : BSDFSample) (out : SamplingContext * BSSRDFSample * BSDFSample) :
  sample values sc outgoing_point bs bsdf = Some out ->
  exists st : LoopState,
    random_walk values sc outgoing_point bs = Exited st
    /\ transmitted st = true
    /\ Forall (fun x => 0 <= x <= 2) (post_walk_value st)
    /\ length (post_walk_value st) = length (m_value (bssrdf_sample st))
    /\ m_value (snd (fst out))
       = apply_scattering_weights values (n_iteration st) (post_walk_value st).
Proof.
  unfold sample; intros H.
  destruct (random_walk values sc outgoing_point bs) as [| | | |st|] eqn:Hwalk;
    try discriminate.
  exists st. split; [reflexivity|]. split.
  - unfold random_walk in Hwalk.
    destruct (sample_initial values sc outgoing_point bs) as [[c st0]|];
      [|discriminate].
    eapply walk_loop_exited; exact Hwalk.
  - split; [|split].
    + unfold post_walk_value.
      pose proof (clamp_in_place_range (m_value (bssrdf_sample st)) 0.0 2.0) as Hc.
      eapply Forall_impl; [|apply Hc; lra]. simpl; intros; lra.
    + unfold post_walk_value, clamp_in_place; apply length_map.
    + inversion H; subst out; clear H. unfold sample_exit.
      destruct (brdf_sample _ _ _ _ _) as [sc' bsdf']. reflexivity.
Qed.

(** The scattering-order weighting, by iteration count. *)
Lemma apply_scattering_weights_cases
    (values : RandomWalkBSSRDFInputValues) (value : Spectrum) :
  apply_scattering_weights values 1 value
  = spectrum_scale
      (spectrum_scale value (m_zero_scattering_weight values))
      (m_multiple_scattering_weight values)
  /\ apply_scattering_weights values 0 value
     = spectrum_scale value (m_multiple_scattering_weight values)
  /\ apply_scattering_weights values 2 value
     = spectrum_scale value (m_single_scattering_weight values)
  /\ forall k : nat,
       apply_scattering_weights values (3 + k) value
       = spectrum_scale value (m_multiple_scattering_weight values).
Proof.
  repeat split; intros; reflexivity.
Qed.

Lemma walk_loop_unfold (fuel : nat) (values : RandomWalkBSSRDFInputValues)
    (c : WalkConstants) (st : LoopState) :
  walk_loop (S fuel) values c st
  = if transmitted st then Exited st else
    match loop_body values c st with
    | LostIterations => Lost (S (n_iteration st))
    | FailedRR => Terminated (S (n_iteration st))
    | LostChannel => Degenerate (S (n_iteration st))
    | Stepped _ st' => walk_loop fuel values c st'
    end.
Proof. reflexivity. Qed.

(** C3 (amended). When the extinction, and with it the scattering
    coefficient, is zero in every channel, the walk never gets past its first
    pass through the loop: [sample] fails before the loop (the initial ray
    reaches no surface), or fails at iteration 1 on the degenerate-channel
    check, or the initial segment reaches the surface and the loop is not
    entered at all. *)
Theorem zero_extinction_walk_ends_by_first_iteration
    (values : RandomWalkBSSRDFInputValues) (sc : SamplingContext)
    (outgoing_point : ShadingPoint) (bs : BSSRDFSample) :
  (forall i, (i < Spectrum_size)%nat ->
     spectrum_get (m_extinction (m_precomputed values)) i = 0) ->
  (forall i, (i < Spectrum_size)%nat ->
     spectrum_get (m_scattering (m_precomputed values)) i
     = spectrum_get (m_albedo (m_precomputed values)) i
       * spectrum_get (m_extinction (m_precomputed values)) i) ->
  (forall cdf s, (sample_cdf cdf s < Spectrum_size)%nat) ->
  (random_walk values sc outgoing_point bs = Escaped
   /\ forall bsdf, sample values sc outgoing_point bs bsdf = None)
  \/ (random_walk values sc outgoing_point bs = Degenerate 1
      /\ forall bsdf, sample values sc outgoing_point bs bsdf = None)
  \/ (exists st, random_walk values sc outgoing_point bs = Exited st
                 /\ n_iteration st = O).
Proof.
  intros Hext Hscat Hcdf. unfold sample, random_walk.
  destruct (sample_initial values sc outgoing_point bs) as [[c st0]|] eqn:Hinit.
  2: { left; split; [reflexivity | intros; reflexivity]. }
  right. pose proof (sample_initial_starts _ _ _ _ _ _ Hinit) as Hn0.
  simpl walk_loop.
  destruct (transmitted st0) eqn:Ht.
  { right; exists st0; split; [reflexivity | exact Hn0]. }
  left.
  assert (Hbody : loop_body values c st0 = LostChannel).
  { unfold loop_body. rewrite Hn0.
    change (MaxIterationsCount <? 1)%nat with false.
    change (MinRRIteration <? 1)%nat with false.
    cbv beta iota. cbn [negb].
    destruct (build_cdf_and_pdf (m_value (bssrdf_sample st0))) as [cdf pdf].
    destruct (next2_float (split_in_place 1 2 (sampling_context st0)))
      as [s_channel sc2].
    assert (Hz : spectrum_get (m_scattering (m_precomputed values))
                   (sample_cdf cdf s_channel) = 0.0).
    { rewrite Hscat, Hext by apply Hcdf. lra. }
    rewrite Hz. unfold Reqb at 1.
    destruct (Req_dec_T 0.0 0.0) as [_|Hne]; [reflexivity | exfalso; apply Hne; reflexivity]. }
  rewrite Hbody, Hn0. split; [reflexivity | intros; reflexivity].
Qed.

Lemma loop_body_lost_iterations (values : RandomWalkBSSRDFInputValues)
    (c : WalkConstants) (st : LoopState) :
  loop_body values c st = LostIterations ->
  (MaxIterationsCount < S (n_iteration st))%nat.
Proof.
  intros H. unfold loop_body in H.
  destruct (MaxIterationsCount <? S (n_iteration st))%nat eqn:Hmax;
    [apply Nat.ltb_lt; exact Hmax|].
  exfalso.
  repeat match type of H with
         | context [if ?b then _ else _] => destruct b
         | context [match ?p with pair _ _ => _ end] => destruct p
         end; discriminate.
Qed.

Lemma loop_body_failed_rr (values : RandomWalkBSSRDFInputValues)
    (c : WalkConstants) (st : LoopState) :
  loop_body values c st = FailedRR ->
  (MinRRIteration < S (n_iteration st) <= MaxIterationsCount)%nat
  /\ fst (fst (test_rr (sampling_context st) (bssrdf_sample st))) = false.
Proof.
  intros H. unfold loop_body in H.
  destruct (MaxIterationsCount <? S (n_iteration st))%nat eqn:Hmax; [discriminate|].
  apply Nat.ltb_ge in Hmax.
  destruct (MinRRIteration <? S (n_iteration st))%nat eqn:Hmin.
  - apply Nat.ltb_lt in Hmin. split; [lia|].
    destruct (test_rr (sampling_context st) (bssrdf_sample st)) as [[passed sc1] bs1].
    destruct passed; [|reflexivity]. exfalso. cbn [negb] in H.
    repeat match type of H with
           | context [if ?b then _ else _] => destruct b
           | context [match ?p with pair _ _ => _ end] => destruct p
           end; discriminate.
  - exfalso. cbn [negb] in H.
    repeat match type of H with
           | context [if ?b then _ else _] => destruct b
           | context [match ?p with pair _ _ => _ end] => destruct p
           end; discriminate.
Qed.

(** The degenerate-channel exit, read off the result of the loop body. *)
Lemma loop_body_lost_channel (values : RandomWalkBSSRDFInputValues)
    (c : WalkConstants) (st : LoopState) :
  loop_body values c st = LostChannel ->
  (S (n_iteration st) <= MaxIterationsCount)%nat
  /\ exists (sc1 : SamplingContext) (bs1 : BSSRDFSample),
       (if (MinRRIteration <? S (n_iteration st))%nat
        then test_rr (sampling_context st) (bssrdf_sample st)
        else (true, sampling_context st, bssrdf_sample st)) = (true, sc1, bs1)
       /\ let channel :=
            sample_cdf (fst (build_cdf_and_pdf (m_value bs1)))
              (fst (next2_float (split_in_place 1 2 sc1))) in
          spectrum_get (m_scattering (m_precomputed values)) channel = 0
          \/ spectrum_get (m_value bs1) channel = 0.
Proof.
  intros H. unfold loop_body in H.
  destruct (MaxIterationsCount <? S (n_iteration st))%nat eqn:Hmax; [discriminate|].
  apply Nat.ltb_ge in Hmax. split; [exact Hmax|].
  destruct (if (MinRRIteration <? S (n_iteration st))%nat
            then test_rr (sampling_context st) (bssrdf_sample st)
            else (true, sampling_context st, bssrdf_sample st))
    as [[passed sc1] bs1] eqn:Hrr.
  destruct passed; [|discriminate]. cbn [negb] in H. cbv iota in H.
  exists sc1, bs1. split; [reflexivity|]. cbv zeta.
  destruct (build_cdf_and_pdf (m_value bs1)) as [cdf pdf].
  destruct (next2_float (split_in_place 1 2 sc1)) as [s_channel sc2].
  cbn [fst].
  destruct (Reqb (spectrum_get (m_scattering (m_precomputed values))
                    (sample_cdf cdf s_channel)) 0.0) eqn:Hscat.
  { left. unfold Reqb in Hscat. destruct (Req_dec_T _ 0.0); [lra | discriminate]. }
  destruct (Reqb (spectrum_get (m_value bs1) (sample_cdf cdf s_channel)) 0.0) eqn:Hval.
  { right. unfold Reqb in Hval. destruct (Req_dec_T _ 0.0); [lra | discriminate]. }
  exfalso. cbn [orb] in H. cbv iota in H.
  repeat match type of H with
         | context [match ?p with pair _ _ => _ end] => destruct p
         end; discriminate.
Qed.

(** Where the loop ends: at a loop head the walk reaches. *)
Lemma walk_loop_trace (values : RandomWalkBSSRDFInputValues) (c : WalkConstants)
    (st0 : LoopState) :
  forall (fuel : nat) (st : LoopState),
    walk_reaches values c st0 st ->
    match walk_loop fuel values c st with
    | Exited st' => walk_reaches values c st0 st' /\ transmitted st' = true
    | Lost n =>
        exists st', walk_reaches values c st0 st' /\ transmitted st' = false
                    /\ loop_body values c st' = LostIterations
                    /\ n = S (n_iteration st')
    | Terminated n =>
        exists st', walk_reaches values c st0 st' /\ transmitted st' = false
                    /\ loop_body values c st' = FailedRR
                    /\ n = S (n_iteration st')
    | Degenerate n =>
        exists st', walk_reaches values c st0 st' /\ transmitted st' = false
                    /\ loop_body values c st' = LostChannel
                    /\ n = S (n_iteration st')
    | Escaped => False
    | OutOfFuel => True
    end.
Proof.
  induction fuel as [|fuel IH]; intros st Hreach; simpl.
  - destruct (transmitted st) eqn:Ht; [split; assumption | exact I].
  - destruct (transmitted st) eqn:Ht; [split; assumption|].
    destruct (loop_body values c st) as [| | |it st'] eqn:Hbody.
    + exists st; repeat split; assumption.
    + exists st; repeat split; assumption.
    + exists st; repeat split; assumption.
    + apply IH. eapply reaches_step; eassumption.
Qed.

(** Where the walk of [sample] ends. *)
Lemma random_walk_ends (values : RandomWalkBSSRDFInputValues)
    (sc : SamplingContext) (outgoing_point : ShadingPoint) (bs : BSSRDFSample)
    (c : WalkConstants) (st0 : LoopState) :
  sample_initial values sc outgoing_point bs = Some (c, st0) ->
  walk_ends_at values c st0 (random_walk values sc outgoing_point bs).
Proof.
  intros Hinit. unfold random_walk. rewrite Hinit.
  pose proof (walk_loop_trace values c st0 (S MaxIterationsCount) st0
                (reaches_start _ _ _)) as Htrace.
  pose proof (walk_loop_returns values c (S MaxIterationsCount) st0) as Hret.
  pose proof (sample_initial_starts _ _ _ _ _ _ Hinit) as Hn0.
  unfold walk_ends_at.
  destruct (walk_loop (S MaxIterationsCount) values c st0); try exact Htrace.
  apply Hret; [rewrite Hn0; lia | rewrite Hn0; lia | reflexivity].
Qed.

(** What the initial segment fixed, in terms of the draws and of the trace
    of the initial ray. *)
Lemma sample_initial_draws (values : RandomWalkBSSRDFInputValues)
    (sc : SamplingContext) (outgoing_point : ShadingPoint) (bs : BSSRDFSample)
    (c : WalkConstants) (st0 : LoopState) :
  sample_initial values sc outgoing_point bs = Some (c, st0) ->
  let initial_hit := trace (initial_ray sc outgoing_point) (Some outgoing_point) in
  initial_channel c
  = sample_cdf (fst (build_cdf_and_pdf (spectrum_fill Spectrum_size 1.0)))
      (initial_channel_variate sc)
  /\ initial_distance c
     = sample_exponential_distribution (initial_distance_variate sc)
         (spectrum_get (m_extinction (m_precomputed values)) (initial_channel c))
  /\ ray st0 = initial_ray sc outgoing_point
  /\ m_incoming_point (bssrdf_sample st0) = initial_hit
  /\ ray_length c = get_distance initial_hit
  /\ near_slab_normal c = get_geometric_normal outgoing_point
  /\ far_slab_normal c = vneg (get_geometric_normal initial_hit)
  /\ slab_normal c
     = (if Rltb (initial_distance c) (0.5 * ray_length c)
        then vneg (get_geometric_normal initial_hit)
        else get_geometric_normal outgoing_point)
  /\ bias_strategy_prob c
     = exp (- spectrum_get (m_extinction (m_precomputed values)) (initial_channel c)
            * ray_length c * 0.5).
Proof.
  intros Hinit initial_hit.
  destruct (sample_initial_some _ _ _ _ _ _ Hinit)
    as (cdf & pdf & s_channel & s_distance & _ & _ & Hcdf & Hch & Hdist & Hlen
        & _ & _ & Hbias & Hnear & Hfar & Hslab & Htrace & Hdraws).
  cbv zeta in Hdist, Hlen, Hfar, Htrace, Hdraws.
  destruct Hdraws as (Hs1 & Hs2 & _ & Hray & _).
  assert (Hray0 : ray st0 = initial_ray sc outgoing_point) by exact Hray.
  assert (Hhit : m_incoming_point (bssrdf_sample st0) = initial_hit)
    by (rewrite Htrace, Hray0; reflexivity).
  split; [rewrite Hch, Hcdf, Hs1; reflexivity|].
  split; [rewrite Hdist, Hs2; reflexivity|].
  split; [exact Hray0|]. split; [exact Hhit|].
  split; [rewrite Hlen, Hhit; reflexivity|].
  split; [exact Hnear|].
  split; [rewrite Hfar, Hhit; reflexivity|].
  split; [rewrite Hslab, Hfar, Hnear, Hhit; reflexivity|].
  exact Hbias.
Qed.

(** What a complete pass through the loop body did, in terms of the state it
    started from, of its draws and of the trace of its ray. *)
Lemma loop_body_pass (values : RandomWalkBSSRDFInputValues) (c : WalkConstants)
    (st st' : LoopState) (it : Iteration) :
  loop_body values c st = Stepped it st' ->
  let extinction := m_extinction (m_precomputed values) in
  let albedo := m_albedo (m_precomputed values) in
  let rcp_diffusion_length := m_rcp_diffusion_length (m_precomputed values) in
  exists (sc1 : SamplingContext) (bs1 : BSSRDFSample),
    after_roulette st = (true, sc1, bs1)
    /\ it_channel_pdf it = snd (build_cdf_and_pdf (m_value bs1))
    /\ it_channel it
       = sample_cdf (fst (build_cdf_and_pdf (m_value bs1))) (pass_channel_variate sc1)
    /\ it_is_biased it = Rltb classical_sampling_prob (pass_strategy_variate sc1)
    /\ it_incoming it
       = (if it_is_biased it
          then dwivedi_sample (rcp (spectrum_get rcp_diffusion_length (it_channel it)))
                 (slab_normal c) (pass_direction_variate sc1)
          else sample_sphere_uniform (pass_direction_variate sc1))
    /\ it_cosine it = dot (it_incoming it) (slab_normal c)
    /\ it_effective_extinction it
       = (if it_is_biased it
          then spectrum_get extinction (it_channel it)
               * (1 - it_cosine it * spectrum_get rcp_diffusion_length (it_channel it))
          else spectrum_get extinction (it_channel it))
    /\ it_sampled_distance it
       = sample_exponential_distribution (pass_distance_variate sc1)
           (it_effective_extinction it)
    /\ ray st'
       = mkShadingRay (current_point st) (it_incoming it) (walk_time c) ShadowRay
           (S (m_depth (ray st))) (Some (it_sampled_distance it))
    /\ m_incoming_point (bssrdf_sample st') = trace (ray st') None
    /\ it_transmitted it = hit_surface (trace (ray st') None)
    /\ transmitted st' = it_transmitted it
    /\ it_distance it
       = (if it_transmitted it
          then get_distance (trace (ray st') None)
          else it_sampled_distance it)
    /\ it_scattered_value it = spectrum_mul (m_value bs1) albedo
    /\ current_point st' = point_at (ray st') (it_sampled_distance it)
    /\ sampling_context st' = pass_context sc1
    /\ n_iteration st' = S (n_iteration st).
Proof.
  intros Hbody extinction albedo rcp_diffusion_length.
  destruct (loop_body_stepped _ _ _ _ _ Hbody)
    as (sc1 & bs1 & cdf & s_ch & s_b & s_d & s_dir & _ & Hn & Hrr & Hcdf & Hch
        & _ & _ & Hbiased & Hinc & Hscat & Hcos & Heff & Hsd & Hray & Hip & Htr
        & Htr' & Hdist & _ & _ & _ & _ & Hcur & Hdraws).
  cbv zeta in Hch, Hinc, Hscat, Heff, Hdraws.
  destruct Hdraws as (H1 & H2 & H3 & H4 & H5).
  exists sc1, bs1.
  split; [exact Hrr|].
  split; [rewrite Hcdf; reflexivity|].
  split; [rewrite Hch, Hcdf, H1; reflexivity|].
  split; [rewrite Hbiased, H2; reflexivity|].
  split; [rewrite Hinc, H3; reflexivity|].
  split; [exact Hcos|].
  split; [rewrite Heff, literal_one; reflexivity|].
  split; [rewrite Hsd, H4; reflexivity|].
  split; [exact Hray|]. split; [exact Hip|].
  split; [rewrite Htr, Hip; reflexivity|].
  split; [exact Htr'|].
  split; [rewrite Hdist, Hip; reflexivity|].
  split; [exact Hscat|]. split; [exact Hcur|].
  split; [exact H5 | exact Hn].
Qed.

(** C10. The slab normal is chosen once, before the loop, from the initial
    segment: with the distance sampled from the third draw of the call and
    the chord length returned by the trace of the initial ray, it is the
    far-side normal (the negated geometric normal of the initial hit) when
    that distance is below half the chord length, and the near-side normal
    (the geometric normal of the entry point) otherwise.  The walk then runs
    all its passes with these constants: wherever [sample] ends, it got there
    by passes of the loop body run with [c], and each pass samples its
    Dwivedi direction around [slab_normal c] from the direction variate it
    draws, takes against [slab_normal c] the cosine of the effective
    extinction, samples its distance from the distance variate it draws, and
    traces the ray of that direction and that distance. *)
Theorem slab_normal_fixed_before_loop
    (values : RandomWalkBSSRDFInputValues) (sc : SamplingContext)
    (outgoing_point : ShadingPoint) (bs : BSSRDFSample)
    (c : WalkConstants) (st0 : LoopState) :
  sample_initial values sc outgoing_point bs = Some (c, st0) ->
  let extinction := m_extinction (m_precomputed values) in
  let rcp_diffusion_length := m_rcp_diffusion_length (m_precomputed values) in
  let initial_hit := trace (initial_ray sc outgoing_point) (Some outgoing_point) in
  initial_channel c
  = sample_cdf (fst (build_cdf_and_pdf (spectrum_fill Spectrum_size 1.0)))
      (initial_channel_variate sc)
  /\ initial_distance c
     = sample_exponential_distribution (initial_distance_variate sc)
         (spectrum_get extinction (initial_channel c))
  /\ ray_length c = get_distance initial_hit
  /\ slab_normal c
     = (if Rltb (initial_distance c) (0.5 * ray_length c)
        then vneg (get_geometric_normal initial_hit)
        else get_geometric_normal outgoing_point)
  /\ walk_ends_at values c st0 (random_walk values sc outgoing_point bs)
  /\ forall (st st' : LoopState) (it : Iteration),
       loop_body values c st = Stepped it st' ->
       exists (sc1 : SamplingContext) (bs1 : BSSRDFSample),
         after_roulette st = (true, sc1, bs1)
         /\ it_channel it
            = sample_cdf (fst (build_cdf_and_pdf (m_value bs1)))
                (pass_channel_variate sc1)
         /\ it_is_biased it = Rltb classical_sampling_prob (pass_strategy_variate sc1)
         /\ it_incoming it
            = (if it_is_biased it
               then dwivedi_sample
                      (rcp (spectrum_get rcp_diffusion_length (it_channel it)))
                      (slab_normal c) (pass_direction_variate sc1)
               else sample_sphere_uniform (pass_direction_variate sc1))
         /\ it_cosine it = dot (it_incoming it) (slab_normal c)
         /\ it_sampled_distance it
            = sample_exponential_distribution (pass_distance_variate sc1)
                (if it_is_biased it
                 then spectrum_get extinction (it_channel it)
                      * (1 - dot (it_incoming it) (slab_normal c)
                             * spectrum_get rcp_diffusion_length (it_channel it))
                 else spectrum_get extinction (it_channel it))
         /\ ray st'
            = mkShadingRay (current_point st) (it_incoming it) (walk_time c)
                ShadowRay (S (m_depth (ray st))) (Some (it_sampled_distance it))
         /\ m_incoming_point (bssrdf_sample st') = trace (ray st') None.
Proof.
  intros Hinit extinction rcp_diffusion_length initial_hit.
  destruct (sample_initial_draws _ _ _ _ _ _ Hinit)
    as (Hch & Hdist & _ & _ & Hlen & _ & _ & Hslab & _).
  split; [exact Hch|]. split; [exact Hdist|]. split; [exact Hlen|].
  split; [exact Hslab|].
  split; [apply random_walk_ends; exact Hinit|].
  intros st st' it Hbody.
  destruct (loop_body_pass _ _ _ _ _ Hbody)
    as (sc1 & bs1 & Hrr & _ & Hc & Hb & Hinc & Hcos & Heff & Hsd & Hray & Hip & _).
  exists sc1, bs1.
  split; [exact Hrr|]. split; [exact Hc|]. split; [exact Hb|].
  split; [exact Hinc|]. split; [exact Hcos|].
  split; [rewrite Hsd, Heff, Hcos; reflexivity|].
  split; [exact Hray | exact Hip].
Qed.

End Walk.

(* ------------------------------------------------------------------ *)
(** ** The MIS correction of a loop segment *)

Section MISCombination.

Context {E : Environment}.

Lemma compute_mis_dwivedi_sampling_loop_spec
    (distance : R) (extinction rcp_diffusion_length : Spectrum) (cosine : R)
    (channel_pdf : Spectrum) (transmitted : bool) (normal incoming : Vector3) :
  forall (k i : nat) (mis_base : R),
    let f := fun j =>
      let effective_extinction :=
        spectrum_get extinction j
        * (1 - cosine * spectrum_get rcp_diffusion_length j) in
      (if transmitted then 1 else effective_extinction)
      * exp (- distance * effective_extinction)
      * spectrum_get channel_pdf j
      * dwivedi_evaluate (rcp (spectrum_get rcp_diffusion_length j)) normal incoming in
    compute_mis_dwivedi_sampling_loop k i distance extinction rcp_diffusion_length
      cosine channel_pdf transmitted normal incoming mis_base
    = mis_base + (sum_channels (i + k) f - sum_channels i f).
Proof.
  induction k as [|k IH]; intros i mis_base f.
  - simpl. rewrite Nat.add_0_r. lra.
  - simpl compute_mis_dwivedi_sampling_loop. rewrite IH.
    replace (i + S k)%nat with (S i + k)%nat by lia.
    subst f; cbn [sum_channels Nat.add]. rewrite !literal_one.
    destruct transmitted; lra.
Qed.

Lemma compute_mis_dwivedi_sampling_spec
    (distance : R) (extinction rcp_diffusion_length : Spectrum) (cosine : R)
    (channel_pdf : Spectrum) (transmitted : bool) (normal incoming : Vector3) :
  compute_mis_dwivedi_sampling distance extinction rcp_diffusion_length cosine
    channel_pdf transmitted normal incoming
  = dwivedi_density distance extinction rcp_diffusion_length cosine
      channel_pdf transmitted normal incoming.
Proof.
  unfold compute_mis_dwivedi_sampling, dwivedi_density.
  rewrite compute_mis_dwivedi_sampling_loop_spec. simpl. rewrite literal_zero. f_equal. lra.
Qed.

(** The densities and the throughput update of one pass through the loop
    body. *)
Lemma loop_segment_mis_correction_step
    (values : RandomWalkBSSRDFInputValues) (c : WalkConstants)
    (st st' : LoopState) (it : Iteration) :
  loop_body values c st = Stepped it st' ->
  let extinction := m_extinction (m_precomputed values) in
  let kappa := m_rcp_diffusion_length (m_precomputed values) in
  let cosine := dot (it_incoming it) (slab_normal c) in
  let near :=
    dwivedi_density (it_distance it) extinction kappa cosine
      (it_channel_pdf it) (it_transmitted it)
      (near_slab_normal c) (it_incoming it) in
  let far :=
    dwivedi_density (it_distance it) extinction kappa cosine
      (it_channel_pdf it) (it_transmitted it)
      (far_slab_normal c) (it_incoming it) in
  let classical :=
    classical_density_spec (it_distance it) extinction
      (it_channel_pdf it) (it_transmitted it) in
  let dwivedi := far * (1 - bias_strategy_prob c) + near * bias_strategy_prob c in
  let combined := dwivedi * (1 - 0.1) + classical * 0.1 in
  it_mis_dwivedi_near it = near
  /\ it_mis_dwivedi_far it = far
  /\ it_mis_classical it = classical
  /\ (forall i, (i < Spectrum_size)%nat ->
        spectrum_get (it_transmission it) i
        = classical_transmission (it_distance it) extinction (it_transmitted it) i)
  /\ well_formed (it_transmission it)
  /\ m_value (bssrdf_sample st')
     = spectrum_mul (it_scattered_value it)
         (spectrum_scale (it_transmission it) (1 / combined)).
Proof.
  intros Hbody extinction kappa cosine near far classical dwivedi combined.
  destruct (loop_body_stepped _ _ _ _ _ Hbody)
    as (sc1 & bs1 & cdf' & s_ch & s_b & s_d & s_dir & _ & _ & _ & _ & _ & _ & _
        & _ & _ & _ & Hcos & _ & _ & _ & _ & _ & _ & _ & Hcl & Hnear & Hfar
        & Hval & _).
  rewrite compute_mis_dwivedi_sampling_spec, Hcos in Hnear, Hfar.
  assert (Hwf : well_formed (spectrum_fill Spectrum_size 0.0))
    by (unfold well_formed, spectrum_fill; apply repeat_length).
  pose proof (compute_transmission_classical_sampling_spec
                (it_distance it) extinction (it_channel_pdf it) (it_transmitted it)
                (spectrum_fill Spectrum_size 0.0) Hwf) as Hspec.
  cbv zeta in Hspec.
  fold extinction in Hcl. rewrite Hcl in Hspec. simpl fst in Hspec; simpl snd in Hspec.
  destruct Hspec as (Hmis & Hlen & Htr).
  split; [exact Hnear|]. split; [exact Hfar|]. split; [exact Hmis|].
  split; [|split; [exact Hlen|]].
  - intros i Hi. rewrite Htr by exact Hi. reflexivity.
  - rewrite Hval. f_equal. f_equal. unfold rcp, mix, classical_sampling_prob.
    rewrite Hnear, Hfar, Hmis. reflexivity.
Qed.

(** C2 (amended). After every traced loop segment the throughput left by
    the Russian roulette, multiplied by the albedo, is multiplied by the
    classical transmission divided by the combined MIS density.  The segment
    is the one traced from the current point in the direction sampled from
    the draws of the pass, up to the sampled distance; its length is the hit
    distance when it ended on a surface and the sampled distance otherwise;
    the channel pdf is the one built from the throughput left by the
    roulette.  The near and the far Dwivedi density are the
    channel-pdf-weighted sums of the distance density of the effective
    extinction (its factor dropped when the segment ended on a surface) times
    the Dwivedi phase-function density times [4 pi]; the phase function is
    evaluated against the near and the far slab normal respectively, while the
    cosine of the effective extinction is in both the one taken against the
    slab normal chosen before the loop.  The two are interpolated with
    [bias_strategy_prob = exp(-extinction[channel] * ray_length * 0.5)], of
    the channel and the chord length of the initial segment, and the result
    is mixed with the classical density with probability [0.1].  The walk
    runs all its passes with these constants. *)
Theorem loop_segment_mis_correction
    (values : RandomWalkBSSRDFInputValues) (sc : SamplingContext)
    (outgoing_point : ShadingPoint) (bs : BSSRDFSample)
    (c : WalkConstants) (st0 : LoopState) :
  sample_initial values sc outgoing_point bs = Some (c, st0) ->
  let extinction := m_extinction (m_precomputed values) in
  let albedo := m_albedo (m_precomputed values) in
  let kappa := m_rcp_diffusion_length (m_precomputed values) in
  let initial_hit := trace (initial_ray sc outgoing_point) (Some outgoing_point) in
  bias_strategy_prob c
  = exp (- spectrum_get extinction (initial_channel c) * ray_length c * 0.5)
  /\ initial_channel c
     = sample_cdf (fst (build_cdf_and_pdf (spectrum_fill Spectrum_size 1.0)))
         (initial_channel_variate sc)
  /\ ray_length c = get_distance initial_hit
  /\ near_slab_normal c = get_geometric_normal outgoing_point
  /\ far_slab_normal c = vneg (get_geometric_normal initial_hit)
  /\ walk_ends_at values c st0 (random_walk values sc outgoing_point bs)
  /\ forall (st st' : LoopState) (it : Iteration),
       loop_body values c st = Stepped it st' ->
       exists (sc1 : SamplingContext) (bs1 : BSSRDFSample),
         let channel :=
           sample_cdf (fst (build_cdf_and_pdf (m_value bs1)))
             (pass_channel_variate sc1) in
         let is_biased := Rltb classical_sampling_prob (pass_strategy_variate sc1) in
         let incoming :=
           if is_biased
           then dwivedi_sample (rcp (spectrum_get kappa channel)) (slab_normal c)
                  (pass_direction_variate sc1)
           else sample_sphere_uniform (pass_direction_variate sc1) in
         let cosine := dot incoming (slab_normal c) in
         let sampled_distance :=
           sample_exponential_distribution (pass_distance_variate sc1)
             (if is_biased
              then spectrum_get extinction channel
                   * (1 - cosine * spectrum_get kappa channel)
              else spectrum_get extinction channel) in
         let segment :=
           mkShadingRay (current_point st) incoming (walk_time c) ShadowRay
             (S (m_depth (ray st))) (Some sampled_distance) in
         let hit := trace segment None in
         let distance :=
           if hit_surface hit then get_distance hit else sampled_distance in
         let channel_pdf := snd (build_cdf_and_pdf (m_value bs1)) in
         let near :=
           dwivedi_density distance extinction kappa cosine channel_pdf
             (hit_surface hit) (near_slab_normal c) incoming in
         let far :=
           dwivedi_density distance extinction kappa cosine channel_pdf
             (hit_surface hit) (far_slab_normal c) incoming in
         let classical :=
           classical_density_spec distance extinction channel_pdf (hit_surface hit) in
         let dwivedi := far * (1 - bias_strategy_prob c) + near * bias_strategy_prob c in
         let combined := dwivedi * (1 - 0.1) + classical * 0.1 in
         after_roulette st = (true, sc1, bs1)
         /\ it_incoming it = incoming
         /\ it_distance it = distance
         /\ it_transmitted it = hit_surface hit
         /\ it_channel_pdf it = channel_pdf
         /\ it_scattered_value it = spectrum_mul (m_value bs1) albedo
         /\ ray st' = segment
         /\ m_incoming_point (bssrdf_sample st') = hit
         /\ transmitted st' = hit_surface hit
         /\ it_mis_dwivedi_near it = near
         /\ it_mis_dwivedi_far it = far
         /\ it_mis_classical it = classical
         /\ (forall i, (i < Spectrum_size)%nat ->
               spectrum_get (it_transmission it) i
               = classical_transmission distance extinction (hit_surface hit) i)
         /\ well_formed (it_transmission it)
         /\ m_value (bssrdf_sample st')
            = spectrum_mul (spectrum_mul (m_value bs1) albedo)
                (spectrum_scale (it_transmission it) (1 / combined)).
Proof.
  intros Hinit extinction albedo kappa initial_hit.
  subst extinction albedo kappa initial_hit.
  destruct (sample_initial_draws _ _ _ _ _ _ Hinit)
    as (Hch & _ & _ & _ & Hlen & Hnear & Hfar & _ & Hbias).
  split; [exact Hbias|]. split; [exact Hch|]. split; [exact Hlen|].
  split; [exact Hnear|]. split; [exact Hfar|].
  split; [apply random_walk_ends; exact Hinit|].
  intros st st' it Hbody.
  destruct (loop_segment_mis_correction_step values c st st' it Hbody)
    as (Hn & Hf & Hc & Htr & Hwf & Hval).
  destruct (loop_body_pass _ _ _ _ _ Hbody)
    as (sc1 & bs1 & Hrr & Hpdf & Hchan & Hb & Hinc & Hcos & Heff & Hsd & Hray
        & Hip & Htrans & Htrans' & Hdist & Hscat & _).
  exists sc1, bs1. cbv zeta.
  rewrite Hb, Hchan in Hinc.
  assert (Hsampled :
    it_sampled_distance it
    = sample_exponential_distribution (pass_distance_variate sc1)
        (if Rltb classical_sampling_prob (pass_strategy_variate sc1)
         then spectrum_get (m_extinction (m_precomputed values))
                (sample_cdf (fst (build_cdf_and_pdf (m_value bs1)))
                   (pass_channel_variate sc1))
              * (1 - dot (it_incoming it) (slab_normal c)
                     * spectrum_get (m_rcp_diffusion_length (m_precomputed values))
                         (sample_cdf (fst (build_cdf_and_pdf (m_value bs1)))
                            (pass_channel_variate sc1)))
         else spectrum_get (m_extinction (m_precomputed values))
                (sample_cdf (fst (build_cdf_and_pdf (m_value bs1)))
                   (pass_channel_variate sc1))))
    by (rewrite Hsd, Heff, Hcos, Hb, Hchan; reflexivity).
  rewrite Hsampled in Hray. rewrite Hray in Htrans, Hdist, Hip.
  rewrite Htrans in Hdist.
  rewrite Hsampled in Hdist.
  rewrite <- Hinc.
  split; [exact Hrr|]. split; [reflexivity|].
  split; [exact Hdist|]. split; [exact Htrans|]. split; [exact Hpdf|].
  split; [exact Hscat|]. split; [exact Hray|]. split; [exact Hip|].
  split; [rewrite Htrans', Htrans; reflexivity|].
  rewrite <- Hdist, <- Htrans, <- Hpdf, <- Hscat.
  repeat (split; [assumption|]). exact Hval.
Qed.

End MISCombination.

(* ------------------------------------------------------------------ *)
(** ** Russian roulette and the positivity of the throughput *)

Lemma dot_normalized_bounds (a b : Vector3) :
  is_normalized a -> is_normalized b -> - 1 <= dot a b <= 1.
Proof.
  unfold is_normalized, dot; intros Ha Hb.
  pose proof (Rle_0_sqr (vx a - vx b)) as H1.
  pose proof (Rle_0_sqr (vy a - vy b)) as H2.
  pose proof (Rle_0_sqr (vz a - vz b)) as H3.
  pose proof (Rle_0_sqr (vx a + vx b)) as H4.
  pose proof (Rle_0_sqr (vy a + vy b)) as H5.
  pose proof (Rle_0_sqr (vz a + vz b)) as H6.
  unfold Rsqr in *. split; nra.
Qed.

Lemma vneg_normalized (a : Vector3) : is_normalized a -> is_normalized (vneg a).
Proof. unfold is_normalized, dot, vneg; simpl; intros H; nra. Qed.

(** The effective extinction of Dwivedi sampling is positive for every
    direction once [0 <= kappa <= 0.99]. *)
Lemma effective_extinction_positive (extinction kappa cosine : R) :
  0 < extinction -> 0 <= kappa <= 0.99 -> - 1 <= cosine <= 1 ->
  0 < extinction * (1 - cosine * kappa).
Proof.
  intros He Hk Hc. apply Rmult_lt_0_compat; [exact He|]. nra.
Qed.

Lemma fmax_ge_left (a b : R) : a <= fmax a b.
Proof. unfold fmax; destruct (Rlt_dec a b); lra. Qed.

Lemma fmax_ge_right (a b : R) : b <= fmax a b.
Proof. unfold fmax; destruct (Rlt_dec a b); lra. Qed.

Lemma max_value_ge (s : Spectrum) (i : nat) :
  (i < length s)%nat -> spectrum_get s i <= max_value s.
Proof.
  unfold spectrum_get; revert i.
  induction s as [|x t IH]; intros i Hi; simpl in Hi; [lia|].
  destruct t as [|y t'].
  - destruct i as [|i]; simpl in *; [lra | lia].
  - change (max_value (x :: y :: t')) with (fmax x (max_value (y :: t'))).
    destruct i as [|i].
    + simpl; apply fmax_ge_left.
    + change (nth (S i) (x :: y :: t') 0) with (nth i (y :: t') 0).
      eapply Rle_trans; [apply IH; simpl in *; lia | apply fmax_ge_right].
Qed.

Lemma scattering_prob_positive (value : Spectrum) (i : nat) :
  (i < length value)%nat -> 0 < spectrum_get value i -> 0 < scattering_prob value.
Proof.
  intros Hi Hpos. pose proof (max_value_ge value i Hi) as Hmax.
  unfold scattering_prob, fmin. destruct (Rlt_dec 0.99 (max_value value)); lra.
Qed.

Lemma classical_transmission_positive (distance : R) (extinction : Spectrum)
    (transmitted : bool) (i : nat) :
  0 < spectrum_get extinction i ->
  0 < classical_transmission distance extinction transmitted i.
Proof.
  intros He; unfold classical_transmission.
  apply Rmult_lt_0_compat; [apply exp_pos|]. destruct transmitted; lra.
Qed.

Lemma FourPi_positive : 0 < FourPi.
Proof. unfold FourPi. pose proof PI_RGT_0. lra. Qed.

Section RussianRoulette.

Context {E : Environment}.

(** [test_rr], case by case. *)
Lemma test_rr_cases (sc : SamplingContext) (bs : BSSRDFSample) :
  let s := fst (next2_float (split_in_place 1 1 sc)) in
  let sc' := snd (next2_float (split_in_place 1 1 sc)) in
  let p := Rmin (max_value (m_value bs)) 0.99 in
  (s < p -> test_rr sc bs = (true, sc', set_value bs (spectrum_div (m_value bs) p)))
  /\ (~ s < p -> test_rr sc bs = (false, sc', bs)).
Proof.
  intros s sc' p. unfold test_rr, scattering_prob, pass_rr.
  rewrite fmin_is_Rmin. fold p. subst s sc'.
  destruct (next2_float (split_in_place 1 1 sc)) as [s sc']; simpl.
  split; intros H.
  - apply Rltb_true in H; rewrite H; reflexivity.
  - apply Rltb_false in H; rewrite H; reflexivity.
Qed.

Lemma spectrum_div_nonneg (value : Spectrum) (p : R) :
  0 < p -> throughput_nonneg value -> throughput_nonneg (spectrum_div value p).
Proof.
  intros Hp [Hwf Hnn]; unfold throughput_nonneg, well_formed, spectrum_div in *.
  split; [rewrite length_map; exact Hwf|].
  intros i Hi. rewrite spectrum_get_map by lia.
  apply Rmult_le_pos; [apply Hnn; exact Hi | left; apply Rinv_0_lt_compat; exact Hp].
Qed.

(** Passing the roulette keeps the throughput non-negative. *)
Lemma test_rr_passed (sc sc1 : SamplingContext) (bs bs1 : BSSRDFSample) :
  environment_contract ->
  test_rr sc bs = (true, sc1, bs1) ->
  0 < scattering_prob (m_value bs)
  /\ m_value bs1 = spectrum_div (m_value bs) (scattering_prob (m_value bs)).
Proof.
  intros Henv H. unfold test_rr in H.
  pose proof (variate_nonneg Henv (split_in_place 1 1 sc)) as Hs.
  destruct (next2_float (split_in_place 1 1 sc)) as [s sc']; simpl in Hs.
  unfold pass_rr in H.
  destruct (Rltb s (scattering_prob (m_value bs))) eqn:Hpass; simpl in H;
    [|discriminate].
  apply Rltb_true in Hpass. inversion H; subst; simpl. split; [lra | reflexivity].
Qed.

Lemma dwivedi_density_nonneg (values : RandomWalkBSSRDFInputValues)
    (distance cosine : R) (channel_pdf : Spectrum) (transmitted : bool)
    (normal incoming : Vector3) :
  environment_contract ->
  optical_properties_valid values ->
  - 1 <= cosine <= 1 ->
  (forall i, (i < Spectrum_size)%nat -> 0 <= spectrum_get channel_pdf i) ->
  0 <= dwivedi_density distance (m_extinction (m_precomputed values))
         (m_rcp_diffusion_length (m_precomputed values)) cosine channel_pdf
         transmitted normal incoming.
Proof.
  intros Henv Hopt Hcos Hpdf. unfold dwivedi_density.
  apply Rmult_le_pos; [|left; apply FourPi_positive].
  apply sum_channels_nonneg. intros i Hi; simpl.
  pose proof (effective_extinction_positive _ _ cosine
                (extinction_positive _ Hopt i Hi) (kappa_range _ Hopt i Hi) Hcos) as Heff.
  repeat apply Rmult_le_pos.
  - destruct transmitted; lra.
  - left; apply exp_pos.
  - apply Hpdf; exact Hi.
  - apply (phase_function_nonneg Henv).
Qed.

Lemma classical_density_positive (values : RandomWalkBSSRDFInputValues)
    (distance : R) (channel_pdf : Spectrum) (transmitted : bool) (channel : nat) :
  optical_properties_valid values ->
  (forall i, (i < Spectrum_size)%nat -> 0 <= spectrum_get channel_pdf i) ->
  (channel < Spectrum_size)%nat ->
  0 < spectrum_get channel_pdf channel ->
  0 < classical_density_spec distance (m_extinction (m_precomputed values))
        channel_pdf transmitted.
Proof.
  intros Hopt Hpdf Hch Hpos. unfold classical_density_spec.
  set (f := fun i => classical_transmission distance
                       (m_extinction (m_precomputed values)) transmitted i
                     * spectrum_get channel_pdf i).
  assert (Hf : forall i, (i < Spectrum_size)%nat -> 0 <= f i).
  { intros i Hi; subst f; simpl. apply Rmult_le_pos; [|apply Hpdf; exact Hi].
    left; apply classical_transmission_positive, (extinction_positive _ Hopt); exact Hi. }
  pose proof (sum_channels_ge_term Spectrum_size f channel Hf Hch) as Hge.
  assert (0 < f channel); [|lra].
  subst f; simpl. apply Rmult_lt_0_compat; [|exact Hpos].
  apply classical_transmission_positive, (extinction_positive _ Hopt); exact Hch.
Qed.

Lemma sample_initial_valid (values : RandomWalkBSSRDFInputValues)
    (sc : SamplingContext) (outgoing_point : ShadingPoint) (bs : BSSRDFSample)
    (c : WalkConstants) (st0 : LoopState) :
  environment_contract ->
  optical_properties_valid values ->
  is_normalized (get_geometric_normal outgoing_point) ->
  sample_initial values sc outgoing_point bs = Some (c, st0) ->
  walk_constants_valid c
  /\ well_formed (m_value (bssrdf_sample st0))
  /\ forall i, (i < Spectrum_size)%nat ->
       0 < spectrum_get (m_value (bssrdf_sample st0)) i.
Proof.
  intros Henv Hopt Hout Hinit.
  destruct (sample_initial_some _ _ _ _ _ _ Hinit)
    as (cdf & pdf & s_channel & s_distance & _ & Hvalid & Hcdf & Hch & _ & Hlen
        & _ & Hval & Hbias & Hnear & Hfar & Hslab & Htrace & _).
  cbv zeta in Hvalid. rewrite Htrace in Hvalid.
  assert (Hfill : throughput_nonneg (spectrum_fill Spectrum_size 1.0)).
  { split; [unfold well_formed, spectrum_fill; apply repeat_length|].
    intros i Hi; rewrite spectrum_get_fill by exact Hi; lra. }
  assert (Hchr : (initial_channel c < Spectrum_size)%nat)
    by (rewrite Hch; apply (channel_in_range Henv)).
  assert (Hnear1 : is_normalized (near_slab_normal c)) by (rewrite Hnear; exact Hout).
  assert (Hfar1 : is_normalized (far_slab_normal c)).
  { rewrite Hfar, Htrace. apply vneg_normalized, (hit_normal_normalized Henv), Hvalid. }
  split.
  - split; [|split; [|split]]; auto.
    + rewrite Hbias. split; [apply exp_pos|].
      rewrite <- exp_0. 
      assert (Hd : 0 <= ray_length c)
        by (rewrite Hlen, Htrace; apply (hit_distance_nonneg Henv), Hvalid).
      pose proof (extinction_positive _ Hopt _ Hchr) as He.
      assert (Hle : - spectrum_get (m_extinction (m_precomputed values))
                        (initial_channel c) * ray_length c * 0.5 <= 0) by nra.
      destruct Hle as [Hlt|Heq]; [left; apply exp_increasing; exact Hlt|].
      rewrite Heq; right; reflexivity.
    + rewrite Hslab. destruct (Rltb _ _); assumption.
  - rewrite Hval.
    pose proof (compute_transmission_classical_sampling_spec
                  (if transmitted st0 then ray_length c else initial_distance c)
                  (m_extinction (m_precomputed values)) pdf (transmitted st0)
                  (spectrum_fill Spectrum_size 1.0) (proj1 Hfill)) as Hspec.
    cbv zeta in Hspec.
    destruct (compute_transmission_classical_sampling _ _ _ _ _)
      as [mis_weight value]. simpl in Hspec.
    destruct Hspec as (Hmis & Hwf & Htr).
    assert (Hpdf : forall i, (i < Spectrum_size)%nat -> 0 <= spectrum_get pdf i).
    { intros i Hi. pose proof (pdf_nonneg Henv _ i (proj1 Hfill) (proj2 Hfill) Hi) as H.
      rewrite Hcdf in H; exact H. }
    assert (Hpos : 0 < mis_weight).
    { rewrite Hmis.
      apply (classical_density_positive values _ _ _ (initial_channel c)); auto.
      pose proof (pdf_positive Henv _ _ (proj1 Hfill) (proj2 Hfill) Hchr) as H.
      rewrite Hcdf in H; apply H. rewrite spectrum_get_fill by exact Hchr; lra. }
    split.
    + unfold well_formed, spectrum_scale in *. rewrite length_map; exact Hwf.
    + intros i Hi. unfold spectrum_scale.
      rewrite spectrum_get_map by (unfold well_formed in Hwf; lia).
      rewrite Htr by exact Hi.
      apply Rmult_lt_0_compat.
      * apply (classical_transmission_positive _ _ _ i).
        apply (extinction_positive _ Hopt); exact Hi.
      * unfold rcp. apply Rdiv_lt_0_compat; lra.
Qed.

(** One pass through the loop body keeps the throughput non-negative and
    leaves it positive in the channel the pass selected. *)
Lemma loop_body_keeps_throughput (values : RandomWalkBSSRDFInputValues)
    (c : WalkConstants) (st st' : LoopState) (it : Iteration) :
  environment_contract ->
  optical_properties_valid values ->
  walk_constants_valid c ->
  throughput_nonneg (m_value (bssrdf_sample st)) ->
  loop_body values c st = Stepped it st' ->
  throughput_nonneg (m_value (bssrdf_sample st'))
  /\ (it_channel it < Spectrum_size)%nat
  /\ 0 < spectrum_get (m_value (bssrdf_sample st')) (it_channel it)
  /\ (forall i, (i < Spectrum_size)%nat ->
        0 < spectrum_get (m_value (bssrdf_sample st)) i ->
        0 < spectrum_get (m_value (bssrdf_sample st')) i).
Proof.
  intros Henv Hopt (Hbias & Hslab & Hnear & Hfar) Hinv Hbody.
  pose proof (loop_segment_mis_correction_step values c st st' it Hbody) as Hmis.
  destruct (loop_body_stepped _ _ _ _ _ Hbody)
    as (sc1 & bs1 & cdf & s_ch & s_b & s_d & s_dir & _ & _ & Hrr & Hcdf & Hch
        & _ & Hvalne & _ & Hinc & Hscat & Hcos & _).
  (* the throughput after the roulette *)
  assert (Hinv1 : throughput_nonneg (m_value bs1)
                  /\ forall i, (i < Spectrum_size)%nat ->
                       0 < spectrum_get (m_value (bssrdf_sample st)) i ->
                       0 < spectrum_get (m_value bs1) i).
  { destruct (MinRRIteration <? S (n_iteration st))%nat.
    - destruct (test_rr_passed _ _ _ _ Henv Hrr) as (Hp & Hv).
      rewrite Hv; split; [apply spectrum_div_nonneg; assumption|].
      intros i Hi Hpos. destruct Hinv as [Hwf _]. unfold well_formed in Hwf.
      unfold spectrum_div. rewrite spectrum_get_map by lia.
      apply Rdiv_lt_0_compat; assumption.
    - inversion Hrr; subst; split; [exact Hinv | intros i _ H; exact H]. }
  destruct Hinv1 as [[Hwf1 Hnn1] Hkeep1].
  assert (Hchr : (it_channel it < Spectrum_size)%nat)
    by (rewrite Hch; apply (channel_in_range Henv)).
  assert (Hpdf : forall i, (i < Spectrum_size)%nat ->
                   0 <= spectrum_get (it_channel_pdf it) i).
  { intros i Hi. pose proof (pdf_nonneg Henv _ i Hwf1 Hnn1 Hi) as H.
    rewrite Hcdf in H; exact H. }
  assert (Hv1 : 0 < spectrum_get (m_value bs1) (it_channel it)).
  { pose proof (Hnn1 _ Hchr). lra. }
  assert (Hpdfch : 0 < spectrum_get (it_channel_pdf it) (it_channel it)).
  { pose proof (pdf_positive Henv _ _ Hwf1 Hnn1 Hchr Hv1) as H.
    rewrite Hcdf in H; exact H. }
  (* the cosine *)
  assert (Hincn : is_normalized (it_incoming it)).
  { rewrite Hinc. destruct (it_is_biased it).
    - apply (dwivedi_direction_normalized Henv); exact Hslab.
    - apply (sphere_direction_normalized Henv). }
  pose proof (dot_normalized_bounds _ _ Hincn Hslab) as Hcosb.
  (* the combined density *)
  cbv zeta in Hmis.
  destruct Hmis as (Hn & Hf & Hc & Htr & Hlen & Hval).
  set (near := dwivedi_density (it_distance it) (m_extinction (m_precomputed values))
                 (m_rcp_diffusion_length (m_precomputed values))
                 (dot (it_incoming it) (slab_normal c)) (it_channel_pdf it)
                 (it_transmitted it) (near_slab_normal c) (it_incoming it)) in *.
  set (far := dwivedi_density (it_distance it) (m_extinction (m_precomputed values))
                (m_rcp_diffusion_length (m_precomputed values))
                (dot (it_incoming it) (slab_normal c)) (it_channel_pdf it)
                (it_transmitted it) (far_slab_normal c) (it_incoming it)) in *.
  set (classical := classical_density_spec (it_distance it)
                      (m_extinction (m_precomputed values)) (it_channel_pdf it)
                      (it_transmitted it)) in *.
  assert (Hnear0 : 0 <= near) by (apply dwivedi_density_nonneg; auto).
  assert (Hfar0 : 0 <= far) by (apply dwivedi_density_nonneg; auto).
  assert (Hcl0 : 0 < classical)
    by (apply (classical_density_positive values _ _ _ (it_channel it)); auto).
  set (combined := (far * (1 - bias_strategy_prob c) + near * bias_strategy_prob c)
                   * (1 - 0.1) + classical * 0.1) in *.
  assert (Hcomb : 0 < combined).
  { subst combined.
    assert (0 <= far * (1 - bias_strategy_prob c)) by (apply Rmult_le_pos; lra).
    assert (0 <= near * bias_strategy_prob c) by (apply Rmult_le_pos; lra).
    lra. }
  assert (Hrcp : 0 < 1 / combined) by (apply Rdiv_lt_0_compat; lra).
  (* the new throughput, channel by channel *)
  pose proof (albedo_well_formed _ Hopt) as Hawf.
  unfold well_formed in Hwf1, Hawf, Hlen.
  assert (Hget : forall i, (i < Spectrum_size)%nat ->
            spectrum_get (m_value (bssrdf_sample st')) i
            = spectrum_get (m_value bs1) i
              * spectrum_get (m_albedo (m_precomputed values)) i
              * (classical_transmission (it_distance it)
                   (m_extinction (m_precomputed values)) (it_transmitted it) i
                 * (1 / combined))).
  { intros i Hi. rewrite Hval, Hscat.
    rewrite spectrum_get_mul;
      [| rewrite spectrum_mul_length; lia
       | unfold spectrum_scale; rewrite length_map; lia].
    rewrite spectrum_get_mul by lia.
    unfold spectrum_scale. rewrite spectrum_get_map by lia.
    rewrite Htr by exact Hi. reflexivity. }
  split; [split|split].
  - unfold well_formed. rewrite Hval, Hscat.
    rewrite spectrum_mul_length;
      rewrite spectrum_mul_length; try lia.
    unfold spectrum_scale; rewrite length_map. lia.
  - intros i Hi. rewrite Hget by exact Hi.
    pose proof (classical_transmission_positive (it_distance it) _ (it_transmitted it) i
                  (extinction_positive _ Hopt i Hi)).
    pose proof (albedo_positive _ Hopt i Hi). pose proof (Hnn1 i Hi).
    apply Rmult_le_pos; apply Rmult_le_pos; lra.
  - exact Hchr.
  - split.
    + rewrite Hget by exact Hchr.
      pose proof (classical_transmission_positive (it_distance it) _ (it_transmitted it) _
                    (extinction_positive _ Hopt _ Hchr)).
      pose proof (albedo_positive _ Hopt _ Hchr).
      apply Rmult_lt_0_compat; apply Rmult_lt_0_compat; lra.
    + intros i Hi Hpos. rewrite Hget by exact Hi.
      pose proof (classical_transmission_positive (it_distance it) _ (it_transmitted it) _
                    (extinction_positive _ Hopt _ Hi)).
      pose proof (albedo_positive _ Hopt _ Hi). pose proof (Hkeep1 i Hi Hpos).
      apply Rmult_lt_0_compat; apply Rmult_lt_0_compat; lra.
Qed.

(** X2. In every complete pass through the loop body the effective
    extinction used to sample the distance is strictly positive: the
    extinction of the selected channel for classical sampling, and
    [extinction * (1 - cosine * kappa)] for Dwivedi sampling, whatever the
    sampled direction. *)
Theorem pass_effective_extinction_positive (values : RandomWalkBSSRDFInputValues)
    (c : WalkConstants) (st st' : LoopState) (it : Iteration) :
  environment_contract ->
  optical_properties_valid values ->
  walk_constants_valid c ->
  loop_body values c st = Stepped it st' ->
  0 < it_effective_extinction it.
Proof.
  intros Henv Hopt (_ & Hslab & _) Hbody.
  destruct (loop_body_stepped _ _ _ _ _ Hbody)
    as (sc1 & bs1 & cdf & s_ch & s_b & s_d & s_dir & _ & _ & _ & _ & Hch
        & _ & _ & _ & Hinc & _ & Hcos & Heff & _).
  assert (Hchr : (it_channel it < Spectrum_size)%nat)
    by (rewrite Hch; apply (channel_in_range Henv)).
  pose proof (extinction_positive _ Hopt _ Hchr) as He.
  rewrite Heff. destruct (it_is_biased it); [|exact He].
  rewrite literal_one. apply effective_extinction_positive.
  - exact He.
  - apply (kappa_range _ Hopt); exact Hchr.
  - rewrite Hcos, Hinc. apply dot_normalized_bounds; [|exact Hslab].
    apply (dwivedi_direction_normalized Henv); exact Hslab.
Qed.




End RussianRoulette.

(* ------------------------------------------------------------------ *)
(** ** The slab meets the contract of the walk *)

Lemma slab_variate_range (v : Slab.Variate) : 0 <= Slab.variate v < 1.
Proof.
  destruct v as [| |k]; simpl; try lra.
  assert (H : 0 < IZR (Zpos k)) by (apply IZR_lt; lia).
  pose proof (exp_pos (- IZR (Zpos k))).
  assert (exp (- IZR (Zpos k)) < 1) by (rewrite <- exp_0; apply exp_increasing; lra).
  lra.
Qed.

Lemma slab_next_float_range (sc : Slab.Script) : 0 <= fst (Slab.next_float sc) < 1.
Proof.
  destruct sc as [|v sc]; simpl; [lra | apply slab_variate_range].
Qed.

Lemma slab_two_valued_normalized (axis : Vector3) (s : R * R) :
  is_normalized axis -> is_normalized (Slab.two_valued axis s).
Proof.
  intros H; unfold Slab.two_valued.
  destruct (Rlt_dec (fst s) (1 / 2)); [exact H | apply vneg_normalized; exact H].
Qed.

Lemma slab_z_axis_normalized : is_normalized Slab.z_axis.
Proof. unfold is_normalized, dot, Slab.z_axis; simpl; lra. Qed.

Lemma slab_hit_at_cases (ray : ShadingRay) (t : R) (n : Vector3) :
  Slab.hit_at ray t n = Slab.no_hit ray
  \/ (0 <= t
      /\ Slab.hit_at ray t n
         = mkShadingPoint true true t (point_at ray t) n (Slab.slab_basis n)
             (m_time ray) (m_depth ray)).
Proof.
  unfold Slab.hit_at.
  destruct (Rle_dec 0 t); [|left; reflexivity].
  destruct (m_tmax ray) as [tmax|]; [|right; split; [assumption | reflexivity]].
  destruct (Rle_dec t tmax); [right; split; [assumption | reflexivity] | left; reflexivity].
Qed.

Lemma slab_trace_properties (ray : ShadingRay) (parent : option ShadingPoint) :
  is_normalized (get_geometric_normal (Slab.slab_trace ray parent))
  /\ 0 <= get_distance (Slab.slab_trace ray parent).
Proof.
  pose proof slab_z_axis_normalized as Hz.
  pose proof (vneg_normalized _ Hz) as Hnz.
  unfold Slab.slab_trace.
  destruct (Rlt_dec 0 (vz (m_dir ray))).
  - destruct (slab_hit_at_cases ray ((1 - vz (m_org ray)) / vz (m_dir ray))
                (vneg Slab.z_axis)) as [-> | [Ht ->]]; simpl; split; auto; lra.
  - destruct (Rlt_dec (vz (m_dir ray)) 0).
    + destruct (slab_hit_at_cases ray ((0 - vz (m_org ray)) / vz (m_dir ray))
                  Slab.z_axis) as [-> | [Ht ->]]; simpl; split; auto; lra.
    + simpl; split; auto; lra.
Qed.

Lemma slab_proportional_pdf (value : Spectrum) (i : nat) :
  (forall j, (j < 2)%nat -> 0 <= spectrum_get value j) ->
  (i < 2)%nat ->
  0 <= spectrum_get (snd (Slab.proportional value)) i
  /\ (0 < spectrum_get value i -> 0 < spectrum_get (snd (Slab.proportional value)) i).
Proof.
  intros Hnn Hi. unfold Slab.proportional; cbn [snd].
  pose proof (Hnn 0%nat ltac:(lia)) as Ha. pose proof (Hnn 1%nat ltac:(lia)) as Hb.
  set (a := spectrum_get value 0) in *. set (b := spectrum_get value 1) in *.
  assert (Hcases : a + b = 0 \/ 0 < a + b) by lra.
  destruct i as [|[|i]]; [| |lia]; unfold spectrum_get at 1 3; cbn [nth]; fold a b.
  - destruct Hcases as [H0|Hpos].
    + assert (a = 0) by lra. split; [|lra]. subst a; rewrite H; unfold Rdiv; lra.
    + split; [|intros H]; [apply Rmult_le_pos|apply Rmult_lt_0_compat]; try lra;
        try (left; apply Rinv_0_lt_compat; lra); apply Rinv_0_lt_compat; lra.
  - destruct Hcases as [H0|Hpos].
    + assert (b = 0) by lra. split; [|lra]. subst b; rewrite H; unfold Rdiv; lra.
    + split; [|intros H]; [apply Rmult_le_pos|apply Rmult_lt_0_compat]; try lra;
        try (left; apply Rinv_0_lt_compat; lra); apply Rinv_0_lt_compat; lra.
Qed.

Lemma slab_pick_range (cdf : Spectrum) (s : R) : (Slab.pick cdf s < 2)%nat.
Proof. unfold Slab.pick; destruct (Rlt_dec s (spectrum_get cdf 0)); lia. Qed.

Lemma slab_contract : environment_contract (E := Slab.environment).
Proof.
  constructor.
  - intros sc. apply slab_next_float_range.
  - intros value i _ Hnn Hi. apply slab_proportional_pdf; assumption.
  - intros value i _ Hnn Hi. apply slab_proportional_pdf; assumption.
  - intros cdf s. apply slab_pick_range.
  - intros nu0 outgoing incoming. simpl. pose proof FourPi_positive.
    left; apply Rdiv_lt_0_compat; lra.
  - intros s. apply slab_two_valued_normalized, slab_z_axis_normalized.
  - intros nu0 outgoing s H. apply slab_two_valued_normalized; exact H.
  - intros ray parent _. apply slab_trace_properties.
  - intros ray parent _. apply slab_trace_properties.
Qed.

Lemma slab_medium_valid :
  optical_properties_valid (E := Slab.environment) (Slab.input_values Slab.medium).
Proof.
  constructor; simpl.
  - reflexivity.
  - intros [|[|i]] Hi; unfold spectrum_get; simpl; try lra; lia.
  - intros [|[|i]] Hi; unfold spectrum_get; simpl; try lra; lia.
  - intros [|[|i]] Hi; unfold spectrum_get; simpl; try lra; lia.
Qed.

(* ------------------------------------------------------------------ *)
(** ** Walks in the slab *)

Lemma slab_trace_up (ray : ShadingRay) (parent : option ShadingPoint) (t : R) :
  0 < vz (m_dir ray) ->
  t = (1 - vz (m_org ray)) / vz (m_dir ray) ->
  0 <= t ->
  (forall tmax, m_tmax ray = Some tmax -> t <= tmax) ->
  Slab.slab_trace ray parent
  = mkShadingPoint true true t (point_at ray t) (vneg Slab.z_axis)
      (Slab.slab_basis (vneg Slab.z_axis)) (m_time ray) (m_depth ray).
Proof.
  intros Hdz -> Ht Hmax. unfold Slab.slab_trace, Slab.hit_at.
  destruct (Rlt_dec 0 (vz (m_dir ray))); [|contradiction].
  destruct (Rle_dec 0 _); [|contradiction].
  destruct (m_tmax ray) as [tmax|]; [|reflexivity].
  destruct (Rle_dec _ tmax) as [_|Hn]; [reflexivity|].
  exfalso; apply Hn, Hmax; reflexivity.
Qed.

Lemma slab_trace_down (ray : ShadingRay) (parent : option ShadingPoint) (t : R) :
  vz (m_dir ray) < 0 ->
  t = (0 - vz (m_org ray)) / vz (m_dir ray) ->
  0 <= t ->
  (forall tmax, m_tmax ray = Some tmax -> t <= tmax) ->
  Slab.slab_trace ray parent
  = mkShadingPoint true true t (point_at ray t) Slab.z_axis
      (Slab.slab_basis Slab.z_axis) (m_time ray) (m_depth ray).
Proof.
  intros Hdz -> Ht Hmax. unfold Slab.slab_trace, Slab.hit_at.
  destruct (Rlt_dec 0 (vz (m_dir ray))); [lra|].
  destruct (Rlt_dec (vz (m_dir ray)) 0); [|contradiction].
  destruct (Rle_dec 0 _); [|contradiction].
  destruct (m_tmax ray) as [tmax|]; [|reflexivity].
  destruct (Rle_dec _ tmax) as [_|Hn]; [reflexivity|].
  exfalso; apply Hn, Hmax; reflexivity.
Qed.

Lemma slab_trace_miss (ray : ShadingRay) (parent : option ShadingPoint) :
  vz (m_dir ray) = 0 -> Slab.slab_trace ray parent = Slab.no_hit ray.
Proof.
  intros H. unfold Slab.slab_trace. rewrite H.
  destruct (Rlt_dec 0 0); [lra|]. destruct (Rlt_dec 0 0); [lra | reflexivity].
Qed.

Lemma sample_exponential_distribution_exp (k : positive) (a : R) :
  sample_exponential_distribution (Slab.variate (Slab.OneMinusExp k)) a
  = IZR (Zpos k) / a.
Proof.
  unfold sample_exponential_distribution, Slab.variate.
  replace (1 - (1 - exp (- IZR (Zpos k)))) with (exp (- IZR (Zpos k))) by lra.
  rewrite ln_exp. unfold Rdiv. lra.
Qed.

Lemma sample_exponential_distribution_zero (a : R) :
  a <> 0 -> sample_exponential_distribution 0 a = 0.
Proof.
  intros _. unfold sample_exponential_distribution.
  replace (1 - 0) with 1 by lra. rewrite ln_1. unfold Rdiv. lra.
Qed.

Lemma slab_medium_extinction (channel : nat) :
  (channel < 2)%nat ->
  spectrum_get (m_extinction (m_precomputed (Slab.input_values Slab.medium))) channel = 4.
Proof.
  destruct channel as [|[|i]]; intros H; try reflexivity; lia.
Qed.

Lemma slab_medium_kappa (channel : nat) :
  (channel < 2)%nat ->
  spectrum_get (m_rcp_diffusion_length (m_precomputed (Slab.input_values Slab.medium)))
    channel = 1 / 2.
Proof.
  destruct channel as [|[|i]]; intros H; try reflexivity; lia.
Qed.

(** The initial ray from the entry point runs along [z] and hits the far
    face at distance 1. *)
Lemma slab_initial_ray (script : Slab.Script) :
  let ray0 := initial_ray (E := Slab.environment) script Slab.entry_point in
  vx (m_dir ray0) = 0 /\ vy (m_dir ray0) = 0 /\ vz (m_dir ray0) = 1
  /\ m_org ray0 = mkVector3 0 0 0
  /\ m_tmax ray0 = None
  /\ Slab.slab_trace ray0 (Some Slab.entry_point)
     = mkShadingPoint true true 1 (point_at ray0 1) (vneg Slab.z_axis)
         (Slab.slab_basis (vneg Slab.z_axis)) (m_time ray0) (m_depth ray0).
Proof.
  intros ray0.
  assert (Hx : vx (m_dir ray0) = 0) by (subst ray0; simpl; lra).
  assert (Hy : vy (m_dir ray0) = 0) by (subst ray0; simpl; lra).
  assert (Hz : vz (m_dir ray0) = 1) by (subst ray0; simpl; lra).
  assert (Ho : m_org ray0 = mkVector3 0 0 0) by reflexivity.
  assert (Hm : m_tmax ray0 = None) by reflexivity.
  repeat (split; [assumption|]).
  apply slab_trace_up.
  - lra.
  - rewrite Hz, Ho; simpl; lra.
  - lra.
  - intros tmax H; rewrite Hm in H; discriminate.
Qed.

(** The initial segment of a walk that enters the slab medium at the entry
    point and draws [1 - exp(-k)] for its distance: the sampled distance is
    [k/4], the chord length 1. *)
Lemma slab_initial_segment (k : positive) (rest : Slab.Script) :
  let values := Slab.input_values Slab.medium in
  let script := Slab.Zero :: Slab.Zero :: Slab.Zero :: Slab.OneMinusExp k :: rest in
  let c := fst (slab_start values script Slab.entry_point) in
  let st := snd (slab_start values script Slab.entry_point) in
  sample_initial (E := Slab.environment) values script Slab.entry_point
    Slab.empty_sample = Some (c, st)
  /\ initial_distance c = IZR (Zpos k) / 4
  /\ ray_length c = 1
  /\ get_distance (m_incoming_point (bssrdf_sample st)) = 1
  /\ transmitted st = Rleb 1 (IZR (Zpos k) / 4)
  /\ near_slab_normal c = vneg Slab.z_axis
  /\ far_slab_normal c = vneg (vneg Slab.z_axis)
  /\ slab_normal c
     = (if Rltb (IZR (Zpos k) / 4) (0.5 * 1)
        then vneg (vneg Slab.z_axis) else vneg Slab.z_axis)
  /\ sampling_context st = rest
  /\ n_iteration st = O
  /\ vz (current_point st) = IZR (Zpos k) / 4.
Proof.
  intros values script c st.
  pose proof (slab_initial_ray script) as Hray. cbv zeta in Hray.
  destruct Hray as (Hdx & Hdy & Hdz & Horg & Htmax & Htrace).
  destruct (sample_initial_hits (E := Slab.environment) values script
              Slab.entry_point Slab.empty_sample) as (c' & st' & Hinit).
  { change (@trace Slab.environment) with Slab.slab_trace.
    rewrite Htrace; reflexivity. }
  assert (Hc : c = c') by (subst c; unfold slab_start; rewrite Hinit; reflexivity).
  assert (Hst : st = st') by (subst st; unfold slab_start; rewrite Hinit; reflexivity).
  rewrite <- Hc, <- Hst in Hinit. clear c' st' Hc Hst.
  split; [exact Hinit|].
  destruct (sample_initial_some _ _ _ _ _ _ Hinit)
    as (cdf & pdf & s_channel & s_distance & Hn0 & _ & _ & Hch & Hdist & Hlen
        & Htr & _ & _ & Hnear & Hfar & Hslab & Hinc & Hdraws).
  cbv zeta in Hdraws.
  destruct Hdraws as (_ & Hsd & Hsc & Hrayst & Hcur & _).
  cbn in Hsd, Hsc.
  assert (Hchr : (initial_channel c < 2)%nat) by (rewrite Hch; apply slab_pick_range).
  assert (Hd : initial_distance c = IZR (Zpos k) / 4).
  { rewrite Hdist, Hsd. unfold values.
    rewrite (slab_medium_extinction _ Hchr).
    apply sample_exponential_distribution_exp. }
  assert (Hrayeq : ray st = initial_ray (E := Slab.environment) script Slab.entry_point)
    by (rewrite Hrayst; reflexivity).
  assert (Hhit : m_incoming_point (bssrdf_sample st)
                 = Slab.slab_trace (ray st) (Some Slab.entry_point)) by exact Hinc.
  rewrite Hrayeq, Htrace in Hhit.
  assert (Hl : ray_length c = 1) by (rewrite Hlen, Hhit; reflexivity).
  split; [exact Hd|]. split; [exact Hl|].
  split; [rewrite Hhit; reflexivity|].
  split; [rewrite Htr, Hl, Hd; reflexivity|].
  split; [rewrite Hnear; reflexivity|].
  assert (Hfar' : far_slab_normal c = vneg (vneg Slab.z_axis))
    by (rewrite Hfar, Hhit; reflexivity).
  split; [exact Hfar'|].
  split; [rewrite Hslab, Hd, Hl, Hfar', Hnear; reflexivity|].
  split; [exact Hsc|]. split; [exact Hn0|].
  rewrite Hcur, Hrayeq, Hd. unfold point_at, vadd, vscale; cbn [vz].
  rewrite Hdz, Horg; cbn [vz]. lra.
Qed.

Lemma slab_walk_starts (v : Slab.Variate) :
  sample_initial (E := Slab.environment) (Slab.input_values Slab.medium)
    (slab_script v) Slab.entry_point Slab.empty_sample
  = Some (slab_constants v, slab_state v).
Proof.
  exact (proj1 (slab_initial_segment 1
                  [Slab.Zero; Slab.Half; Slab.Half; Slab.Zero; v])).
Qed.

(** The first pass of that walk. *)
Lemma slab_first_pass (v : Slab.Variate) :
  let values := Slab.input_values Slab.medium in
  let c := slab_constants v in
  exists (it : Iteration) (st1 : LoopState),
    loop_body (E := Slab.environment) values c (slab_state v) = Stepped it st1
    /\ slab_normal c = vneg (vneg Slab.z_axis)
    /\ near_slab_normal c = vneg Slab.z_axis
    /\ it_is_biased it = true
    /\ it_incoming it = vneg (slab_normal c)
    /\ it_cosine it = - 1
    /\ it_effective_extinction it = 6
    /\ it_sampled_distance it = sample_exponential_distribution (Slab.variate v) 6
    /\ ray st1
       = mkShadingRay (current_point (slab_state v)) (it_incoming it) (walk_time c)
           ShadowRay (S (m_depth (ray (slab_state v))))
           (Some (it_sampled_distance it))
    /\ vz (current_point (slab_state v)) = 1 / 4
    /\ m_incoming_point (bssrdf_sample st1) = Slab.slab_trace (ray st1) None
    /\ it_transmitted it = hit_surface (m_incoming_point (bssrdf_sample st1))
    /\ it_distance it
       = (if it_transmitted it
          then get_distance (m_incoming_point (bssrdf_sample st1))
          else it_sampled_distance it)
    /\ 0 < spectrum_get (it_channel_pdf it) 0
    /\ 0 < spectrum_get (it_channel_pdf it) 1.
Proof.
  intros values c.
  pose proof (slab_walk_starts v) as Hinit. fold values c in Hinit.
  destruct (slab_initial_segment 1 [Slab.Zero; Slab.Half; Slab.Half; Slab.Zero; v])
    as (_ & Hd & Hl & _ & _ & Hnear & Hfar & Hslab & Hsc & Hn0 & Hz).
  fold (slab_script v) in Hd, Hl, Hnear, Hfar, Hslab, Hsc, Hn0, Hz.
  fold (slab_constants v) in Hd, Hl, Hnear, Hfar, Hslab.
  fold (slab_state v) in Hsc, Hn0, Hz. fold c in Hd, Hl, Hnear, Hfar, Hslab.
  assert (Hsn : slab_normal c = vneg (vneg Slab.z_axis)).
  { rewrite Hslab. unfold Rltb. destruct (Rlt_dec (1 / 4) (0.5 * 1)); [reflexivity | lra]. }
  destruct (sample_initial_valid (E := Slab.environment) values (slab_script v)
              Slab.entry_point Slab.empty_sample c (slab_state v)
              slab_contract slab_medium_valid
              (vneg_normalized _ slab_z_axis_normalized) Hinit)
    as (_ & Hwf & Hpos).
  destruct (loop_body_steps (E := Slab.environment) values c (slab_state v))
    as (it & st1 & Hbody).
  { rewrite Hn0; unfold MinRRIteration; lia. }
  { intros channel Hch. split.
    - destruct channel as [|[|i]]; unfold spectrum_get; simpl in *; try lra; lia.
    - pose proof (Hpos channel Hch); lra. }
  { apply slab_pick_range. }
  exists it, st1. split; [exact Hbody|].
  destruct (loop_body_stepped _ _ _ _ _ Hbody)
    as (sc1 & bs1 & cdf & s_ch & s_b & s_d & s_dir & _ & _ & Hrr & Hcdf & Hch
        & _ & _ & Hbiased & Hinc & _ & Hcos & Heff & Hsd & Hray & Hip & Htr & _
        & Hdist & _ & _ & _ & _ & _ & Hdraws).
  rewrite Hn0 in Hrr. change (MinRRIteration <? 1)%nat with false in Hrr.
  inversion Hrr; subst sc1 bs1; clear Hrr.
  cbv zeta in Hdraws. rewrite Hsc in Hdraws. cbn in Hdraws.
  destruct Hdraws as (_ & Hsb & Hsdir & Hsdist & _).
  assert (Hb : it_is_biased it = true).
  { rewrite Hbiased, Hsb. unfold Rltb, classical_sampling_prob.
    destruct (Rlt_dec 0.1 (1 / 2)); [reflexivity | lra]. }
  assert (Hchr : (it_channel it < 2)%nat) by (rewrite Hch; apply slab_pick_range).
  assert (Hi : it_incoming it = vneg (slab_normal c)).
  { rewrite Hinc, Hb, Hsdir. cbn. unfold Slab.two_valued; cbn [fst].
    destruct (Rlt_dec (1 / 2) (1 / 2)); [lra | reflexivity]. }
  assert (Hc : it_cosine it = - 1).
  { rewrite Hcos, Hi, Hsn. unfold dot, vneg, Slab.z_axis; simpl. lra. }
  assert (He : it_effective_extinction it = 6).
  { rewrite Heff, Hb, Hc. unfold values.
    rewrite (slab_medium_extinction _ Hchr), (slab_medium_kappa _ Hchr). lra. }
  repeat (split; [first [assumption | reflexivity]|]).
  split; [rewrite Hsd, He, Hsdist; reflexivity|].
  split; [exact Hray|]. split; [exact Hz|]. split; [exact Hip|].
  split; [exact Htr|]. split; [exact Hdist|].
  assert (Hpdf : it_channel_pdf it = snd (Slab.proportional (m_value (bssrdf_sample (slab_state v))))).
  { change (@build_cdf_and_pdf Slab.environment) with Slab.proportional in Hcdf.
    rewrite Hcdf; reflexivity. }
  rewrite Hpdf.
  assert (Hnn : forall j, (j < 2)%nat ->
                  0 <= spectrum_get (m_value (bssrdf_sample (slab_state v))) j)
    by (intros j Hj; left; apply Hpos; exact Hj).
  split; apply slab_proportional_pdf; try exact Hnn; try lia;
    apply Hpos; simpl; lia.
Qed.

(* ------------------------------------------------------------------ *)
(** ** A walk that reaches the Russian roulette *)






(* ------------------------------------------------------------------ *)
(** ** The claims on concrete inputs *)

(** C7 at the reflectances 0.25 and 0.5. *)
Lemma albedo_from_reflectance_witness :
  0 < albedo_from_reflectance 0.25 < 1
  /\ (0.25 < 0.5 -> albedo_from_reflectance 0.25 < albedo_from_reflectance 0.5)
  /\ (0.25 <= 0.5 -> albedo_from_reflectance 0.25 <= albedo_from_reflectance 0.5).
Proof.
  apply (albedo_from_reflectance_unit_interval_and_increasing 0.25 0.5); lra.
Defined.

(** C8 in the slab: a segment of length 1 that did not end on a surface. *)
Lemma classical_density_witness :
  let r := compute_transmission_classical_sampling (E := Slab.environment)
             1 [4; 4] [1 / 2; 1 / 2] false [0; 0] in
  fst r = sum_channels 2
            (fun i => exp (- 1 * spectrum_get [4; 4] i)
                      * spectrum_get [4; 4] i * spectrum_get [1 / 2; 1 / 2] i)
  /\ well_formed (E := Slab.environment) (snd r)
  /\ forall i, (i < 2)%nat ->
       spectrum_get (snd r) i
       = exp (- 1 * spectrum_get [4; 4] i) * spectrum_get [4; 4] i.
Proof.
  apply (classical_density_is_weighted_transmission_sum (E := Slab.environment)
           1 [4; 4] [1 / 2; 1 / 2] false [0; 0]).
  reflexivity.
Defined.


Lemma crossing_walk_exits :
  random_walk (E := Slab.environment) (Slab.input_values Slab.medium)
    crossing_script Slab.entry_point Slab.empty_sample
  = Exited crossing_state.
Proof.
  destruct (slab_initial_segment 5 []) as (Hinit & _ & _ & _ & Htr & _).
  fold crossing_script in Hinit, Htr. fold crossing_state in Hinit, Htr.
  unfold random_walk. rewrite Hinit. simpl walk_loop. rewrite Htr.
  unfold Rleb. destruct (Rle_dec 1 (5 / 4)); [reflexivity | lra].
Qed.

(** C9 on the crossing walk. *)
Lemma post_walk_throughput_witness :
  exists st : LoopState,
    random_walk (E := Slab.environment) (Slab.input_values Slab.medium)
      crossing_script Slab.entry_point Slab.empty_sample = Exited st
    /\ transmitted st = true
    /\ Forall (fun x => 0 <= x <= 2) (post_walk_value st)
    /\ length (post_walk_value st) = length (m_value (bssrdf_sample st))
    /\ m_value
         (snd (fst (sample_exit (E := Slab.environment)
                      (Slab.input_values Slab.medium) crossing_state
                      Slab.empty_bsdf_sample)))
       = apply_scattering_weights (Slab.input_values Slab.medium)
           (n_iteration st) (post_walk_value st).
Proof.
  apply (post_walk_throughput_clamped (E := Slab.environment)
           (Slab.input_values Slab.medium) crossing_script Slab.entry_point
           Slab.empty_sample Slab.empty_bsdf_sample).
  unfold sample. rewrite crossing_walk_exits. reflexivity.
Defined.

(** C3 as stated fails: in the medium without extinction, the walk that
    enters at the grazing point fails before the loop, at no iteration and
    without reaching the degenerate-channel check. *)
Lemma zero_extinction_walk_escapes :
  (forall i, (i < 2)%nat ->
     spectrum_get (m_extinction (m_precomputed (Slab.input_values Slab.clear_medium))) i
     = 0)
  /\ random_walk (E := Slab.environment) (Slab.input_values Slab.clear_medium)
       [] Slab.grazing_point Slab.empty_sample = Escaped
  /\ random_walk (E := Slab.environment) (Slab.input_values Slab.clear_medium)
       [] Slab.grazing_point Slab.empty_sample <> Degenerate 1.
Proof.
  assert (H : random_walk (E := Slab.environment)
                (Slab.input_values Slab.clear_medium)
                [] Slab.grazing_point Slab.empty_sample = Escaped).
  { unfold random_walk. rewrite sample_initial_misses; [reflexivity|].
    change (@trace Slab.environment) with Slab.slab_trace.
    rewrite slab_trace_miss; [reflexivity|]. simpl. lra. }
  split; [|split; [exact H | rewrite H; discriminate]].
  intros [|[|i]] Hi; try reflexivity; lia.
Qed.

(** C3 (amended) on the walk that enters the clear medium at the entry
    point. *)
Lemma zero_extinction_walk_witness :
  (random_walk (E := Slab.environment) (Slab.input_values Slab.clear_medium)
     [] Slab.entry_point Slab.empty_sample = Escaped
   /\ forall bsdf, sample (E := Slab.environment) (Slab.input_values Slab.clear_medium)
                     [] Slab.entry_point Slab.empty_sample bsdf = None)
  \/ (random_walk (E := Slab.environment) (Slab.input_values Slab.clear_medium)
        [] Slab.entry_point Slab.empty_sample = Degenerate 1
      /\ forall bsdf, sample (E := Slab.environment) (Slab.input_values Slab.clear_medium)
                        [] Slab.entry_point Slab.empty_sample bsdf = None)
  \/ (exists st, random_walk (E := Slab.environment)
                   (Slab.input_values Slab.clear_medium)
                   [] Slab.entry_point Slab.empty_sample = Exited st
                 /\ n_iteration st = O).
Proof.
  apply (zero_extinction_walk_ends_by_first_iteration (E := Slab.environment)
           (Slab.input_values Slab.clear_medium) [] Slab.entry_point Slab.empty_sample).
  - intros [|[|i]] Hi; try reflexivity; simpl in Hi; lia.
  - intros [|[|i]] Hi; unfold spectrum_get; simpl; try lra; simpl in Hi; lia.
  - intros cdf s; apply slab_pick_range.
Defined.

(** C10 on the slab walk with initial distance 1/4: the far-side normal is
    selected, and the first pass, one of the passes of the walk, uses it. *)
Lemma slab_normal_witness :
  let values := Slab.input_values Slab.medium in
  let v := Slab.OneMinusExp 3 in
  let c := slab_constants v in
  let initial_hit :=
    @trace Slab.environment
      (initial_ray (E := Slab.environment) (slab_script v) Slab.entry_point)
      (Some Slab.entry_point) in
  slab_normal c
  = (if Rltb (initial_distance c) (0.5 * ray_length c)
     then vneg (get_geometric_normal initial_hit)
     else get_geometric_normal Slab.entry_point)
  /\ walk_ends_at (E := Slab.environment) values c (slab_state v)
       (random_walk (E := Slab.environment) values (slab_script v)
          Slab.entry_point Slab.empty_sample)
  /\ exists it st1,
       loop_body (E := Slab.environment) values c (slab_state v) = Stepped it st1
       /\ it_cosine it = dot (it_incoming it) (slab_normal c)
       /\ it_incoming it
          = if it_is_biased it
            then @dwivedi_sample Slab.environment
                   (rcp (spectrum_get (m_rcp_diffusion_length (m_precomputed values))
                           (it_channel it)))
                   (slab_normal c)
                   (pass_direction_variate (E := Slab.environment)
                      (sampling_context (slab_state v)))
            else @sample_sphere_uniform Slab.environment
                   (pass_direction_variate (E := Slab.environment)
                      (sampling_context (slab_state v))).
Proof.
  intros values v c initial_hit.
  destruct (slab_normal_fixed_before_loop (E := Slab.environment) values
              (slab_script v) Slab.entry_point Slab.empty_sample
              c (slab_state v) (slab_walk_starts v))
    as (_ & _ & _ & Hslab & Hends & Hpass).
  split; [exact Hslab|]. split; [exact Hends|].
  destruct (slab_first_pass v) as (it & st1 & Hbody & _).
  exists it, st1. split; [exact Hbody|].
  destruct (Hpass _ _ _ Hbody) as (sc1 & bs1 & Hrr & _ & _ & Hinc & Hcos & _).
  assert (Hsc1 : sc1 = sampling_context (slab_state v)).
  { destruct (slab_initial_segment 1
                [Slab.Zero; Slab.Half; Slab.Half; Slab.Zero; v])
      as (_ & _ & _ & _ & _ & _ & _ & _ & _ & Hn0 & _).
    fold (slab_script v) in Hn0. fold (slab_state v) in Hn0.
    unfold after_roulette in Hrr. rewrite Hn0 in Hrr.
    change (MinRRIteration <? 1)%nat with false in Hrr.
    inversion Hrr; reflexivity. }
  rewrite <- Hsc1. split; [exact Hcos | exact Hinc].
Defined.

(** The first pass of the slab walk whose pass distance is [3/6]: the ray
    goes down from [z = 1/4] and ends on the face [z = 0] after [1/4]. *)
Lemma slab_first_pass_hits :
  let v := Slab.OneMinusExp 3 in
  let c := slab_constants v in
  exists (it : Iteration) (st1 : LoopState),
    loop_body (E := Slab.environment) (Slab.input_values Slab.medium) c (slab_state v)
    = Stepped it st1
    /\ it_transmitted it = true
    /\ it_distance it = 1 / 4
    /\ dot (it_incoming it) (slab_normal c) = - 1
    /\ dot (it_incoming it) (near_slab_normal c) = 1
    /\ 0 < spectrum_get (it_channel_pdf it) 0
    /\ 0 < spectrum_get (it_channel_pdf it) 1.
Proof.
  intros v c.
  destruct (slab_first_pass v)
    as (it & st1 & Hbody & Hsn & Hnear & Hb & Hi & Hc & He & Hsd & Hray & Hz & Hip
        & Htr & Hdist & Hp0 & Hp1).
  cbv zeta in Hsn, Hnear, Hi, Hray. fold c in Hsn, Hnear, Hi, Hray.
  exists it, st1. split; [exact Hbody|].
  assert (Hsd' : it_sampled_distance it = 3 / 6)
    by (rewrite Hsd; apply sample_exponential_distribution_exp).
  assert (Hdz : vz (m_dir (ray st1)) = - 1).
  { rewrite Hray; cbn [m_dir]. rewrite Hi, Hsn. unfold vneg, Slab.z_axis; simpl. lra. }
  assert (Hoz : vz (m_org (ray st1)) = 1 / 4) by (rewrite Hray; cbn [m_org]; exact Hz).
  assert (Hhit : Slab.slab_trace (ray st1) None
                 = mkShadingPoint true true (1 / 4) (point_at (ray st1) (1 / 4))
                     Slab.z_axis (Slab.slab_basis Slab.z_axis)
                     (m_time (ray st1)) (m_depth (ray st1))).
  { apply slab_trace_down.
    - lra.
    - rewrite Hdz, Hoz. lra.
    - lra.
    - intros tmax Ht. rewrite Hray in Ht; cbn [m_tmax] in Ht.
      inversion Ht; subst tmax. lra. }
  rewrite Hhit in Hip.
  assert (Ht : it_transmitted it = true) by (rewrite Htr, Hip; reflexivity).
  split; [exact Ht|].
  split; [rewrite Hdist, Ht, Hip; reflexivity|].
  split.
  { rewrite Hi, Hsn. unfold dot, vneg, Slab.z_axis; simpl. lra. }
  split.
  { rewrite Hi, Hsn, Hnear. unfold dot, vneg, Slab.z_axis; simpl. lra. }
  split; assumption.
Qed.

Lemma slab_dwivedi_density (distance cosine : R) (pdf : Spectrum)
    (normal incoming : Vector3) :
  dwivedi_density (E := Slab.environment) distance
    (m_extinction (m_precomputed (Slab.input_values Slab.medium)))
    (m_rcp_diffusion_length (m_precomputed (Slab.input_values Slab.medium)))
    cosine pdf true normal incoming
  = exp (- distance * (4 * (1 - cosine * (1 / 2))))
    * (spectrum_get pdf 0 + spectrum_get pdf 1).
Proof.
  unfold dwivedi_density. cbn. pose proof FourPi_positive as H.
  replace (spectrum_get [4; 4] 0) with 4 by reflexivity.
  replace (spectrum_get [4; 4] 1) with 4 by reflexivity.
  replace (spectrum_get [1 / 2; 1 / 2] 0) with (1 / 2) by reflexivity.
  replace (spectrum_get [1 / 2; 1 / 2] 1) with (1 / 2) by reflexivity.
  field. lra.
Qed.

(** C2 as stated fails: on the first pass of this walk the near Dwivedi
    density computed by the code is not the one whose effective extinction
    takes its cosine against the near slab normal. *)
Lemma near_density_own_cosine_counterexample :
  let values := Slab.input_values Slab.medium in
  let v := Slab.OneMinusExp 3 in
  exists (it : Iteration) (st1 : LoopState),
    sample_initial (E := Slab.environment) values (slab_script v) Slab.entry_point
      Slab.empty_sample = Some (slab_constants v, slab_state v)
    /\ loop_body (E := Slab.environment) values (slab_constants v) (slab_state v)
       = Stepped it st1
    /\ it_mis_dwivedi_near it
       <> dwivedi_density_own_cosine (E := Slab.environment) (it_distance it)
            (m_extinction (m_precomputed values))
            (m_rcp_diffusion_length (m_precomputed values))
            (it_channel_pdf it) (it_transmitted it)
            (near_slab_normal (slab_constants v)) (it_incoming it).
Proof.
  intros values v.
  destruct slab_first_pass_hits
    as (it & st1 & Hbody & Ht & Hd & Hcs & Hcn & Hp0 & Hp1).
  exists it, st1. split; [apply slab_walk_starts|]. split; [exact Hbody|].
  destruct (loop_segment_mis_correction_step (E := Slab.environment) _ _ _ _ _ Hbody)
    as (Hnear & _).
  rewrite Hnear. unfold dwivedi_density_own_cosine.
  subst values v. cbv zeta in Hcs, Hcn.
  rewrite Ht, Hd, Hcs, Hcn. rewrite !slab_dwivedi_density.
  assert (Hlt : exp (- (1 / 4) * (4 * (1 - - 1 * (1 / 2))))
                < exp (- (1 / 4) * (4 * (1 - 1 * (1 / 2)))))
    by (apply exp_increasing; lra).
  intros Heq. nra.
Qed.

(** C2 (amended) on the same pass. *)
Lemma loop_segment_mis_correction_witness :
  let values := Slab.input_values Slab.medium in
  let v := Slab.OneMinusExp 3 in
  let c := slab_constants v in
  bias_strategy_prob c
  = exp (- spectrum_get (m_extinction (m_precomputed values)) (initial_channel c)
         * ray_length c * 0.5)
  /\ walk_ends_at (E := Slab.environment) values c (slab_state v)
       (random_walk (E := Slab.environment) values (slab_script v)
          Slab.entry_point Slab.empty_sample)
  /\ exists (it : Iteration) (st1 : LoopState) (bs1 : BSSRDFSample),
       loop_body (E := Slab.environment) values c (slab_state v) = Stepped it st1
       /\ it_scattered_value it
          = spectrum_mul (m_value bs1) (m_albedo (m_precomputed values))
       /\ it_channel_pdf it
          = snd (@build_cdf_and_pdf Slab.environment (m_value bs1))
       /\ m_value (bssrdf_sample st1)
          = spectrum_mul
              (spectrum_mul (m_value bs1) (m_albedo (m_precomputed values)))
              (spectrum_scale (it_transmission it)
                 (1 / ((it_mis_dwivedi_far it * (1 - bias_strategy_prob c)
                        + it_mis_dwivedi_near it * bias_strategy_prob c)
                       * (1 - 0.1)
                       + it_mis_classical it * 0.1))).
Proof.
  intros values v c.
  destruct (loop_segment_mis_correction (E := Slab.environment) values
              (slab_script v) Slab.entry_point Slab.empty_sample
              c (slab_state v) (slab_walk_starts v))
    as (Hbias & _ & _ & _ & _ & Hends & Hpass).
  split; [exact Hbias|]. split; [exact Hends|].
  destruct (slab_first_pass v) as (it & st1 & Hbody & _).
  destruct (Hpass _ _ _ Hbody)
    as (sc1 & bs1 & _ & _ & _ & _ & Hpdf & Hscat & _ & _ & _ & Hn & Hf & Hc
        & _ & _ & Hval).
  exists it, st1, bs1. split; [exact Hbody|].
  split; [exact Hscat|]. split; [exact Hpdf|].
  rewrite Hn, Hf, Hc. exact Hval.
Defined.



(** C6 (what the code does). On the first pass of the slab walk that draws
    the variate 0 for its distance, the effective extinction is positive and
    the sampled distance, the operand of the assertion [distance > 0], is
    zero. *)
Theorem zero_variate_samples_zero_distance :
  exists (it : Iteration) (st1 : LoopState),
    sample_initial (E := Slab.environment) (Slab.input_values Slab.medium)
      (slab_script Slab.Zero) Slab.entry_point Slab.empty_sample
    = Some (slab_constants Slab.Zero, slab_state Slab.Zero)
    /\ loop_body (E := Slab.environment) (Slab.input_values Slab.medium)
         (slab_constants Slab.Zero) (slab_state Slab.Zero) = Stepped it st1
    /\ 0 < it_effective_extinction it
    /\ it_sampled_distance it = 0
    /\ ~ it_sampled_distance it > 0.
Proof.
  destruct (slab_first_pass Slab.Zero)
    as (it & st1 & Hbody & _ & _ & _ & _ & _ & He & Hsd & _).
  exists it, st1. split; [apply slab_walk_starts|]. split; [exact Hbody|].
  assert (H0 : it_sampled_distance it = 0)
    by (rewrite Hsd; apply sample_exponential_distribution_zero; lra).
  split; [rewrite He; lra|]. split; [exact H0 | rewrite H0; lra].
Qed.

(** X2 on the first pass of the slab walk. *)
Lemma pass_effective_extinction_witness :
  exists (it : Iteration) (st1 : LoopState),
    loop_body (E := Slab.environment) (Slab.input_values Slab.medium)
      (slab_constants (Slab.OneMinusExp 3)) (slab_state (Slab.OneMinusExp 3))
    = Stepped it st1
    /\ 0 < it_effective_extinction it.
Proof.
  destruct (slab_first_pass (Slab.OneMinusExp 3)) as (it & st1 & Hbody & _).
  exists it, st1. split; [exact Hbody|].
  apply (pass_effective_extinction_positive (E := Slab.environment)
           (Slab.input_values Slab.medium) (slab_constants (Slab.OneMinusExp 3))
           (slab_state (Slab.OneMinusExp 3)) st1 it slab_contract slab_medium_valid).
  - apply (sample_initial_valid (E := Slab.environment)
             (Slab.input_values Slab.medium) (slab_script (Slab.OneMinusExp 3))
             Slab.entry_point Slab.empty_sample
             (slab_constants (Slab.OneMinusExp 3)) (slab_state (Slab.OneMinusExp 3))
             slab_contract slab_medium_valid
             (vneg_normalized _ slab_z_axis_normalized)
             (slab_walk_starts (Slab.OneMinusExp 3))).
  - exact Hbody.
Defined.

(** C1 (what the code does). After the clamp, the throughput of a walk that
    left the loop with [n_iteration = 1] is multiplied by the zero-scattering
    weight and then also by the multiple-scattering weight; with
    [n_iteration = 0] (the initial segment alone reached the surface) by the
    multiple-scattering weight; with [n_iteration = 2] by the
    single-scattering weight; with more by the multiple-scattering weight.
    The slab walk that ends on its first pass, with weights 2, 5 and 3, has
    its throughput multiplied by 2 and then by 3. *)
Theorem one_pass_walk_gets_two_weights :
  (forall (values : RandomWalkBSSRDFInputValues) (value : Spectrum),
     apply_scattering_weights values 1 value
     = spectrum_scale
         (spectrum_scale value (m_zero_scattering_weight values))
         (m_multiple_scattering_weight values)
     /\ apply_scattering_weights values 0 value
        = spectrum_scale value (m_multiple_scattering_weight values)
     /\ apply_scattering_weights values 2 value
        = spectrum_scale value (m_single_scattering_weight values)
     /\ forall k : nat,
          apply_scattering_weights values (3 + k) value
          = spectrum_scale value (m_multiple_scattering_weight values))
  /\ exists st : LoopState,
       random_walk (E := Slab.environment) (Slab.input_values Slab.medium)
         (slab_script (Slab.OneMinusExp 3)) Slab.entry_point Slab.empty_sample
       = Exited st
       /\ n_iteration st = 1%nat
       /\ sample (E := Slab.environment) (Slab.input_values Slab.medium)
            (slab_script (Slab.OneMinusExp 3)) Slab.entry_point Slab.empty_sample
            Slab.empty_bsdf_sample
          = Some (sample_exit (E := Slab.environment)
                    (Slab.input_values Slab.medium) st Slab.empty_bsdf_sample)
       /\ m_value (snd (fst (sample_exit (E := Slab.environment)
                               (Slab.input_values Slab.medium) st
                               Slab.empty_bsdf_sample)))
          = spectrum_scale (spectrum_scale (post_walk_value st) 2) 3.
Proof.
  split; [intros values value; apply apply_scattering_weights_cases|].
  destruct slab_first_pass_hits as (it & st1 & Hbody & Ht & _).
  cbv zeta in Hbody.
  destruct (slab_initial_segment 1
              [Slab.Zero; Slab.Half; Slab.Half; Slab.Zero; Slab.OneMinusExp 3])
    as (_ & _ & _ & _ & Htr0 & _ & _ & _ & _ & Hn0 & _).
  fold (slab_script (Slab.OneMinusExp 3)) in Htr0, Hn0.
  fold (slab_state (Slab.OneMinusExp 3)) in Htr0, Hn0.
  assert (Htr0' : transmitted (slab_state (Slab.OneMinusExp 3)) = false).
  { rewrite Htr0. unfold Rleb. destruct (Rle_dec 1 (1 / 4)); [lra | reflexivity]. }
  destruct (loop_body_counts _ _ _ _ _ Hbody) as (Hn1 & _ & Htr1).
  rewrite Ht in Htr1. rewrite Hn0 in Hn1.
  assert (Hwalk : random_walk (E := Slab.environment) (Slab.input_values Slab.medium)
                    (slab_script (Slab.OneMinusExp 3)) Slab.entry_point
                    Slab.empty_sample = Exited st1).
  { unfold random_walk. rewrite slab_walk_starts.
    rewrite walk_loop_unfold, Htr0', Hbody.
    unfold MaxIterationsCount. rewrite walk_loop_unfold, Htr1. reflexivity. }
  exists st1. split; [exact Hwalk|]. split; [exact Hn1|].
  split; [unfold sample; rewrite Hwalk; reflexivity|].
  unfold sample_exit. rewrite Hn1. reflexivity.
Qed.

(* ------------------------------------------------------------------ *)
(** * Further properties of the preprocessor and of the walk *)

(* ------------------------------------------------------------------ *)
(** ** The reciprocal diffusion length *)

Lemma exp_one_lower_bound : 2.63 <= exp 1.
Proof.
  assert (H0 : 1.0625 <= exp (1 / 16)).
  { pose proof (exp_ineq1 (1 / 16)) as H. lra. }
  assert (H1 : 1.1289 <= exp (1 / 8))
    by (apply (exp_square_bound (1 / 16) _ 1.0625 _); [lra | exact H0 | lra | lra]).
  assert (H2 : 1.2744 <= exp (1 / 4))
    by (apply (exp_square_bound (1 / 8) _ 1.1289 _); [lra | exact H1 | lra | lra]).
  assert (H3 : 1.6240 <= exp (1 / 2))
    by (apply (exp_square_bound (1 / 4) _ 1.2744 _); [lra | exact H2 | lra | lra]).
  apply (exp_square_bound (1 / 2) _ 1.6240 _); [lra | exact H3 | lra | lra].
Qed.

Lemma exp_low_albedo_lower_bound : 5.79 <= exp (25 / 14).
Proof.
  assert (H0 : 1.0279 <= exp (25 / 896)).
  { pose proof (exp_ineq1 (25 / 896)) as H. lra. }
  assert (H1 : 1.0565 <= exp (25 / 448))
    by (apply (exp_square_bound (25 / 896) _ 1.0279 _); [lra | exact H0 | lra | lra]).
  assert (H2 : 1.1161 <= exp (25 / 224))
    by (apply (exp_square_bound (25 / 448) _ 1.0565 _); [lra | exact H1 | lra | lra]).
  assert (H3 : 1.2456 <= exp (25 / 112))
    by (apply (exp_square_bound (25 / 224) _ 1.1161 _); [lra | exact H2 | lra | lra]).
  assert (H4 : 1.5515 <= exp (25 / 56))
    by (apply (exp_square_bound (25 / 112) _ 1.2456 _); [lra | exact H3 | lra | lra]).
  assert (H5 : 2.4071 <= exp (25 / 28))
    by (apply (exp_square_bound (25 / 56) _ 1.5515 _); [lra | exact H4 | lra | lra]).
  apply (exp_square_bound (25 / 28) _ 2.4071 _); [lra | exact H5 | lra | lra].
Qed.

(** For [a >= 25/14 = 1/0.56]: [exp(-a) <= 0.173] and [a exp(-a) <= 0.3803]. *)
Lemma exp_neg_bounds (a : R) :
  25 / 14 <= a ->
  0 < exp (- a) <= 0.173 /\ 0 < a * exp (- a) <= 0.3803.
Proof.
  intros Ha. pose proof (exp_pos (- a)) as Hc.
  assert (Hinv : exp (- a) * exp a = 1)
    by (rewrite <- exp_plus; replace (- a + a) with 0 by lra; apply exp_0).
  assert (Hbig : 5.79 <= exp a).
  { pose proof exp_low_albedo_lower_bound.
    destruct Ha as [Hlt| <-]; [|assumption].
    apply exp_increasing in Hlt. lra. }
  assert (Hc1 : exp (- a) <= 0.173) by nra.
  split; [lra|]. split; [nra|].
  assert (Hle : a <= exp (a - 1)).
  { pose proof (exp_ineq1 (a - 1)) as H. lra. }
  assert (Hsplit : exp (a - 1) * exp 1 = exp a)
    by (rewrite <- exp_plus; f_equal; lra).
  pose proof exp_one_lower_bound as He. pose proof (exp_pos (a - 1)).
  assert (Hprod : exp (a - 1) * exp (- a) * exp 1 = 1).
  { replace (exp (a - 1) * exp (- a) * exp 1)
      with (exp (- a) * (exp (a - 1) * exp 1)) by ring.
    rewrite Hsplit; exact Hinv. }
  set (u := exp (a - 1)) in *. set (c := exp (- a)) in *. set (e := exp 1) in *.
  assert (Huc : u * c <= 0.3803) by nra.
  nra.
Qed.

(** The low-albedo series: with [a = 1/albedo], [b = exp(-2a)] and
    [p = a b], the bracket is a polynomial in [p] and [b], both small. *)
Lemma compute_rcp_diffusion_length_low_albedo_range (albedo : R) :
  0 < albedo < 0.56 ->
  0.88 < compute_rcp_diffusion_length_low_albedo albedo < 1.
Proof.
  intros [Hpos Hlt]. unfold compute_rcp_diffusion_length_low_albedo.
  set (a := rcp albedo).
  assert (Ha : 25 / 14 <= a).
  { assert (H : a * albedo = 1) by (unfold a, rcp; field; lra). nra. }
  destruct (exp_neg_bounds a Ha) as [[Hc0 Hc1] [Ht0 Ht1]].
  replace (- 2.0 * a) with (- a + - a) by lra. rewrite exp_plus.
  set (c := exp (- a)) in *.
  set (b := c * c). set (p := a * b).
  assert (Hb : 0 < b <= 0.03) by (unfold b; nra).
  assert (Hp : 0 < p <= 0.0658).
  { unfold p, b. replace (a * (c * c)) with (a * c * c) by ring. nra. }
  assert (E : 1.0 + b * (a * 4.0 - 1.0
                         + b * (a * (a * 24.0 - 12.0) + 1.0
                                + b * (a * (a * (a * 512.0 - 384.0) + 72.0) - 3.0)))
              = 1 + (4 * p - b) + (24 * (p * p) - 12 * (p * b) + b * b)
                + (512 * (p * p * p) - 384 * (p * p * b) + 72 * (p * (b * b))
                   - 3 * (b * b * b)))
    by (unfold p; nra).
  rewrite E.
  assert (Hpp : 0 <= p * p <= 0.00433) by nra.
  assert (Hbb : 0 <= b * b <= 0.0009) by nra.
  assert (Hpb : 0 <= p * b <= 0.001974) by nra.
  assert (Hppp : 0 <= p * p * p <= 0.000285) by nra.
  assert (Hppb : 0 <= p * p * b <= 0.00013) by nra.
  assert (Hpbb : 0 <= p * (b * b) <= 0.00006) by nra.
  assert (Hbbb : 0 <= b * b * b <= 0.000027) by nra.
  set (S := 1 + (4 * p - b) + (24 * (p * p) - 12 * (p * b) + b * b)
            + (512 * (p * p * p) - 384 * (p * p * b) + 72 * (p * (b * b))
               - 3 * (b * b * b))).
  assert (HS : 0.89 <= S <= 1.52) by (unfold S; lra).
  split; nra.
Qed.

(** The high-albedo polynomial: with [b = sqrt(3a)], [a = 1 - albedo], the
    value is at most [b - (2/15) b^3], which increases with [b <= 1.149]. *)
Lemma compute_rcp_diffusion_length_high_albedo_range (albedo : R) :
  0.56 <= albedo <= 0.999 ->
  0.04 < compute_rcp_diffusion_length_high_albedo albedo < 0.95.
Proof.
  intros [Hlo Hhi]. unfold compute_rcp_diffusion_length_high_albedo.
  set (a := 1.0 - albedo).
  assert (Ha : 0.001 <= a <= 0.44) by (unfold a; lra).
  set (b := sqrt (3.0 * a)).
  assert (Hb0 : 0 < b) by (apply sqrt_lt_R0; lra).
  assert (Hbb : b * b = 3 * a).
  { unfold b. rewrite sqrt_sqrt by lra. lra. }
  assert (Hb1 : b < 1.149) by nra.
  set (P := 1.0000000000
            + a * (- 0.4000000000
                   + a * (- 0.0685714286 + a * (- 0.0160000000 + a * - 0.0024638218)))).
  assert (HP : 0.8 < P <= 1 - 0.4 * a).
  { unfold P.
    assert (0 <= a * a <= 0.1936) by nra.
    assert (0 <= a * (a * a) <= 0.0852) by nra.
    assert (0 <= a * (a * (a * a)) <= 0.0375) by nra.
    split; nra. }
  assert (Hb2 : 0.05 < b) by nra.
  split; [nra|].
  assert (Hle : b * P <= b * (1 - 0.4 * a)) by nra.
  assert (Hcube : b * (1 - 0.4 * a) = b - 2 / 15 * (b * (b * b)))
    by (rewrite Hbb; nra).
  assert (Hmono : 0 <= (1.149 - b)
                       * (1 - 2 / 15 * (1.149 * 1.149 + 1.149 * b + b * b)))
    by (apply Rmult_le_pos; nra).
  nra.
Qed.

(** X3. For every albedo from [0.005] up, the range the preprocessor
    produces, [compute_rcp_diffusion_length] returns a value in [[0.04, 1]]:
    at least [0.88] on the low-albedo branch (albedo below [0.56]) and at
    most [0.95] on the high-albedo branch, so that the cap [min(., 0.99)] of
    [prepare_inputs] can only bite on the low-albedo branch. *)
Theorem compute_rcp_diffusion_length_range (albedo : R) :
  0.005 <= albedo ->
  0.04 <= compute_rcp_diffusion_length albedo <= 1
  /\ (albedo < 0.56 -> 0.88 <= compute_rcp_diffusion_length albedo)
  /\ (0.56 <= albedo -> compute_rcp_diffusion_length albedo <= 0.95).
Proof.
  intros Hpos. unfold compute_rcp_diffusion_length.
  assert (Hclamp : 0 < clamp albedo 0.0 0.999 <= 0.999
                   /\ (albedo < 0.56 -> clamp albedo 0.0 0.999 = albedo)
                   /\ (0.56 <= albedo -> 0.56 <= clamp albedo 0.0 0.999)).
  { unfold clamp. destruct (Rlt_dec albedo 0.0); [lra|].
    destruct (Rlt_dec 0.999 albedo); repeat split; intros; lra. }
  destruct Hclamp as (Hrange & Hlow & Hhigh).
  set (a := clamp albedo 0.0 0.999) in *.
  unfold Rltb. destruct (Rlt_dec a 0.56) as [Hlt|Hge].
  - pose proof (compute_rcp_diffusion_length_low_albedo_range a ltac:(lra)) as H.
    repeat split; intros; lra.
  - pose proof (compute_rcp_diffusion_length_high_albedo_range a ltac:(lra)) as H.
    repeat split; intros; lra.
Qed.

(** X3 at the albedo [0.5]. *)
Lemma compute_rcp_diffusion_length_range_witness :
  0.04 <= compute_rcp_diffusion_length 0.5 <= 1
  /\ (0.5 < 0.56 -> 0.88 <= compute_rcp_diffusion_length 0.5)
  /\ (0.56 <= 0.5 -> compute_rcp_diffusion_length 0.5 <= 0.95).
Proof.
  apply (compute_rcp_diffusion_length_range 0.5). lra.
Defined.

(* ------------------------------------------------------------------ *)
(** ** The albedo of the clamped reflectances *)

(** X4. On the clamped reflectances [[0.001, 0.999]] the albedo computed by
    [albedo_from_reflectance] lies in [[0.005, 0.9989]]: the clamp
    [[0, 0.999]] of [compute_rcp_diffusion_length] leaves it alone, and the
    reciprocal [1 / albedo] that its low-albedo branch exponentiates is at
    most [200]. *)
Theorem albedo_from_reflectance_clamped_range (r : R) :
  0.001 <= r <= 0.999 ->
  0.005 <= albedo_from_reflectance r <= 0.9989
  /\ clamp (albedo_from_reflectance r) 0.0 0.999 = albedo_from_reflectance r
  /\ 0 < rcp (albedo_from_reflectance r) <= 200.
Proof.
  intros [Hlo Hhi].
  assert (Hrange : 0.005 <= albedo_from_reflectance r <= 0.9989).
  { rewrite albedo_from_reflectance_eq.
    assert (Hup : albedo_exponent r <= - 0.00509).
    { assert (albedo_exponent r <= albedo_exponent 0.001).
      { destruct (Req_dec r 0.001) as [->|Hne]; [lra|].
        left; apply albedo_exponent_decreasing; lra. }
      assert (albedo_exponent 0.001 <= - 0.00509) by (unfold albedo_exponent; lra).
      lra. }
    assert (Hdown : - 6.7875 <= albedo_exponent r).
    { assert (albedo_exponent 0.999 <= albedo_exponent r).
      { destruct (Req_dec r 0.999) as [->|Hne]; [lra|].
        left; apply albedo_exponent_decreasing; lra. }
      assert (- 6.7875 <= albedo_exponent 0.999) by (unfold albedo_exponent; lra).
      lra. }
    assert (He1 : exp (- 6.7875) <= exp (albedo_exponent r)).
    { destruct Hdown as [Hlt|Heq]; [left; apply exp_increasing; exact Hlt|].
      rewrite Heq; lra. }
    assert (He2 : exp (albedo_exponent r) * 1.00509 <= 1).
    { pose proof (exp_ineq1 (- albedo_exponent r) ltac:(lra)) as Hinv.
      pose proof (exp_pos (albedo_exponent r)) as Hp.
      assert (Hone : exp (albedo_exponent r) * exp (- albedo_exponent r) = 1).
      { rewrite <- exp_plus.
        replace (albedo_exponent r + - albedo_exponent r) with 0 by lra.
        apply exp_0. }
      nra. }
    pose proof exp_lower_bound. split; lra. }
  split; [exact Hrange|]. split.
  - apply clamp_inside; lra.
  - unfold rcp. split.
    + apply Rdiv_lt_0_compat; lra.
    + apply (Rmult_le_reg_r (albedo_from_reflectance r)); [lra|].
      replace (1 / albedo_from_reflectance r * albedo_from_reflectance r)
        with 1 by (field; lra).
      lra.
Qed.

(** X4 at the reflectance [0.5]. *)
Lemma albedo_from_reflectance_clamped_range_witness :
  0.005 <= albedo_from_reflectance 0.5 <= 0.9989
  /\ clamp (albedo_from_reflectance 0.5) 0.0 0.999 = albedo_from_reflectance 0.5
  /\ 0 < rcp (albedo_from_reflectance 0.5) <= 200.
Proof.
  apply (albedo_from_reflectance_clamped_range 0.5). lra.
Defined.


(* ------------------------------------------------------------------ *)
(** ** The probability of classical sampling *)

(** X5. [compute_classical_sampling_probability] never returns less than
    [0.1], depends only on the magnitude of the anisotropy, grows with it, and
    is a probability (at most 1) for anisotropies in [[-1, 1]]. *)
Theorem compute_classical_sampling_probability_range (g1 g2 : R) :
  0.1 <= compute_classical_sampling_probability g1
  /\ compute_classical_sampling_probability (- g1)
     = compute_classical_sampling_probability g1
  /\ (Rabs g1 <= 1 -> compute_classical_sampling_probability g1 <= 1)
  /\ (Rabs g1 <= Rabs g2 ->
      compute_classical_sampling_probability g1
      <= compute_classical_sampling_probability g2).
Proof.
  unfold compute_classical_sampling_probability.
  pose proof (Rabs_pos g1) as H1. pose proof (Rabs_pos g2) as H2.
  split; [apply fmax_ge_left|]. split; [rewrite Rabs_Ropp; reflexivity|].
  split.
  - intros Hle. unfold fmax.
    destruct (Rlt_dec 0.1 (Rabs g1 ^ 3)); [|lra].
    rewrite <- (pow1 3). apply pow_incr; lra.
  - intros Hle.
    assert (Hpow : Rabs g1 ^ 3 <= Rabs g2 ^ 3) by (apply pow_incr; lra).
    unfold fmax.
    destruct (Rlt_dec 0.1 (Rabs g1 ^ 3)), (Rlt_dec 0.1 (Rabs g2 ^ 3)); lra.
Qed.

(* ------------------------------------------------------------------ *)
(** ** What [prepare_inputs] guarantees *)

Lemma spectrum_ext (a b : Spectrum) :
  length a = length b ->
  (forall i, (i < length a)%nat -> spectrum_get a i = spectrum_get b i) ->
  a = b.
Proof.
  intros Hlen H. apply (nth_ext a b 0 0 Hlen). exact H.
Qed.

Lemma clamp_idempotent (x low high : R) :
  low <= high -> clamp (clamp x low high) low high = clamp x low high.
Proof.
  intros H. apply clamp_inside, clamp_range, H.
Qed.

Lemma clamp_low_idempotent (x low : R) :
  clamp_low (clamp_low x low) low = clamp_low x low.
Proof.
  unfold clamp_low. destruct (Rlt_dec x low) as [H|H].
  - destruct (Rlt_dec low low); [lra | reflexivity].
  - destruct (Rlt_dec x low); [contradiction | reflexivity].
Qed.

Section PreparedInputs.

Context {E : Environment}.

(** The output of [prepare_inputs], channel by channel, in terms of the
    reflectance and mean free path it stores. *)
Lemma prepare_inputs_channels (values : RandomWalkBSSRDFInputValues) :
  well_formed (m_reflectance values) ->
  well_formed (m_mfp values) ->
  well_formed (m_albedo (m_precomputed values)) ->
  well_formed (m_extinction (m_precomputed values)) ->
  well_formed (m_scattering (m_precomputed values)) ->
  well_formed (m_rcp_diffusion_length (m_precomputed values)) ->
  let out := prepare_inputs values in
  (well_formed (m_reflectance out)
   /\ well_formed (m_mfp out)
   /\ well_formed (m_albedo (m_precomputed out))
   /\ well_formed (m_extinction (m_precomputed out))
   /\ well_formed (m_scattering (m_precomputed out))
   /\ well_formed (m_rcp_diffusion_length (m_precomputed out)))
  /\ forall i, (i < Spectrum_size)%nat ->
       let r := spectrum_get (m_reflectance out) i in
       let m := spectrum_get (m_mfp out) i in
       r = clamp (spectrum_get (m_reflectance values) i * m_reflectance_multiplier values)
             0.001 0.999
       /\ m = clamp_low (spectrum_get (m_mfp values) i * m_mfp_multiplier values) 1.0e-6
       /\ spectrum_get (m_albedo (m_precomputed out)) i = channel_albedo r
       /\ spectrum_get (m_extinction (m_precomputed out)) i = channel_extinction r m
       /\ spectrum_get (m_scattering (m_precomputed out)) i
          = channel_albedo r * channel_extinction r m
       /\ spectrum_get (m_rcp_diffusion_length (m_precomputed out)) i = channel_kappa r.
Proof.
  intros Hr Hm Ha He Hs Hk out.
  unfold well_formed in *.
  set (refl := clamp_in_place
                 (spectrum_scale (m_reflectance values) (m_reflectance_multiplier values))
                 0.001 0.999).
  set (mfps := clamp_low_in_place
                 (spectrum_scale (m_mfp values) (m_mfp_multiplier values)) 1.0e-6).
  assert (Hlr : length refl = Spectrum_size)
    by (unfold refl, clamp_in_place, spectrum_scale; rewrite !length_map; exact Hr).
  assert (Hlm : length mfps = Spectrum_size)
    by (unfold mfps, clamp_low_in_place, spectrum_scale; rewrite !length_map; exact Hm).
  destruct (prepare_inputs_loop_spec refl mfps Spectrum_size 0 (m_precomputed values))
    as ((L1 & L2 & L3 & L4) & _ & Hnew); try lia.
  subst out; unfold prepare_inputs; cbn [m_reflectance m_mfp m_precomputed].
  fold refl mfps.
  split; [repeat split; congruence|].
  intros i Hi.
  destruct (Hnew i ltac:(lia)) as (A & B & C & D).
  split.
  { subst refl; unfold clamp_in_place, spectrum_scale.
    rewrite !spectrum_get_map by (rewrite ?length_map; lia). reflexivity. }
  split.
  { subst mfps; unfold clamp_low_in_place, spectrum_scale.
    rewrite !spectrum_get_map by (rewrite ?length_map; lia). reflexivity. }
  repeat split; assumption.
Qed.

(** The ranges of the optical properties [prepare_inputs] computes. *)
Lemma prepare_inputs_valid (values : RandomWalkBSSRDFInputValues) :
  well_formed (m_reflectance values) ->
  well_formed (m_mfp values) ->
  well_formed (m_albedo (m_precomputed values)) ->
  well_formed (m_extinction (m_precomputed values)) ->
  well_formed (m_scattering (m_precomputed values)) ->
  well_formed (m_rcp_diffusion_length (m_precomputed values)) ->
  (forall r, 0.001 <= r <= 0.999 -> 0 < normalized_diffusion_s_mfp r) ->
  let out := prepare_inputs values in
  optical_properties_valid out
  /\ forall i, (i < Spectrum_size)%nat ->
       0 < spectrum_get (m_albedo (m_precomputed out)) i < 0.999
       /\ 0 < spectrum_get (m_extinction (m_precomputed out)) i
       /\ 0 < spectrum_get (m_scattering (m_precomputed out)) i
            < spectrum_get (m_extinction (m_precomputed out)) i
       /\ 0 < spectrum_get (m_rcp_diffusion_length (m_precomputed out)) i <= 0.99.
Proof.
  intros Hr Hm Ha He Hs Hk Hshape out.
  destruct (prepare_inputs_channels values Hr Hm Ha He Hs Hk)
    as ((_ & _ & Wa & _ & _ & _) & Hch).
  fold out in Wa, Hch.
  assert (Hall : forall i, (i < Spectrum_size)%nat ->
       0 < spectrum_get (m_albedo (m_precomputed out)) i < 0.999
       /\ 0 < spectrum_get (m_extinction (m_precomputed out)) i
       /\ 0 < spectrum_get (m_scattering (m_precomputed out)) i
            < spectrum_get (m_extinction (m_precomputed out)) i
       /\ 0 < spectrum_get (m_rcp_diffusion_length (m_precomputed out)) i <= 0.99).
  { intros i Hi. destruct (Hch i Hi) as (Hri & Hmi & A & B & C & D).
    set (r := spectrum_get (m_reflectance out) i) in *.
    set (m := spectrum_get (m_mfp out) i) in *.
    assert (Hrange : 0.001 <= r <= 0.999) by (rewrite Hri; apply clamp_range; lra).
    assert (Hmfp : 1.0e-6 <= m) by (rewrite Hmi; apply clamp_low_lower).
    pose proof (albedo_from_reflectance_range r Hrange) as Hal.
    pose proof (Hshape r Hrange) as Hsh.
    assert (Hext : 0 < channel_extinction r m).
    { unfold channel_extinction, rcp. apply Rdiv_lt_0_compat; [lra|].
      apply Rmult_lt_0_compat; lra. }
    rewrite A, B, C, D. unfold channel_albedo.
    split; [exact Hal|]. split; [exact Hext|].
    split; [split; nra|].
    unfold channel_kappa.
    assert (Hk0 : 0 < compute_rcp_diffusion_length (albedo_from_reflectance r) < 1).
    { unfold compute_rcp_diffusion_length.
      rewrite clamp_inside by lra. unfold Rltb.
      destruct (Rlt_dec (albedo_from_reflectance r) 0.56).
      - pose proof (compute_rcp_diffusion_length_low_albedo_range
                      (albedo_from_reflectance r) ltac:(lra)). lra.
      - pose proof (compute_rcp_diffusion_length_high_albedo_range
                      (albedo_from_reflectance r) ltac:(lra)). lra. }
    unfold fmin. destruct (Rlt_dec 0.99 _); lra. }
  split; [|exact Hall].
  constructor.
  - exact Wa.
  - intros i Hi. apply (Hall i Hi).
  - intros i Hi. apply (Hall i Hi).
  - intros i Hi. destruct (Hall i Hi) as (_ & _ & _ & H). lra.
Qed.

(** X6. Whatever the inputs, [prepare_inputs] leaves optical properties the
    walk can use: in every channel the albedo lies in [(0, 0.999)], the
    extinction is positive, the scattering coefficient lies strictly between 0
    and the extinction, and the reciprocal diffusion length lies in
    [(0, 0.99]].  The only assumption is that the normalized-diffusion shape
    parameter [s] is positive on the clamped reflectances. *)
Theorem prepare_inputs_establishes_valid_properties
    (values : RandomWalkBSSRDFInputValues) :
  well_formed (m_reflectance values) ->
  well_formed (m_mfp values) ->
  well_formed (m_albedo (m_precomputed values)) ->
  well_formed (m_extinction (m_precomputed values)) ->
  well_formed (m_scattering (m_precomputed values)) ->
  well_formed (m_rcp_diffusion_length (m_precomputed values)) ->
  (forall r, 0.001 <= r <= 0.999 -> 0 < normalized_diffusion_s_mfp r) ->
  let out := prepare_inputs values in
  optical_properties_valid out
  /\ forall i, (i < Spectrum_size)%nat ->
       0 < spectrum_get (m_albedo (m_precomputed out)) i < 0.999
       /\ 0 < spectrum_get (m_extinction (m_precomputed out)) i
       /\ 0 < spectrum_get (m_scattering (m_precomputed out)) i
            < spectrum_get (m_extinction (m_precomputed out)) i
       /\ 0 < spectrum_get (m_rcp_diffusion_length (m_precomputed out)) i <= 0.99.
Proof.
  intros Hr Hm Ha He Hs Hk Hshape.
  exact (prepare_inputs_valid values Hr Hm Ha He Hs Hk Hshape).
Qed.

(** X7. With unit multipliers, preparing already prepared inputs changes
    nothing: the clamps are idempotent and the precomputed block is recomputed
    from the stored reflectance and mean free path alone, whatever it held
    before. *)
Theorem prepare_inputs_idempotent (values : RandomWalkBSSRDFInputValues) :
  well_formed (m_reflectance values) ->
  well_formed (m_mfp values) ->
  well_formed (m_albedo (m_precomputed values)) ->
  well_formed (m_extinction (m_precomputed values)) ->
  well_formed (m_scattering (m_precomputed values)) ->
  well_formed (m_rcp_diffusion_length (m_precomputed values)) ->
  m_reflectance_multiplier values = 1 ->
  m_mfp_multiplier values = 1 ->
  prepare_inputs (prepare_inputs values) = prepare_inputs values.
Proof.
  intros Hr Hm Ha He Hs Hk Hmr Hmm.
  destruct (prepare_inputs_channels values Hr Hm Ha He Hs Hk)
    as ((Wr & Wm & Wa & We & Ws & Wk) & Hch).
  destruct (prepare_inputs_channels (prepare_inputs values) Wr Wm Wa We Ws Wk)
    as ((Wr2 & Wm2 & Wa2 & We2 & Ws2 & Wk2) & Hch2).
  set (v1 := prepare_inputs values) in *.
  set (v2 := prepare_inputs v1) in *.
  assert (Hm1 : m_reflectance_multiplier v1 = 1) by exact Hmr.
  assert (Hm2 : m_mfp_multiplier v1 = 1) by exact Hmm.
  unfold well_formed in *.
  assert (Hrefl : m_reflectance v2 = m_reflectance v1).
  { apply spectrum_ext; [congruence|]. intros i Hi.
    destruct (Hch i ltac:(lia)) as (R1 & _). destruct (Hch2 i ltac:(lia)) as (R2 & _).
    rewrite R2, Hm1, Rmult_1_r, R1. apply clamp_idempotent; lra. }
  assert (Hmfp : m_mfp v2 = m_mfp v1).
  { apply spectrum_ext; [congruence|]. intros i Hi.
    destruct (Hch i ltac:(lia)) as (_ & M1 & _).
    destruct (Hch2 i ltac:(lia)) as (_ & M2 & _).
    rewrite M2, Hm2, Rmult_1_r, M1. apply clamp_low_idempotent. }
  assert (Hpre : m_precomputed v2 = m_precomputed v1).
  { assert (Hfields :
        m_albedo (m_precomputed v2) = m_albedo (m_precomputed v1)
        /\ m_extinction (m_precomputed v2) = m_extinction (m_precomputed v1)
        /\ m_scattering (m_precomputed v2) = m_scattering (m_precomputed v1)
        /\ m_rcp_diffusion_length (m_precomputed v2)
           = m_rcp_diffusion_length (m_precomputed v1)).
    { repeat split; (apply spectrum_ext; [congruence|]); intros i Hi;
        destruct (Hch i ltac:(lia)) as (_ & _ & A1 & B1 & C1 & D1);
        destruct (Hch2 i ltac:(lia)) as (_ & _ & A2 & B2 & C2 & D2);
        rewrite Hrefl, Hmfp in *; congruence. }
    destruct (m_precomputed v2), (m_precomputed v1); cbn in Hfields.
    destruct Hfields as (-> & -> & -> & ->). reflexivity. }
  assert (Hrest : m_weight v2 = m_weight v1
                  /\ m_reflectance_multiplier v2 = m_reflectance_multiplier v1
                  /\ m_mfp_multiplier v2 = m_mfp_multiplier v1
                  /\ m_ior v2 = m_ior v1
                  /\ m_fresnel_weight v2 = m_fresnel_weight v1
                  /\ m_zero_scattering_weight v2 = m_zero_scattering_weight v1
                  /\ m_single_scattering_weight v2 = m_single_scattering_weight v1
                  /\ m_multiple_scattering_weight v2 = m_multiple_scattering_weight v1)
    by (repeat split; reflexivity).
  destruct v2, v1; cbn in *.
  destruct Hrest as (-> & -> & -> & -> & -> & -> & -> & ->).
  rewrite Hrefl, Hmfp, Hpre. reflexivity.
Qed.

End PreparedInputs.

(* ------------------------------------------------------------------ *)
(** ** What a passed Russian roulette does to the throughput *)

Lemma fmax_div (a b p : R) : 0 < p -> fmax (a / p) (b / p) = fmax a b / p.
Proof.
  intros Hp. pose proof (Rinv_0_lt_compat p Hp) as Hi.
  unfold fmax, Rdiv.
  destruct (Rlt_dec (a * / p) (b * / p)), (Rlt_dec a b); try reflexivity;
    exfalso; nra.
Qed.

Lemma max_value_div (s : Spectrum) (p : R) :
  0 < p -> s <> [] -> max_value (spectrum_div s p) = max_value s / p.
Proof.
  intros Hp. unfold spectrum_div.
  induction s as [|x t IH]; intros Hne; [contradiction|].
  destruct t as [|y t']; [reflexivity|].
  change (max_value (map (fun x0 => x0 / p) (x :: y :: t')))
    with (fmax (x / p) (max_value (map (fun x0 => x0 / p) (y :: t')))).
  rewrite IH by discriminate.
  change (max_value (x :: y :: t')) with (fmax x (max_value (y :: t'))).
  apply fmax_div; exact Hp.
Qed.

Section Renormalization.

Context {E : Environment}.

(** X8. When the Russian roulette lets a walk continue, it rescales the
    throughput so that its largest channel is at least 1: exactly 1 when the
    largest channel was at most [0.99], and the old value divided by [0.99]
    otherwise.  The variate is assumed not to be negative. *)
Theorem test_rr_renormalizes (sc sc1 : SamplingContext) (bs bs1 : BSSRDFSample) :
  0 <= fst (next2_float (split_in_place 1 1 sc)) ->
  m_value bs <> [] ->
  test_rr sc bs = (true, sc1, bs1) ->
  let largest := max_value (m_value bs) in
  0 < largest
  /\ max_value (m_value bs1) = largest / Rmin largest 0.99
  /\ 1 <= max_value (m_value bs1)
  /\ (largest <= 0.99 -> max_value (m_value bs1) = 1)
  /\ (0.99 <= largest -> m_value bs1 = spectrum_div (m_value bs) 0.99).
Proof.
  intros Hs Hne H largest. unfold test_rr in H.
  destruct (next2_float (split_in_place 1 1 sc)) as [s sc'] eqn:Hdraw.
  cbn [fst] in Hs. unfold pass_rr in H.
  destruct (Rltb s (scattering_prob (m_value bs))) eqn:Hpass; cbn [negb] in H;
    [|discriminate].
  apply Rltb_true in Hpass. inversion H; subst sc1 bs1; clear H. cbn [m_value].
  unfold scattering_prob in *. rewrite fmin_is_Rmin in *. fold largest in Hpass |- *.
  assert (Hp : 0 < Rmin largest 0.99) by lra.
  assert (Hl : 0 < largest).
  { unfold Rmin in Hp. destruct (Rle_dec largest 0.99); lra. }
  rewrite max_value_div by assumption. fold largest.
  split; [exact Hl|]. split; [reflexivity|].
  unfold Rmin. destruct (Rle_dec largest 0.99) as [Hle|Hgt].
  - assert (Hone : largest / largest = 1) by (field; lra).
    rewrite Hone. repeat split; intros; try lra.
    replace largest with 0.99 by lra. reflexivity.
  - assert (Hinv : 0 < / 0.99) by (apply Rinv_0_lt_compat; lra).
    unfold Rdiv. repeat split; intros; try lra; reflexivity.
Qed.

End Renormalization.

(* ------------------------------------------------------------------ *)
(** ** How a walk can end *)

Section WalkOutcome.

Context {E : Environment}.

(** The loop body touches only the value and the incoming point of the
    BSSRDF sample. *)
Lemma test_rr_keeps_sample_fields (sc sc1 : SamplingContext) (bs bs1 : BSSRDFSample)
    (passed : bool) :
  test_rr sc bs = (passed, sc1, bs1) ->
  m_probability bs1 = m_probability bs
  /\ m_has_brdf bs1 = m_has_brdf bs
  /\ m_incoming_point bs1 = m_incoming_point bs.
Proof.
  unfold test_rr. destruct (next2_float (split_in_place 1 1 sc)) as [s sc'].
  destruct (negb (pass_rr (scattering_prob (m_value bs)) s));
    intros H; inversion H; subst; repeat split; reflexivity.
Qed.

Lemma loop_body_keeps_sample_fields (values : RandomWalkBSSRDFInputValues)
    (c : WalkConstants) (st st' : LoopState) (it : Iteration) :
  loop_body values c st = Stepped it st' ->
  m_probability (bssrdf_sample st') = m_probability (bssrdf_sample st)
  /\ m_has_brdf (bssrdf_sample st') = m_has_brdf (bssrdf_sample st).
Proof.
  intros H. unfold loop_body in H.
  destruct (MaxIterationsCount <? S (n_iteration st))%nat; [discriminate|].
  destruct (if (MinRRIteration <? S (n_iteration st))%nat
            then test_rr (sampling_context st) (bssrdf_sample st)
            else (true, sampling_context st, bssrdf_sample st))
    as [[passed sc1] bs1] eqn:Hrr.
  assert (Hbs1 : m_probability bs1 = m_probability (bssrdf_sample st)
                 /\ m_has_brdf bs1 = m_has_brdf (bssrdf_sample st)).
  { destruct (MinRRIteration <? S (n_iteration st))%nat.
    - apply test_rr_keeps_sample_fields in Hrr. tauto.
    - inversion Hrr; subst; split; reflexivity. }
  destruct passed; [|discriminate]. cbn [negb] in H. cbv iota in H.
  destruct (build_cdf_and_pdf (m_value bs1)) as [cdf pdf].
  destruct (next2_float (split_in_place 1 2 sc1)) as [s_channel sc2].
  destruct (Reqb _ 0.0 || Reqb _ 0.0); [discriminate|].
  destruct (next2_float sc2) as [s_biased sc3].
  destruct (next2_vector2 (split_in_place 2 1 sc3)) as [s_direction sc4].
  destruct (next2_float (split_in_place 1 1 sc4)) as [s_distance sc5].
  match type of H with
  | context [compute_transmission_classical_sampling ?d ?e ?p ?t ?tr] =>
      destruct (compute_transmission_classical_sampling d e p t tr)
        as [mis_classical transmission]
  end.
  inversion H; subst it st'; clear H; cbn. exact Hbs1.
Qed.

(** The bookkeeping of the walk, at every loop head. *)
Lemma walk_reaches_bookkeeping (values : RandomWalkBSSRDFInputValues)
    (sc : SamplingContext) (outgoing_point : ShadingPoint) (bs : BSSRDFSample)
    (c : WalkConstants) (st0 st : LoopState) :
  sample_initial values sc outgoing_point bs = Some (c, st0) ->
  walk_reaches values c st0 st ->
  (n_iteration st <= MaxIterationsCount)%nat
  /\ m_depth (ray st) = (S (get_ray_depth outgoing_point) + n_iteration st)%nat
  /\ m_time (ray st) = get_time outgoing_point
  /\ m_flags (ray st) = ShadowRay
  /\ m_probability (bssrdf_sample st) = 1
  /\ m_has_brdf (bssrdf_sample st) = m_has_brdf bs
  /\ m_incoming_point (bssrdf_sample st)
     = trace (ray st)
         (if (n_iteration st =? 0)%nat then Some outgoing_point else None)
  /\ (if (n_iteration st =? 0)%nat
      then is_valid (m_incoming_point (bssrdf_sample st)) = true
           /\ m_tmax (ray st) = None
      else transmitted st = hit_surface (m_incoming_point (bssrdf_sample st))
           /\ exists distance, m_tmax (ray st) = Some distance).
Proof.
  intros Hinit Hreach.
  destruct (sample_initial_some _ _ _ _ _ _ Hinit)
    as (cdf & pdf & s_channel & s_distance & Hn0 & Hvalid & _ & _ & _ & _
        & _ & _ & _ & _ & _ & _ & Htrace & Hdraws).
  cbv zeta in Hvalid, Htrace, Hdraws.
  destruct Hdraws as (_ & _ & _ & Hray & _ & Htime).
  assert (Hp0 : m_probability (bssrdf_sample st0) = 1
                /\ m_has_brdf (bssrdf_sample st0) = m_has_brdf bs).
  { clear - Hinit. unfold sample_initial in Hinit.
    repeat match type of Hinit with
           | context [match ?p with pair _ _ => _ end] => destruct p
           | context [if ?b then _ else _] => destruct b
           end; try discriminate;
      inversion Hinit; subst; cbn; (split; [lra | reflexivity]). }
  induction Hreach as [|st st' it Hreach IH Ht Hbody].
  - rewrite Hn0. cbn [Nat.eqb]. rewrite Nat.add_0_r.
    split; [unfold MaxIterationsCount; lia|].
    rewrite Hray at 1 2 3; cbn [m_depth m_time m_flags].
    repeat (split; [first [reflexivity | tauto | exact Htrace]|]).
    rewrite Hray; reflexivity.
  - destruct IH as (_ & Hdepth & _ & _ & Hprob & Hbrdf & _).
    destruct (loop_body_stepped _ _ _ _ _ Hbody)
      as (sc1 & bs1 & cdf' & s_ch & s_b & s_d & s_dir & Hmax & Hn' & Hrr & _ & _
          & _ & _ & _ & _ & _ & _ & _ & _ & Hray' & Hip & Htr & Htr' & _).
    pose proof (loop_body_keeps_sample_fields _ _ _ _ _ Hbody) as Hkeep.
    rewrite Hn'. cbn [Nat.eqb].
    split; [exact Hmax|].
    rewrite Hray' at 1 2 3; cbn [m_depth m_time m_flags].
    split; [rewrite Hdepth; lia|]. split; [exact Htime|]. split; [reflexivity|].
    split; [rewrite (proj1 Hkeep); exact Hprob|].
    split; [rewrite (proj2 Hkeep); exact Hbrdf|].
    split; [exact Hip|].
    split; [rewrite Htr', Htr; reflexivity|].
    eexists. rewrite Hray'. reflexivity.
Qed.

(** X9. How [sample] can end, and when.  The walk is lost on the iteration
    cap only at iteration [MaxIterationsCount + 1 = 65]; the Russian roulette
    can end it only at iterations 9 to 64; the degenerate-channel check only
    at iterations 1 to 64; and a walk that leaves the loop does so after at
    most 64 iterations, with [transmitted] set. *)
Theorem random_walk_iteration_bounds (values : RandomWalkBSSRDFInputValues)
    (sc : SamplingContext) (outgoing_point : ShadingPoint) (bs : BSSRDFSample) :
  match random_walk values sc outgoing_point bs with
  | Escaped => sample_initial values sc outgoing_point bs = None
  | Lost n => n = S MaxIterationsCount
  | Terminated n => (MinRRIteration < n <= MaxIterationsCount)%nat
  | Degenerate n => (1 <= n <= MaxIterationsCount)%nat
  | Exited st => (n_iteration st <= MaxIterationsCount)%nat /\ transmitted st = true
  | OutOfFuel => False
  end.
Proof.
  unfold random_walk.
  destruct (sample_initial values sc outgoing_point bs) as [[c st0]|] eqn:Hinit;
    [|reflexivity].
  pose proof (walk_loop_trace values c st0 (S MaxIterationsCount) st0
                (reaches_start _ _ _)) as Htrace.
  pose proof (walk_loop_returns values c (S MaxIterationsCount) st0) as Hret.
  pose proof (sample_initial_starts _ _ _ _ _ _ Hinit) as Hn0.
  destruct (walk_loop (S MaxIterationsCount) values c st0) as [|n|n|n|st|] eqn:Hwalk.
  - destruct Htrace.
  - destruct Htrace as (st' & Hreach & _ & Hbody & ->).
    apply loop_body_lost_iterations in Hbody.
    destruct (walk_reaches_bookkeeping _ _ _ _ _ _ _ Hinit Hreach) as (Hle & _).
    lia.
  - destruct Htrace as (st' & _ & _ & Hbody & ->).
    apply loop_body_failed_rr in Hbody. tauto.
  - destruct Htrace as (st' & _ & _ & Hbody & ->).
    apply loop_body_lost_channel in Hbody. destruct Hbody as [Hle _]. lia.
  - destruct Htrace as (Hreach & Ht).
    destruct (walk_reaches_bookkeeping _ _ _ _ _ _ _ Hinit Hreach) as (Hle & _).
    split; assumption.
  - apply Hret; [rewrite Hn0; lia | rewrite Hn0; lia | reflexivity].
Qed.

End WalkOutcome.

(* ------------------------------------------------------------------ *)
(** ** The rays of the walk and the hand-over to the BRDF *)

Section Handoff.

Context {E : Environment}.

(** The pass that led to a loop head other than the first: the ray of the
    head is the one that pass built, from the point the walk stood at, along
    the sampled direction, bounded by the sampled distance. *)
Lemma walk_reaches_last_pass (values : RandomWalkBSSRDFInputValues)
    (sc : SamplingContext) (outgoing_point : ShadingPoint) (bs : BSSRDFSample)
    (c : WalkConstants) (st0 st : LoopState) :
  sample_initial values sc outgoing_point bs = Some (c, st0) ->
  walk_reaches values c st0 st ->
  n_iteration st <> O ->
  exists (previous : LoopState) (it : Iteration)
         (sc1 : SamplingContext) (bs1 : BSSRDFSample),
    walk_reaches values c st0 previous
    /\ transmitted previous = false
    /\ loop_body values c previous = Stepped it st
    /\ n_iteration st = S (n_iteration previous)
    /\ after_roulette previous = (true, sc1, bs1)
    /\ it_sampled_distance it
       = sample_exponential_distribution (pass_distance_variate sc1)
           (it_effective_extinction it)
    /\ m_tmax (ray st) = Some (it_sampled_distance it)
    /\ ray st
       = mkShadingRay (current_point previous) (it_incoming it)
           (get_time outgoing_point) ShadowRay
           (S (m_depth (ray previous))) (Some (it_sampled_distance it))
    /\ current_point st = point_at (ray st) (it_sampled_distance it).
Proof.
  intros Hinit Hreach Hn.
  destruct (sample_initial_some _ _ _ _ _ _ Hinit)
    as (cdf & pdf & s_channel & s_distance & Hn0 & _ & _ & _ & _ & _
        & _ & _ & _ & _ & _ & _ & _ & Hdraws).
  cbv zeta in Hdraws. destruct Hdraws as (_ & _ & _ & _ & _ & Htime).
  destruct Hreach as [|previous st it Hreach Ht Hbody]; [contradiction|].
  destruct (loop_body_pass _ _ _ _ _ Hbody)
    as (sc1 & bs1 & Hrr & _ & _ & _ & _ & _ & _ & Hsd & Hray & _ & _ & _ & _
        & _ & Hcur & _ & Hn').
  exists previous, it, sc1, bs1.
  split; [exact Hreach|]. split; [exact Ht|]. split; [exact Hbody|].
  split; [exact Hn'|]. split; [exact Hrr|]. split; [exact Hsd|].
  split; [rewrite Hray; reflexivity|].
  split; [rewrite Hray, Htime; reflexivity | exact Hcur].
Qed.

(** X10. At every loop head of a walk, and so at its exit, the ray is a
    shadow ray at the time of the outgoing point whose depth is the depth of
    the outgoing ray plus one per segment traced so far; the initial ray is
    unbounded; every later ray is the one the pass before built: it starts at
    the point the walk stood at, runs along the direction of that pass and is
    bounded by the distance that pass sampled from its exponential
    distribution; the hit record of the sample is the one [trace] filled for
    the ray; and the probability of the sample is still the 1 it was
    initialised to. *)
Theorem walk_ray_bookkeeping (values : RandomWalkBSSRDFInputValues)
    (sc : SamplingContext) (outgoing_point : ShadingPoint) (bs : BSSRDFSample)
    (c : WalkConstants) (st0 st : LoopState) :
  sample_initial values sc outgoing_point bs = Some (c, st0) ->
  walk_reaches values c st0 st ->
  m_depth (ray st) = (get_ray_depth outgoing_point + 1 + n_iteration st)%nat
  /\ m_time (ray st) = get_time outgoing_point
  /\ m_flags (ray st) = ShadowRay
  /\ (n_iteration st = O -> m_tmax (ray st) = None)
  /\ (n_iteration st <> O ->
      exists (previous : LoopState) (it : Iteration)
             (sc1 : SamplingContext) (bs1 : BSSRDFSample),
        walk_reaches values c st0 previous
        /\ transmitted previous = false
        /\ loop_body values c previous = Stepped it st
        /\ n_iteration st = S (n_iteration previous)
        /\ after_roulette previous = (true, sc1, bs1)
        /\ it_sampled_distance it
           = sample_exponential_distribution (pass_distance_variate sc1)
               (it_effective_extinction it)
        /\ m_tmax (ray st) = Some (it_sampled_distance it)
        /\ ray st
           = mkShadingRay (current_point previous) (it_incoming it)
               (get_time outgoing_point) ShadowRay
               (S (m_depth (ray previous))) (Some (it_sampled_distance it))
        /\ current_point st = point_at (ray st) (it_sampled_distance it))
  /\ m_incoming_point (bssrdf_sample st)
     = trace (ray st)
         (if (n_iteration st =? 0)%nat then Some outgoing_point else None)
  /\ m_probability (bssrdf_sample st) = 1.
Proof.
  intros Hinit Hreach.
  destruct (walk_reaches_bookkeeping _ _ _ _ _ _ _ Hinit Hreach)
    as (_ & Hdepth & Htime & Hflags & Hprob & _ & Hip & Hcase).
  split; [rewrite Hdepth; lia|]. split; [exact Htime|]. split; [exact Hflags|].
  split; [|split; [|split; [exact Hip | exact Hprob]]].
  - intros Hn. rewrite Hn in Hcase. cbn [Nat.eqb] in Hcase. tauto.
  - intros Hn. exact (walk_reaches_last_pass _ _ _ _ _ _ _ Hinit Hreach Hn).
Qed.

(** X11. When [sample] succeeds, the BSSRDF sample it returns has probability
    1 and its BRDF set; its incoming point is the flipped hit record of the
    last ray traced, which reached a surface; and the BSDF sample is the one
    the BRDF produced from the sampling context left by the walk, at that
    flipped point, with the geometric normal standing in for the outgoing
    direction. *)
Theorem sample_success_handoff (values : RandomWalkBSSRDFInputValues)
    (sc sc' : SamplingContext) (outgoing_point : ShadingPoint)
    (bs bs' : BSSRDFSample) (bsdf bsdf' : BSDFSample) :
  sample values sc outgoing_point bs bsdf = Some (sc', bs', bsdf') ->
  exists st : LoopState,
    let hit :=
      trace (ray st)
        (if (n_iteration st =? 0)%nat then Some outgoing_point else None) in
    random_walk values sc outgoing_point bs = Exited st
    /\ (if (n_iteration st =? 0)%nat
        then is_valid hit = true
        else hit_surface hit = true)
    /\ m_incoming_point bs' = flip_side hit
    /\ m_probability bs' = 1
    /\ m_has_brdf bs' = true
    /\ (sc', bsdf')
       = brdf_sample (sampling_context st) false true ScatteringModeAll
           {| m_shading_point := Some (flip_side hit);
              m_geometric_normal := get_geometric_normal (flip_side hit);
              m_shading_basis := get_shading_basis (flip_side hit);
              m_outgoing := get_geometric_normal (flip_side hit);
              m_incoming := m_incoming bsdf;
              m_bsdf_value := m_bsdf_value bsdf;
              m_bsdf_probability := m_bsdf_probability bsdf |}.
Proof.
  unfold sample, random_walk; intros H.
  destruct (sample_initial values sc outgoing_point bs) as [[c st0]|] eqn:Hinit;
    [|discriminate].
  pose proof (walk_loop_trace values c st0 (S MaxIterationsCount) st0
                (reaches_start _ _ _)) as Htrace.
  destruct (walk_loop (S MaxIterationsCount) values c st0) as [| | | |st|];
    try discriminate.
  destruct Htrace as (Hreach & Ht).
  destruct (walk_reaches_bookkeeping _ _ _ _ _ _ _ Hinit Hreach)
    as (_ & _ & _ & _ & Hprob & _ & Hip & Hcase).
  exists st. cbv zeta. split; [reflexivity|].
  rewrite <- Hip.
  split.
  { destruct (n_iteration st =? 0)%nat; [tauto|].
    destruct Hcase as [Hhit _]. rewrite <- Hhit. exact Ht. }
  unfold sample_exit in H.
  destruct (brdf_sample _ _ _ _ _) as [sc2 bsdf2] eqn:Hbrdf.
  inversion H; subst sc' bs' bsdf'; clear H. cbn.
  repeat (split; [first [reflexivity | exact Hprob]|]).
  rewrite <- Hbrdf. reflexivity.
Qed.

(** X12. When the three scattering-order weights lie in [[0, 1]], the hard
    limits of their inputs, every channel of the throughput returned by a
    successful [sample] lies in [[0, 2]], whether one weight or two were
    applied. *)
Theorem sample_value_bounded (values : RandomWalkBSSRDFInputValues)
    (sc sc' : SamplingContext) (outgoing_point : ShadingPoint)
    (bs bs' : BSSRDFSample) (bsdf bsdf' : BSDFSample) :
  0 <= m_zero_scattering_weight values <= 1 ->
  0 <= m_single_scattering_weight values <= 1 ->
  0 <= m_multiple_scattering_weight values <= 1 ->
  sample values sc outgoing_point bs bsdf = Some (sc', bs', bsdf') ->
  Forall (fun x => 0 <= x <= 2) (m_value bs').
Proof.
  intros Hz Hs Hm H. unfold sample in H.
  destruct (random_walk values sc outgoing_point bs) as [| | | |st|];
    try discriminate.
  unfold sample_exit in H.
  destruct (brdf_sample _ _ _ _ _) as [sc2 bsdf2].
  inversion H; subst sc' bs' bsdf'; clear H. cbn [m_value].
  assert (Hscale : forall (s : Spectrum) (w : R),
            0 <= w <= 1 -> Forall (fun x => 0 <= x <= 2) s ->
            Forall (fun x => 0 <= x <= 2) (spectrum_scale s w)).
  { intros s w Hw Hall. unfold spectrum_scale. apply Forall_map.
    eapply Forall_impl; [|exact Hall]. cbn. intros x Hx. nra. }
  assert (Hclamped : Forall (fun x => 0 <= x <= 2) (post_walk_value st)).
  { unfold post_walk_value.
    pose proof (clamp_in_place_range (m_value (bssrdf_sample st)) 0.0 2.0) as Hc.
    eapply Forall_impl; [|apply Hc; lra]. cbn; intros; lra. }
  unfold apply_scattering_weights.
  destruct (n_iteration st =? 1)%nat, (n_iteration st =? 2)%nat;
    repeat apply Hscale; assumption.
Qed.

End Handoff.

(* ------------------------------------------------------------------ *)
(** ** The densities and the throughput of the walk are not negative *)

Lemma sum_channels_ext (n : nat) (f g : nat -> R) :
  (forall i, (i < n)%nat -> f i = g i) -> sum_channels n f = sum_channels n g.
Proof.
  induction n as [|n IH]; intros H; simpl; [reflexivity|].
  rewrite IH, H; auto.
Qed.

Lemma sum_channels_scale (n : nat) (f : nat -> R) (k : R) :
  sum_channels n (fun i => f i * k) = sum_channels n f * k.
Proof.
  induction n as [|n IH]; simpl; [lra|]. rewrite IH. lra.
Qed.

Lemma sum_channels_le (n : nat) (f g : nat -> R) :
  (forall i, (i < n)%nat -> f i <= g i) -> sum_channels n f <= sum_channels n g.
Proof.
  induction n as [|n IH]; intros H; simpl; [lra|].
  assert (sum_channels n f <= sum_channels n g) by (apply IH; intros; apply H; lia).
  assert (f n <= g n) by (apply H; lia). lra.
Qed.

Section Positivity.

Context {E : Environment}.

(** The densities of one pass through the loop body. *)
Lemma loop_body_densities (values : RandomWalkBSSRDFInputValues)
    (c : WalkConstants) (st st' : LoopState) (it : Iteration) :
  environment_contract ->
  optical_properties_valid values ->
  walk_constants_valid c ->
  throughput_nonneg (m_value (bssrdf_sample st)) ->
  loop_body values c st = Stepped it st' ->
  - 1 <= it_cosine it <= 1
  /\ 0 <= it_mis_dwivedi_near it
  /\ 0 <= it_mis_dwivedi_far it
  /\ 0 < it_mis_classical it
  /\ 0 < mix (mix (it_mis_dwivedi_far it) (it_mis_dwivedi_near it)
                (bias_strategy_prob c))
             (it_mis_classical it) classical_sampling_prob.
Proof.
  intros Henv Hopt (Hbias & Hslab & Hnear & Hfar) Hinv Hbody.
  pose proof (loop_segment_mis_correction_step values c st st' it Hbody) as Hmis.
  destruct (loop_body_stepped _ _ _ _ _ Hbody)
    as (sc1 & bs1 & cdf & s_ch & s_b & s_d & s_dir & _ & _ & Hrr & Hcdf & Hch
        & _ & Hvalne & _ & Hinc & _ & Hcos & _).
  assert (Hinv1 : throughput_nonneg (m_value bs1)).
  { destruct (MinRRIteration <? S (n_iteration st))%nat.
    - destruct (test_rr_passed _ _ _ _ Henv Hrr) as (Hp & Hv).
      rewrite Hv; apply spectrum_div_nonneg; assumption.
    - inversion Hrr; subst; exact Hinv. }
  destruct Hinv1 as [Hwf1 Hnn1].
  assert (Hchr : (it_channel it < Spectrum_size)%nat)
    by (rewrite Hch; apply (channel_in_range Henv)).
  assert (Hpdf : forall i, (i < Spectrum_size)%nat ->
                   0 <= spectrum_get (it_channel_pdf it) i).
  { intros i Hi. pose proof (pdf_nonneg Henv _ i Hwf1 Hnn1 Hi) as H.
    rewrite Hcdf in H; exact H. }
  assert (Hv1 : 0 < spectrum_get (m_value bs1) (it_channel it)).
  { pose proof (Hnn1 _ Hchr). lra. }
  assert (Hpdfch : 0 < spectrum_get (it_channel_pdf it) (it_channel it)).
  { pose proof (pdf_positive Henv _ _ Hwf1 Hnn1 Hchr Hv1) as H.
    rewrite Hcdf in H; exact H. }
  assert (Hincn : is_normalized (it_incoming it)).
  { rewrite Hinc. destruct (it_is_biased it).
    - apply (dwivedi_direction_normalized Henv); exact Hslab.
    - apply (sphere_direction_normalized Henv). }
  pose proof (dot_normalized_bounds _ _ Hincn Hslab) as Hcosb.
  cbv zeta in Hmis. destruct Hmis as (Hn & Hf & Hc & _).
  assert (Hnear0 : 0 <= it_mis_dwivedi_near it)
    by (rewrite Hn; apply dwivedi_density_nonneg; auto).
  assert (Hfar0 : 0 <= it_mis_dwivedi_far it)
    by (rewrite Hf; apply dwivedi_density_nonneg; auto).
  assert (Hcl0 : 0 < it_mis_classical it).
  { rewrite Hc. apply (classical_density_positive values _ _ _ (it_channel it)); auto. }
  split; [rewrite Hcos; exact Hcosb|].
  repeat (split; [assumption|]).
  unfold mix, classical_sampling_prob.
  assert (0 <= it_mis_dwivedi_far it * (1 - bias_strategy_prob c))
    by (apply Rmult_le_pos; lra).
  assert (0 <= it_mis_dwivedi_near it * bias_strategy_prob c)
    by (apply Rmult_le_pos; lra).
  lra.
Qed.

(** At every loop head of a walk through a valid medium the constants are
    valid and the throughput is positive in every channel. *)
Lemma walk_reaches_positive (values : RandomWalkBSSRDFInputValues)
    (sc : SamplingContext) (outgoing_point : ShadingPoint) (bs : BSSRDFSample)
    (c : WalkConstants) (st0 st : LoopState) :
  environment_contract ->
  optical_properties_valid values ->
  is_normalized (get_geometric_normal outgoing_point) ->
  sample_initial values sc outgoing_point bs = Some (c, st0) ->
  walk_reaches values c st0 st ->
  walk_constants_valid c
  /\ well_formed (m_value (bssrdf_sample st))
  /\ forall i, (i < Spectrum_size)%nat ->
       0 < spectrum_get (m_value (bssrdf_sample st)) i.
Proof.
  intros Henv Hopt Hout Hinit Hreach.
  destruct (sample_initial_valid _ _ _ _ _ _ Henv Hopt Hout Hinit)
    as (Hc & Hwf0 & Hpos0).
  split; [exact Hc|].
  induction Hreach as [|st st' it Hreach IH Ht Hbody].
  - split; assumption.
  - destruct IH as [Hwf Hpos].
    assert (Hinv : throughput_nonneg (m_value (bssrdf_sample st)))
      by (split; [exact Hwf | intros i Hi; left; apply Hpos; exact Hi]).
    destruct (loop_body_keeps_throughput values c st st' it Henv Hopt Hc Hinv Hbody)
      as ((Hwf' & _) & _ & _ & Hkeep).
    split; [exact Hwf'|]. intros i Hi. apply Hkeep; [exact Hi | apply Hpos; exact Hi].
Qed.

(** X13. In a valid medium no density of the walk is negative: the MIS
    weight of the initial segment is not negative, the interpolation weight
    [bias_strategy_prob] lies in [[0, 1]], and on every pass through the loop
    body the cosine lies in [[-1, 1]], the two Dwivedi densities and the
    classical density are not negative, and the combined density whose
    reciprocal scales the throughput is at least the share
    [classical_sampling_prob] of the classical density. *)
Theorem mis_densities_nonnegative (values : RandomWalkBSSRDFInputValues)
    (sc : SamplingContext) (outgoing_point : ShadingPoint) (bs : BSSRDFSample)
    (c : WalkConstants) (st0 : LoopState) :
  environment_contract ->
  optical_properties_valid values ->
  is_normalized (get_geometric_normal outgoing_point) ->
  sample_initial values sc outgoing_point bs = Some (c, st0) ->
  0 <= fst (compute_transmission_classical_sampling
              (if transmitted st0 then ray_length c else initial_distance c)
              (m_extinction (m_precomputed values))
              (snd (build_cdf_and_pdf (spectrum_fill Spectrum_size 1.0)))
              (transmitted st0) (spectrum_fill Spectrum_size 1.0))
  /\ 0 <= bias_strategy_prob c <= 1
  /\ forall (st st' : LoopState) (it : Iteration),
       walk_reaches values c st0 st ->
       loop_body values c st = Stepped it st' ->
       - 1 <= it_cosine it <= 1
       /\ 0 <= it_mis_dwivedi_near it
       /\ 0 <= it_mis_dwivedi_far it
       /\ 0 <= it_mis_classical it
       /\ 0 <= mix (it_mis_dwivedi_far it) (it_mis_dwivedi_near it)
                 (bias_strategy_prob c)
       /\ classical_sampling_prob * it_mis_classical it
          <= mix (mix (it_mis_dwivedi_far it) (it_mis_dwivedi_near it)
                    (bias_strategy_prob c))
                 (it_mis_classical it) classical_sampling_prob.
Proof.
  intros Henv Hopt Hout Hinit.
  split; [|split].
  - destruct (sample_initial_some _ _ _ _ _ _ Hinit)
      as (cdf & pdf & s_channel & s_distance & _ & _ & Hcdf & Hch & _).
    rewrite Hcdf; cbn [snd].
    assert (Hfill : throughput_nonneg (spectrum_fill Spectrum_size 1.0)).
    { split; [unfold well_formed, spectrum_fill; apply repeat_length|].
      intros i Hi; rewrite spectrum_get_fill by exact Hi; lra. }
    assert (Hchr : (initial_channel c < Spectrum_size)%nat)
      by (rewrite Hch; apply (channel_in_range Henv)).
    destruct (compute_transmission_classical_sampling_spec
                (if transmitted st0 then ray_length c else initial_distance c)
                (m_extinction (m_precomputed values)) pdf (transmitted st0)
                (spectrum_fill Spectrum_size 1.0) (proj1 Hfill)) as (Hmis & _).
    rewrite Hmis. left.
    apply (classical_density_positive values _ _ _ (initial_channel c)); auto.
    + intros i Hi. pose proof (pdf_nonneg Henv _ i (proj1 Hfill) (proj2 Hfill) Hi) as H.
      rewrite Hcdf in H; exact H.
    + pose proof (pdf_positive Henv _ _ (proj1 Hfill) (proj2 Hfill) Hchr) as H.
      rewrite Hcdf in H; apply H. rewrite spectrum_get_fill by exact Hchr; lra.
  - destruct (sample_initial_valid _ _ _ _ _ _ Henv Hopt Hout Hinit) as ((H & _) & _).
    lra.
  - intros st st' it Hreach Hbody.
    destruct (walk_reaches_positive _ _ _ _ _ _ _ Henv Hopt Hout Hinit Hreach)
      as (Hc & Hwf & Hpos).
    destruct (loop_body_densities values c st st' it Henv Hopt Hc) as
      (Hcos & Hnear & Hfar & Hcl & _); [|exact Hbody|].
    { split; [exact Hwf | intros i Hi; left; apply Hpos; exact Hi]. }
    destruct Hc as (Hbias & _).
    assert (Hmix : 0 <= mix (it_mis_dwivedi_far it) (it_mis_dwivedi_near it)
                          (bias_strategy_prob c)).
    { unfold mix.
      assert (0 <= it_mis_dwivedi_far it * (1 - bias_strategy_prob c))
        by (apply Rmult_le_pos; lra).
      assert (0 <= it_mis_dwivedi_near it * bias_strategy_prob c)
        by (apply Rmult_le_pos; lra).
      lra. }
    split; [exact Hcos|]. split; [exact Hnear|]. split; [exact Hfar|].
    split; [lra|]. split; [exact Hmix|].
    revert Hmix. generalize (mix (it_mis_dwivedi_far it) (it_mis_dwivedi_near it)
                               (bias_strategy_prob c)).
    intros d Hd. unfold mix, classical_sampling_prob. lra.
Qed.

(** X14. The MIS weight of the initial segment normalises the throughput: in
    a valid medium, after the initial segment the channel-pdf-weighted sum of
    the throughput is exactly 1. *)
Theorem initial_segment_normalized (values : RandomWalkBSSRDFInputValues)
    (sc : SamplingContext) (outgoing_point : ShadingPoint) (bs : BSSRDFSample)
    (c : WalkConstants) (st0 : LoopState) :
  environment_contract ->
  optical_properties_valid values ->
  sample_initial values sc outgoing_point bs = Some (c, st0) ->
  sum_channels Spectrum_size
    (fun i => spectrum_get (m_value (bssrdf_sample st0)) i
              * spectrum_get
                  (snd (build_cdf_and_pdf (spectrum_fill Spectrum_size 1.0))) i)
  = 1.
Proof.
  intros Henv Hopt Hinit.
  destruct (sample_initial_some _ _ _ _ _ _ Hinit)
    as (cdf & pdf & s_channel & s_distance & _ & _ & Hcdf & Hch & _ & _
        & _ & Hval & _).
  rewrite Hcdf; cbn [snd].
  assert (Hfill : throughput_nonneg (spectrum_fill Spectrum_size 1.0)).
  { split; [unfold well_formed, spectrum_fill; apply repeat_length|].
    intros i Hi; rewrite spectrum_get_fill by exact Hi; lra. }
  assert (Hchr : (initial_channel c < Spectrum_size)%nat)
    by (rewrite Hch; apply (channel_in_range Henv)).
  pose proof (compute_transmission_classical_sampling_spec
                (if transmitted st0 then ray_length c else initial_distance c)
                (m_extinction (m_precomputed values)) pdf (transmitted st0)
                (spectrum_fill Spectrum_size 1.0) (proj1 Hfill)) as Hspec.
  cbv zeta in Hspec. cbv zeta in Hval.
  destruct (compute_transmission_classical_sampling _ _ _ _ _)
    as [mis_weight value]. cbn [fst snd] in Hspec.
  destruct Hspec as (Hmis & Hwf & Htr).
  assert (Hpos : 0 < mis_weight).
  { rewrite Hmis.
    apply (classical_density_positive values _ _ _ (initial_channel c)); auto.
    + intros i Hi. pose proof (pdf_nonneg Henv _ i (proj1 Hfill) (proj2 Hfill) Hi) as H.
      rewrite Hcdf in H; exact H.
    + pose proof (pdf_positive Henv _ _ (proj1 Hfill) (proj2 Hfill) Hchr) as H.
      rewrite Hcdf in H; apply H. rewrite spectrum_get_fill by exact Hchr; lra. }
  rewrite (sum_channels_ext _ _
             (fun i => classical_transmission
                         (if transmitted st0 then ray_length c else initial_distance c)
                         (m_extinction (m_precomputed values)) (transmitted st0) i
                       * spectrum_get pdf i * rcp mis_weight)).
  - rewrite sum_channels_scale. fold (classical_density_spec
        (if transmitted st0 then ray_length c else initial_distance c)
        (m_extinction (m_precomputed values)) pdf (transmitted st0)).
    rewrite <- Hmis. unfold rcp. field. lra.
  - intros i Hi. rewrite Hval. unfold spectrum_scale.
    rewrite spectrum_get_map by (unfold well_formed in Hwf; lia).
    rewrite Htr by exact Hi. unfold classical_transmission. lra.
Qed.

(** A channel that is not negative passes the lower end of the clamp. *)
Lemma clamp_in_place_nonneg (value : Spectrum) (high : R) :
  (forall i, (i < length value)%nat -> 0 <= spectrum_get value i) ->
  clamp_in_place value 0.0 high = map (fun x => fmin x high) value.
Proof.
  intros Hnn. unfold clamp_in_place. apply spectrum_ext.
  - rewrite !length_map; reflexivity.
  - rewrite length_map. intros i Hi. rewrite !spectrum_get_map by exact Hi.
    pose proof (Hnn i Hi) as H. unfold clamp, fmin.
    destruct (Rlt_dec (spectrum_get value i) 0.0); [lra|]. reflexivity.
Qed.

(** X15. In a valid medium the throughput is never negative: at every loop
    head of a walk every channel is at least 0, so the survival probability
    of the Russian roulette lies in [[0, 0.99]]; and when the walk leaves
    the medium the lower end of the clamp [[0, 2]] changes nothing, the clamp
    being the cap at 2 alone. *)
Theorem walk_throughput_never_negative (values : RandomWalkBSSRDFInputValues)
    (sc : SamplingContext) (outgoing_point : ShadingPoint) (bs : BSSRDFSample) :
  environment_contract ->
  optical_properties_valid values ->
  is_normalized (get_geometric_normal outgoing_point) ->
  (forall c st0 st,
     sample_initial values sc outgoing_point bs = Some (c, st0) ->
     walk_reaches values c st0 st ->
     throughput_nonneg (m_value (bssrdf_sample st))
     /\ 0 <= scattering_prob (m_value (bssrdf_sample st)) <= 0.99)
  /\ forall st : LoopState,
       random_walk values sc outgoing_point bs = Exited st ->
       post_walk_value st
       = map (fun x => fmin x 2.0) (m_value (bssrdf_sample st)).
Proof.
  intros Henv Hopt Hout.
  assert (Hnn : forall c st0 st,
            sample_initial values sc outgoing_point bs = Some (c, st0) ->
            walk_reaches values c st0 st ->
            throughput_nonneg (m_value (bssrdf_sample st))).
  { intros c st0 st Hinit Hreach.
    destruct (walk_reaches_positive _ _ _ _ _ _ _ Henv Hopt Hout Hinit Hreach)
      as (_ & Hwf & Hpos).
    split; [exact Hwf | intros i Hi; left; apply Hpos; exact Hi]. }
  split.
  - intros c st0 st Hinit Hreach.
    pose proof (Hnn c st0 st Hinit Hreach) as Hst.
    split; [exact Hst|]. destruct Hst as [Hwf Hge].
    pose proof (channel_in_range Henv [] 0) as Hsize.
    pose proof (Hge _ Hsize) as H0.
    pose proof (max_value_ge (m_value (bssrdf_sample st)) (sample_cdf [] 0)
                  ltac:(unfold well_formed in Hwf; lia)) as Hmax.
    unfold scattering_prob, fmin.
    destruct (Rlt_dec 0.99 (max_value (m_value (bssrdf_sample st)))); lra.
  - intros st Hwalk.
    destruct (sample_initial values sc outgoing_point bs) as [[c st0]|] eqn:Hinit.
    + pose proof (random_walk_ends _ _ _ _ _ _ Hinit) as Hends.
      rewrite Hwalk in Hends. destruct Hends as [Hreach _].
      destruct (Hnn c st0 st eq_refl Hreach) as [Hwf Hge].
      unfold post_walk_value. apply clamp_in_place_nonneg.
      intros i Hi. apply Hge. unfold well_formed in Hwf. lia.
    + unfold random_walk in Hwalk. rewrite Hinit in Hwalk. discriminate.
Qed.

(** The effective extinction of a pass, as sampled. *)
Lemma loop_body_effective_extinction (values : RandomWalkBSSRDFInputValues)
    (c : WalkConstants) (st st' : LoopState) (it : Iteration) :
  environment_contract ->
  optical_properties_valid values ->
  walk_constants_valid c ->
  loop_body values c st = Stepped it st' ->
  0 < it_effective_extinction it.
Proof.
  intros Henv Hopt (_ & Hslab & _) Hbody.
  destruct (loop_body_stepped _ _ _ _ _ Hbody)
    as (sc1 & bs1 & cdf & s_ch & s_b & s_d & s_dir & _ & _ & _ & _ & Hch
        & _ & _ & _ & Hinc & _ & Hcos & Heff & _).
  assert (Hchr : (it_channel it < Spectrum_size)%nat)
    by (rewrite Hch; apply (channel_in_range Henv)).
  pose proof (extinction_positive _ Hopt _ Hchr) as He.
  rewrite Heff. destruct (it_is_biased it); [|exact He].
  rewrite literal_one. apply effective_extinction_positive.
  - exact He.
  - apply (kappa_range _ Hopt); exact Hchr.
  - rewrite Hcos, Hinc. apply dot_normalized_bounds; [|exact Hslab].
    apply (dwivedi_direction_normalized Henv); exact Hslab.
Qed.

(** X16. The preprocessor and the walk fit together: on the output of
    [prepare_inputs], whatever the raw inputs, at every loop head of the walk
    of [sample] the throughput is not negative in any channel, and a pass
    through the loop body samples its distance with a positive effective
    extinction, divides by a combined density that is at least the share
    [classical_sampling_prob] of a classical density that is not negative,
    and leaves a throughput that is not negative.  The assumptions are on
    the rest of the renderer only. *)
Theorem prepared_inputs_walk_well_defined (raw : RandomWalkBSSRDFInputValues)
    (sc : SamplingContext) (outgoing_point : ShadingPoint) (bs : BSSRDFSample) :
  well_formed (m_reflectance raw) ->
  well_formed (m_mfp raw) ->
  well_formed (m_albedo (m_precomputed raw)) ->
  well_formed (m_extinction (m_precomputed raw)) ->
  well_formed (m_scattering (m_precomputed raw)) ->
  well_formed (m_rcp_diffusion_length (m_precomputed raw)) ->
  (forall r, 0.001 <= r <= 0.999 -> 0 < normalized_diffusion_s_mfp r) ->
  environment_contract ->
  is_normalized (get_geometric_normal outgoing_point) ->
  let values := prepare_inputs raw in
  forall (c : WalkConstants) (st0 st : LoopState),
    sample_initial values sc outgoing_point bs = Some (c, st0) ->
    walk_reaches values c st0 st ->
    throughput_nonneg (m_value (bssrdf_sample st))
    /\ forall (it : Iteration) (st' : LoopState),
         loop_body values c st = Stepped it st' ->
         0 < it_effective_extinction it
         /\ 0 <= it_mis_classical it
         /\ classical_sampling_prob * it_mis_classical it
            <= mix (mix (it_mis_dwivedi_far it) (it_mis_dwivedi_near it)
                      (bias_strategy_prob c))
                   (it_mis_classical it) classical_sampling_prob
         /\ throughput_nonneg (m_value (bssrdf_sample st')).
Proof.
  intros Hr Hm Ha He Hs Hk Hshape Henv Hout values.
  destruct (prepare_inputs_valid raw Hr Hm Ha He Hs Hk Hshape) as (Hopt & Hall).
  fold values in Hopt, Hall.
  intros c st0 st Hinit Hreach.
  destruct (walk_reaches_positive _ _ _ _ _ _ _ Henv Hopt Hout Hinit Hreach)
    as (Hc & Hwf & Hpos).
  assert (Hst : throughput_nonneg (m_value (bssrdf_sample st)))
    by (split; [exact Hwf | intros i Hi; left; apply Hpos; exact Hi]).
  split; [exact Hst|].
  intros it st' Hbody.
  split; [apply (loop_body_effective_extinction values c st st' it Henv Hopt Hc Hbody)|].
  destruct (loop_body_densities values c st st' it Henv Hopt Hc Hst Hbody)
    as (_ & Hnear & Hfar & Hcl & _).
  split; [lra|]. split.
  - destruct Hc as (Hbias & _).
    assert (Hmix : 0 <= mix (it_mis_dwivedi_far it) (it_mis_dwivedi_near it)
                          (bias_strategy_prob c)).
    { unfold mix.
      assert (0 <= it_mis_dwivedi_far it * (1 - bias_strategy_prob c))
        by (apply Rmult_le_pos; lra).
      assert (0 <= it_mis_dwivedi_near it * bias_strategy_prob c)
        by (apply Rmult_le_pos; lra).
      lra. }
    revert Hmix. generalize (mix (it_mis_dwivedi_far it) (it_mis_dwivedi_near it)
                               (bias_strategy_prob c)).
    intros d Hd. unfold mix, classical_sampling_prob. lra.
  - apply (loop_body_keeps_throughput values c st st' it Henv Hopt Hc Hst Hbody).
Qed.

(** X17. [sample] fails before the loop exactly when the initial ray reaches
    no surface; the optical properties and the later draws play no part. *)
Theorem random_walk_escapes_iff (values : RandomWalkBSSRDFInputValues)
    (sc : SamplingContext) (outgoing_point : ShadingPoint) (bs : BSSRDFSample) :
  (random_walk values sc outgoing_point bs = Escaped
   <-> is_valid (trace (initial_ray sc outgoing_point) (Some outgoing_point)) = false)
  /\ (is_valid (trace (initial_ray sc outgoing_point) (Some outgoing_point)) = false ->
      forall bsdf, sample values sc outgoing_point bs bsdf = None).
Proof.
  assert (Hiff : random_walk values sc outgoing_point bs = Escaped
                 <-> is_valid (trace (initial_ray sc outgoing_point)
                                 (Some outgoing_point)) = false).
  { split.
    - intros Hwalk.
      destruct (is_valid (trace (initial_ray sc outgoing_point) (Some outgoing_point)))
        eqn:Hvalid; [|reflexivity].
      destruct (sample_initial_hits values sc outgoing_point bs Hvalid)
        as (c & st0 & Hinit).
      unfold random_walk in Hwalk. rewrite Hinit in Hwalk.
      pose proof (walk_loop_trace values c st0 (S MaxIterationsCount) st0
                    (reaches_start _ _ _)) as Htrace.
      rewrite Hwalk in Htrace. destruct Htrace.
    - intros Hvalid. unfold random_walk.
      rewrite (sample_initial_misses values sc outgoing_point bs Hvalid). reflexivity. }
  split; [exact Hiff|].
  intros Hvalid bsdf. unfold sample.
  rewrite (proj2 Hiff Hvalid). reflexivity.
Qed.

End Positivity.

(* ------------------------------------------------------------------ *)
(** ** Bounds on the classical transmission *)

Section TransmissionBounds.

Context {E : Environment}.

(** X18. For a distance and extinctions that are not negative, every channel
    written by [compute_transmission_classical_sampling] is a transmittance in
    [[0, 1]] when the segment ended on a surface and lies between 0 and the
    extinction otherwise, and the returned density is not negative and at
    most what it is at distance 0. *)
Theorem compute_transmission_classical_sampling_bounds
    (distance : R) (extinction channel_pdf : Spectrum) (transmitted : bool)
    (transmission : Spectrum) :
  well_formed transmission ->
  0 <= distance ->
  (forall i, (i < Spectrum_size)%nat -> 0 <= spectrum_get extinction i) ->
  (forall i, (i < Spectrum_size)%nat -> 0 <= spectrum_get channel_pdf i) ->
  let r := compute_transmission_classical_sampling
             distance extinction channel_pdf transmitted transmission in
  (forall i, (i < Spectrum_size)%nat ->
     0 <= spectrum_get (snd r) i
          <= (if transmitted then 1 else spectrum_get extinction i))
  /\ 0 <= fst r
          <= sum_channels Spectrum_size
               (fun i => (if transmitted then 1 else spectrum_get extinction i)
                         * spectrum_get channel_pdf i).
Proof.
  intros Hwf Hd Hext Hpdf r.
  destruct (compute_transmission_classical_sampling_spec
              distance extinction channel_pdf transmitted transmission Hwf)
    as (Hmis & _ & Htr).
  fold r in Hmis, Htr.
  assert (Hexp : forall i, (i < Spectrum_size)%nat ->
            0 < exp (- distance * spectrum_get extinction i) <= 1).
  { intros i Hi. split; [apply exp_pos|].
    pose proof (Hext i Hi) as He.
    assert (Hle : - distance * spectrum_get extinction i <= 0) by nra.
    rewrite <- exp_0. destruct Hle as [Hlt|Heq].
    - left; apply exp_increasing; exact Hlt.
    - rewrite Heq; right; reflexivity. }
  assert (Hchan : forall i, (i < Spectrum_size)%nat ->
            0 <= classical_transmission distance extinction transmitted i
                 <= (if transmitted then 1 else spectrum_get extinction i)).
  { intros i Hi. unfold classical_transmission.
    pose proof (Hexp i Hi). pose proof (Hext i Hi).
    destruct transmitted; split; nra. }
  split.
  - intros i Hi. rewrite Htr by exact Hi. apply (Hchan i Hi).
  - rewrite Hmis. unfold classical_density_spec. split.
    + apply sum_channels_nonneg. intros i Hi.
      apply Rmult_le_pos; [apply (Hchan i Hi) | apply Hpdf; exact Hi].
    + apply sum_channels_le. intros i Hi.
      apply Rmult_le_compat_r; [apply Hpdf; exact Hi | apply (Hchan i Hi)].
Qed.

End TransmissionBounds.

(* ------------------------------------------------------------------ *)
(** ** Bounds on the Dwivedi density *)

Section DwivediBounds.

Context {E : Environment}.

(** X19. For a distance and extinctions that are not negative, reciprocal
    diffusion lengths in [[0, 1]], a cosine in [[-1, 1]] and a phase function
    that is not negative, [compute_mis_dwivedi_sampling] returns a density
    that is not negative and at most what it is at distance 0. *)
Theorem compute_mis_dwivedi_sampling_bounds
    (distance : R) (extinction rcp_diffusion_length : Spectrum) (cosine : R)
    (channel_pdf : Spectrum) (transmitted : bool) (normal incoming : Vector3) :
  0 <= distance ->
  - 1 <= cosine <= 1 ->
  (forall i, (i < Spectrum_size)%nat -> 0 <= spectrum_get extinction i) ->
  (forall i, (i < Spectrum_size)%nat ->
     0 <= spectrum_get rcp_diffusion_length i <= 1) ->
  (forall i, (i < Spectrum_size)%nat -> 0 <= spectrum_get channel_pdf i) ->
  (forall nu0, 0 <= dwivedi_evaluate nu0 normal incoming) ->
  0 <= compute_mis_dwivedi_sampling distance extinction rcp_diffusion_length
         cosine channel_pdf transmitted normal incoming
    <= compute_mis_dwivedi_sampling 0 extinction rcp_diffusion_length
         cosine channel_pdf transmitted normal incoming.
Proof.
  intros Hd Hcos Hext Hkappa Hpdf Hphase.
  rewrite !compute_mis_dwivedi_sampling_spec. unfold dwivedi_density.
  pose proof FourPi_positive as Hpi.
  assert (Hterm : forall i, (i < Spectrum_size)%nat ->
    let effective_extinction :=
      spectrum_get extinction i * (1 - cosine * spectrum_get rcp_diffusion_length i) in
    0 <= (if transmitted then 1 else effective_extinction)
         * exp (- distance * effective_extinction)
         * spectrum_get channel_pdf i
         * dwivedi_evaluate (rcp (spectrum_get rcp_diffusion_length i)) normal incoming
      <= (if transmitted then 1 else effective_extinction)
         * exp (- 0 * effective_extinction)
         * spectrum_get channel_pdf i
         * dwivedi_evaluate (rcp (spectrum_get rcp_diffusion_length i)) normal incoming).
  { intros i Hi eff.
    pose proof (Hext i Hi) as He. pose proof (Hkappa i Hi) as Hk.
    pose proof (Hpdf i Hi) as Hp.
    pose proof (Hphase (rcp (spectrum_get rcp_diffusion_length i))) as Hf.
    assert (Heff : 0 <= eff) by (unfold eff; apply Rmult_le_pos; [exact He | nra]).
    assert (Hexp : 0 < exp (- distance * eff) <= 1).
    { split; [apply exp_pos|].
      assert (Hle : - distance * eff <= 0) by nra.
      rewrite <- exp_0. destruct Hle as [Hlt|Heq].
      - left; apply exp_increasing; exact Hlt.
      - rewrite Heq; right; reflexivity. }
    replace (- 0 * eff) with 0 by lra. rewrite exp_0.
    set (w := if transmitted then 1 else eff).
    assert (Hw : 0 <= w) by (unfold w; destruct transmitted; lra).
    set (f := dwivedi_evaluate (rcp (spectrum_get rcp_diffusion_length i))
                normal incoming) in *.
    set (q := spectrum_get channel_pdf i) in *.
    set (e := exp (- distance * eff)) in *.
    assert (HX : 0 <= w * (q * f))
      by (apply Rmult_le_pos; [exact Hw | apply Rmult_le_pos; assumption]).
    replace (w * e * q * f) with (e * (w * (q * f))) by ring.
    replace (w * 1 * q * f) with (w * (q * f)) by ring.
    split; nra. }
  split.
  - apply Rmult_le_pos; [|lra]. apply sum_channels_nonneg.
    intros i Hi. apply (Hterm i Hi).
  - apply Rmult_le_compat_r; [lra|]. apply sum_channels_le.
    intros i Hi. apply (Hterm i Hi).
Qed.

End DwivediBounds.

(* ------------------------------------------------------------------ *)
(** ** What [sample] reads of its input values *)

Section Frame.

Context {E : Environment}.

Lemma walk_loop_reads_precomputed (v1 v2 : RandomWalkBSSRDFInputValues)
    (c : WalkConstants) :
  m_precomputed v1 = m_precomputed v2 ->
  forall (fuel : nat) (st : LoopState),
    walk_loop fuel v1 c st = walk_loop fuel v2 c st.
Proof.
  intros Hp. induction fuel as [|fuel IH]; intros st; simpl; [reflexivity|].
  assert (Hbody : loop_body v1 c st = loop_body v2 c st)
    by (unfold loop_body; rewrite Hp; reflexivity).
  rewrite Hbody. destruct (transmitted st); [reflexivity|].
  destruct (loop_body v2 c st); try reflexivity. apply IH.
Qed.

Lemma random_walk_reads_precomputed (v1 v2 : RandomWalkBSSRDFInputValues)
    (sc : SamplingContext) (outgoing_point : ShadingPoint) (bs : BSSRDFSample) :
  m_precomputed v1 = m_precomputed v2 ->
  random_walk v1 sc outgoing_point bs = random_walk v2 sc outgoing_point bs.
Proof.
  intros Hp. unfold random_walk.
  assert (Hinit : sample_initial v1 sc outgoing_point bs
                  = sample_initial v2 sc outgoing_point bs)
    by (unfold sample_initial; rewrite Hp; reflexivity).
  rewrite Hinit. destruct (sample_initial v2 sc outgoing_point bs) as [[c st]|];
    [|reflexivity].
  apply walk_loop_reads_precomputed; exact Hp.
Qed.

(** X20. [sample] reads nothing of its input values but the precomputed
    optical properties and the three scattering-order weights: the walk
    depends on the precomputed block alone, and two sets of input values that
    agree on it and on the weights give the same result, whatever their
    reflectance, mean free path, multipliers, index of refraction, weight and
    Fresnel weight. *)
Theorem sample_reads_precomputed_and_weights
    (v1 v2 : RandomWalkBSSRDFInputValues)
    (sc : SamplingContext) (outgoing_point : ShadingPoint)
    (bs : BSSRDFSample) (bsdf : BSDFSample) :
  m_precomputed v1 = m_precomputed v2 ->
  m_zero_scattering_weight v1 = m_zero_scattering_weight v2 ->
  m_single_scattering_weight v1 = m_single_scattering_weight v2 ->
  m_multiple_scattering_weight v1 = m_multiple_scattering_weight v2 ->
  random_walk v1 sc outgoing_point bs = random_walk v2 sc outgoing_point bs
  /\ sample v1 sc outgoing_point bs bsdf = sample v2 sc outgoing_point bs bsdf.
Proof.
  intros Hp Hz Hs Hm.
  pose proof (random_walk_reads_precomputed v1 v2 sc outgoing_point bs Hp) as Hwalk.
  split; [exact Hwalk|].
  unfold sample. rewrite Hwalk.
  destruct (random_walk v2 sc outgoing_point bs); try reflexivity.
  unfold sample_exit, apply_scattering_weights. rewrite Hz, Hs, Hm. reflexivity.
Qed.

End Frame.

(* ------------------------------------------------------------------ *)
(** ** A grey medium keeps the throughput grey *)

Section GreyMedium.

Context {E : Environment}.

Lemma test_rr_passed_value (sc sc1 : SamplingContext) (bs bs1 : BSSRDFSample) :
  test_rr sc bs = (true, sc1, bs1) ->
  m_value bs1 = spectrum_div (m_value bs) (scattering_prob (m_value bs)).
Proof.
  unfold test_rr. destruct (next2_float (split_in_place 1 1 sc)) as [s sc'].
  destruct (negb (pass_rr (scattering_prob (m_value bs)) s));
    intros H; inversion H; subst; reflexivity.
Qed.

Lemma walk_reaches_uniform (values : RandomWalkBSSRDFInputValues)
    (sc : SamplingContext) (outgoing_point : ShadingPoint) (bs : BSSRDFSample)
    (c : WalkConstants) (st0 st : LoopState) :
  well_formed (m_albedo (m_precomputed values)) ->
  uniform_channels (m_albedo (m_precomputed values)) ->
  uniform_channels (m_extinction (m_precomputed values)) ->
  sample_initial values sc outgoing_point bs = Some (c, st0) ->
  walk_reaches values c st0 st ->
  well_formed (m_value (bssrdf_sample st))
  /\ uniform_channels (m_value (bssrdf_sample st)).
Proof.
  intros Hawf Halb Hext Hinit Hreach.
  assert (Htrans : forall distance transmitted i j,
            (i < Spectrum_size)%nat -> (j < Spectrum_size)%nat ->
            classical_transmission distance (m_extinction (m_precomputed values))
              transmitted i
            = classical_transmission distance (m_extinction (m_precomputed values))
                transmitted j).
  { intros distance transmitted i j Hi Hj. unfold classical_transmission.
    rewrite (Hext i j Hi Hj). reflexivity. }
  induction Hreach as [|st st' it Hreach IH Ht Hbody].
  - destruct (sample_initial_some _ _ _ _ _ _ Hinit)
      as (cdf & pdf & s_channel & s_distance & _ & _ & _ & _ & _ & _
          & _ & Hval & _).
    assert (Hfill : well_formed (spectrum_fill Spectrum_size 1.0))
      by (unfold well_formed, spectrum_fill; apply repeat_length).
    pose proof (compute_transmission_classical_sampling_spec
                  (if transmitted st0 then ray_length c else initial_distance c)
                  (m_extinction (m_precomputed values)) pdf (transmitted st0)
                  (spectrum_fill Spectrum_size 1.0) Hfill) as Hspec.
    cbv zeta in Hspec, Hval.
    destruct (compute_transmission_classical_sampling _ _ _ _ _)
      as [mis_weight value]. cbn [fst snd] in Hspec.
    destruct Hspec as (_ & Hwf & Htr).
    rewrite Hval. unfold well_formed in *. split.
    + unfold spectrum_scale; rewrite length_map; exact Hwf.
    + intros i j Hi Hj. unfold spectrum_scale.
      rewrite !spectrum_get_map by lia. rewrite !Htr by assumption.
      rewrite (Hext i j Hi Hj). reflexivity.
  - destruct IH as [Hwf Huni].
    destruct (loop_segment_mis_correction_step values c st st' it Hbody)
      as (_ & _ & _ & Htr & Hlen & Hval).
    destruct (loop_body_stepped _ _ _ _ _ Hbody)
      as (sc1 & bs1 & cdf & s_ch & s_b & s_d & s_dir & _ & _ & Hrr & _ & _
          & _ & _ & _ & _ & Hscat & _).
    assert (Hbs1 : well_formed (m_value bs1) /\ uniform_channels (m_value bs1)).
    { destruct (MinRRIteration <? S (n_iteration st))%nat.
      - rewrite (test_rr_passed_value _ _ _ _ Hrr). unfold well_formed in *.
        unfold spectrum_div. split; [rewrite length_map; exact Hwf|].
        intros i j Hi Hj. rewrite !spectrum_get_map by lia.
        rewrite (Huni i j Hi Hj). reflexivity.
      - inversion Hrr; subst. split; assumption. }
    destruct Hbs1 as [Hwf1 Huni1].
    unfold well_formed in *.
    assert (Hls : length (it_scattered_value it) = Spectrum_size)
      by (rewrite Hscat, spectrum_mul_length; lia).
    assert (Hlt : forall k, length (spectrum_scale (it_transmission it) k)
                            = Spectrum_size)
      by (intros k; unfold spectrum_scale; rewrite length_map; exact Hlen).
    cbv zeta in Hval.
    split.
    + rewrite Hval, spectrum_mul_length; rewrite ?Hlt; lia.
    + intros i j Hi Hj. rewrite Hval.
      rewrite !spectrum_get_mul by (rewrite ?Hlt; lia).
      unfold spectrum_scale. rewrite !spectrum_get_map by lia.
      rewrite Hscat. rewrite !spectrum_get_mul by lia.
      rewrite !Htr by assumption.
      rewrite (Huni1 i j Hi Hj), (Halb i j Hi Hj), (Htrans _ _ i j Hi Hj).
      reflexivity.
Qed.

(** X21. In a grey medium, one whose albedo and extinction are the same in
    every channel, the throughput is the same in every channel at every loop
    head of the walk, and so is the throughput a successful [sample] returns:
    the walk adds no colour of its own. *)
Theorem grey_medium_keeps_throughput_grey (values : RandomWalkBSSRDFInputValues)
    (sc : SamplingContext) (outgoing_point : ShadingPoint) (bs : BSSRDFSample) :
  well_formed (m_albedo (m_precomputed values)) ->
  uniform_channels (m_albedo (m_precomputed values)) ->
  uniform_channels (m_extinction (m_precomputed values)) ->
  (forall c st0 st,
     sample_initial values sc outgoing_point bs = Some (c, st0) ->
     walk_reaches values c st0 st ->
     uniform_channels (m_value (bssrdf_sample st)))
  /\ forall bsdf sc' bs' bsdf',
       sample values sc outgoing_point bs bsdf = Some (sc', bs', bsdf') ->
       uniform_channels (m_value bs').
Proof.
  intros Hawf Halb Hext. split.
  { intros c st0 st Hinit Hreach.
    apply (walk_reaches_uniform _ _ _ _ _ _ _ Hawf Halb Hext Hinit Hreach). }
  intros bsdf sc' bs' bsdf' H. unfold sample, random_walk in H.
  destruct (sample_initial values sc outgoing_point bs) as [[c st0]|] eqn:Hinit;
    [|discriminate].
  pose proof (walk_loop_trace values c st0 (S MaxIterationsCount) st0
                (reaches_start _ _ _)) as Htrace.
  destruct (walk_loop (S MaxIterationsCount) values c st0) as [| | | |st|];
    try discriminate.
  destruct Htrace as (Hreach & _).
  destruct (walk_reaches_uniform _ _ _ _ _ _ _ Hawf Halb Hext Hinit Hreach)
    as (Hwf & Huni).
  unfold sample_exit in H.
  destruct (brdf_sample _ _ _ _ _) as [sc2 bsdf2].
  inversion H; subst sc' bs' bsdf'; clear H. cbn [m_value].
  unfold well_formed in Hwf.
  assert (Hclamp : uniform_channels (post_walk_value st)
                   /\ length (post_walk_value st) = Spectrum_size).
  { unfold post_walk_value, clamp_in_place. split; [|rewrite length_map; exact Hwf].
    intros i j Hi Hj. rewrite !spectrum_get_map by lia.
    rewrite (Huni i j Hi Hj). reflexivity. }
  assert (Hscale : forall (s : Spectrum) (w : R),
            uniform_channels s /\ length s = Spectrum_size ->
            uniform_channels (spectrum_scale s w)
            /\ length (spectrum_scale s w) = Spectrum_size).
  { intros s w [Hu Hl]. unfold spectrum_scale. split; [|rewrite length_map; exact Hl].
    intros i j Hi Hj. rewrite !spectrum_get_map by lia.
    rewrite (Hu i j Hi Hj). reflexivity. }
  unfold apply_scattering_weights.
  destruct (n_iteration st =? 1)%nat, (n_iteration st =? 2)%nat;
    repeat apply Hscale; exact Hclamp.
Qed.

End GreyMedium.

(* ------------------------------------------------------------------ *)
(** ** The further properties on concrete inputs *)

Lemma slab_shape_positive (r : R) :
  0.001 <= r <= 0.999 -> 0 < @normalized_diffusion_s_mfp Slab.environment r.
Proof.
  intros Hr. cbn.
  pose proof (Rabs_pos (r - 0.8)) as Ha. revert Ha.
  generalize (Rabs (r - 0.8)). intros a Ha.
  assert (0 <= a * (a * (a * 1))) by (repeat apply Rmult_le_pos; lra).
  lra.
Qed.

(** X6 on the input values of the slab. *)
Lemma prepare_inputs_valid_witness :
  optical_properties_valid (E := Slab.environment)
    (prepare_inputs (E := Slab.environment) (Slab.input_values Slab.medium)).
Proof.
  apply (prepare_inputs_establishes_valid_properties (E := Slab.environment)
           (Slab.input_values Slab.medium)); try reflexivity.
  exact slab_shape_positive.
Defined.

(** X7 on the input values of the slab, whose multipliers are 1. *)
Lemma prepare_inputs_idempotent_witness :
  prepare_inputs (E := Slab.environment)
    (prepare_inputs (E := Slab.environment) (Slab.input_values Slab.medium))
  = prepare_inputs (E := Slab.environment) (Slab.input_values Slab.medium).
Proof.
  apply (prepare_inputs_idempotent (E := Slab.environment)
           (Slab.input_values Slab.medium)); reflexivity.
Defined.

(** X8 on the throughput [[3/4; 1/4]] and the variate [1/2]: the roulette
    lets the walk continue and the largest channel becomes 1. *)
Lemma test_rr_renormalizes_witness :
  let bs := set_value Slab.empty_sample [3 / 4; 1 / 4] in
  let bs1 := set_value bs (spectrum_div (m_value bs) (Rmin (max_value (m_value bs)) 0.99)) in
  test_rr (E := Slab.environment) [Slab.Half] bs = (true, [], bs1)
  /\ max_value (m_value bs1) = 1.
Proof.
  intros bs bs1.
  assert (Hmax : max_value (m_value bs) = 3 / 4).
  { cbn. unfold fmax. destruct (Rlt_dec (3 / 4) (1 / 4)); lra. }
  assert (Hrr : test_rr (E := Slab.environment) [Slab.Half] bs = (true, [], bs1)).
  { apply (test_rr_cases (E := Slab.environment) [Slab.Half] bs).
    rewrite Hmax. cbn. unfold Rmin. destruct (Rle_dec (3 / 4) 0.99); lra. }
  split; [exact Hrr|].
  apply (test_rr_renormalizes (E := Slab.environment) [Slab.Half] [] bs bs1).
  - cbn. lra.
  - discriminate.
  - exact Hrr.
  - rewrite Hmax. lra.
Defined.

Lemma slab_walk_first_pass_reached (v : Slab.Variate) :
  exists (it : Iteration) (st1 : LoopState),
    loop_body (E := Slab.environment) (Slab.input_values Slab.medium)
      (slab_constants v) (slab_state v) = Stepped it st1
    /\ walk_reaches (E := Slab.environment) (Slab.input_values Slab.medium)
         (slab_constants v) (slab_state v) st1
    /\ n_iteration st1 = 1%nat.
Proof.
  destruct (slab_first_pass v) as (it & st1 & Hbody & _).
  cbv zeta in Hbody.
  destruct (slab_initial_segment 1 [Slab.Zero; Slab.Half; Slab.Half; Slab.Zero; v])
    as (_ & _ & _ & _ & Htr0 & _ & _ & _ & _ & Hn0 & _).
  fold (slab_script v) in Htr0, Hn0. fold (slab_state v) in Htr0, Hn0.
  assert (Htr : transmitted (slab_state v) = false).
  { rewrite Htr0. unfold Rleb. destruct (Rle_dec 1 (1 / 4)); [lra | reflexivity]. }
  exists it, st1. split; [exact Hbody|]. split.
  - eapply reaches_step; [apply reaches_start | exact Htr | exact Hbody].
  - destruct (loop_body_counts _ _ _ _ _ Hbody) as (Hn1 & _). rewrite Hn1, Hn0.
    reflexivity.
Qed.

(** X10 after the first pass of the slab walk: the ray has depth 2 and is
    bounded by the distance that pass sampled. *)
Lemma walk_ray_bookkeeping_witness :
  exists (st1 : LoopState) (it : Iteration),
    walk_reaches (E := Slab.environment) (Slab.input_values Slab.medium)
      (slab_constants Slab.Half) (slab_state Slab.Half) st1
    /\ m_depth (ray st1) = 2%nat
    /\ m_time (ray st1) = 0
    /\ m_flags (ray st1) = ShadowRay
    /\ m_tmax (ray st1) = Some (it_sampled_distance it)
    /\ m_probability (bssrdf_sample st1) = 1.
Proof.
  destruct (slab_walk_first_pass_reached Slab.Half) as (it0 & st1 & _ & Hreach & Hn).
  destruct (walk_ray_bookkeeping (E := Slab.environment)
              (Slab.input_values Slab.medium) (slab_script Slab.Half)
              Slab.entry_point Slab.empty_sample
              (slab_constants Slab.Half) (slab_state Slab.Half) st1
              (slab_walk_starts Slab.Half) Hreach)
    as (Hdepth & Htime & Hflags & _ & Hlast & _ & Hprob).
  destruct Hlast as (previous & it & sc1 & bs1 & _ & _ & _ & _ & _ & _ & Htmax & _);
    [rewrite Hn; discriminate|].
  exists st1, it. split; [exact Hreach|].
  rewrite Hn in Hdepth. repeat split; assumption.
Defined.

(** X11 on the crossing walk, which leaves the slab on its initial segment. *)
Lemma sample_success_handoff_witness :
  exists st : LoopState,
    random_walk (E := Slab.environment) (Slab.input_values Slab.medium)
      crossing_script Slab.entry_point Slab.empty_sample = Exited st
    /\ m_probability
         (snd (fst (sample_exit (E := Slab.environment)
                      (Slab.input_values Slab.medium) crossing_state
                      Slab.empty_bsdf_sample))) = 1
    /\ m_has_brdf
         (snd (fst (sample_exit (E := Slab.environment)
                      (Slab.input_values Slab.medium) crossing_state
                      Slab.empty_bsdf_sample))) = true.
Proof.
  set (out := sample_exit (E := Slab.environment)
                (Slab.input_values Slab.medium) crossing_state
                Slab.empty_bsdf_sample).
  destruct (sample_success_handoff (E := Slab.environment)
              (Slab.input_values Slab.medium) crossing_script (fst (fst out))
              Slab.entry_point Slab.empty_sample (snd (fst out))
              Slab.empty_bsdf_sample (snd out))
    as (st & Hwalk & _ & _ & Hprob & Hbrdf & _).
  { unfold sample. rewrite crossing_walk_exits. reflexivity. }
  exists st. repeat split; assumption.
Defined.

Lemma bounded_crossing_walk_exits :
  random_walk (E := Slab.environment) (Slab.bounded_values Slab.medium)
    crossing_script Slab.entry_point Slab.empty_sample
  = Exited crossing_state.
Proof.
  rewrite <- crossing_walk_exits.
  apply random_walk_reads_precomputed. reflexivity.
Qed.

(** X12 on the crossing walk with the weights 1/2, 1 and 1/4. *)
Lemma sample_value_bounded_witness :
  Forall (fun x => 0 <= x <= 2)
    (m_value
       (snd (fst (sample_exit (E := Slab.environment)
                    (Slab.bounded_values Slab.medium) crossing_state
                    Slab.empty_bsdf_sample)))).
Proof.
  set (out := sample_exit (E := Slab.environment)
                (Slab.bounded_values Slab.medium) crossing_state
                Slab.empty_bsdf_sample).
  apply (sample_value_bounded (E := Slab.environment)
           (Slab.bounded_values Slab.medium) crossing_script (fst (fst out))
           Slab.entry_point Slab.empty_sample (snd (fst out))
           Slab.empty_bsdf_sample (snd out)).
  - cbn; lra.
  - cbn; lra.
  - cbn; lra.
  - unfold sample. rewrite bounded_crossing_walk_exits. reflexivity.
Defined.

(** X13 on the slab walk: the interpolation weight lies in [[0, 1]] and the
    combined density of the first pass is at least a tenth of the classical
    one. *)
Lemma mis_densities_nonnegative_witness :
  let c := slab_constants Slab.Half in
  0 <= bias_strategy_prob c <= 1
  /\ exists (it : Iteration) (st1 : LoopState),
       loop_body (E := Slab.environment) (Slab.input_values Slab.medium) c
         (slab_state Slab.Half) = Stepped it st1
       /\ 0 <= it_mis_classical it
       /\ classical_sampling_prob * it_mis_classical it
          <= mix (mix (it_mis_dwivedi_far it) (it_mis_dwivedi_near it)
                    (bias_strategy_prob c))
                 (it_mis_classical it) classical_sampling_prob.
Proof.
  intros c.
  destruct (mis_densities_nonnegative (E := Slab.environment)
              (Slab.input_values Slab.medium) (slab_script Slab.Half)
              Slab.entry_point Slab.empty_sample c (slab_state Slab.Half)
              slab_contract slab_medium_valid
              (vneg_normalized _ slab_z_axis_normalized)
              (slab_walk_starts Slab.Half))
    as (_ & Hbias & Hpass).
  split; [exact Hbias|].
  destruct (slab_first_pass Slab.Half) as (it & st1 & Hbody & _).
  cbv zeta in Hbody. exists it, st1. split; [exact Hbody|].
  destruct (Hpass _ _ _ (reaches_start _ _ _) Hbody)
    as (_ & _ & _ & Hcl & _ & Hmix).
  split; assumption.
Defined.

(** X14 on the slab walk. *)
Lemma initial_segment_normalized_witness :
  sum_channels 2
    (fun i => spectrum_get (m_value (bssrdf_sample (slab_state Slab.Half))) i
              * spectrum_get
                  (snd (Slab.proportional (spectrum_fill 2 1.0))) i)
  = 1.
Proof.
  apply (initial_segment_normalized (E := Slab.environment)
           (Slab.input_values Slab.medium) (slab_script Slab.Half)
           Slab.entry_point Slab.empty_sample
           (slab_constants Slab.Half) (slab_state Slab.Half)
           slab_contract slab_medium_valid (slab_walk_starts Slab.Half)).
Defined.

(** X15 on the slab walk, at its first loop head. *)
Lemma walk_throughput_never_negative_witness :
  throughput_nonneg (E := Slab.environment)
    (m_value (bssrdf_sample (slab_state Slab.Half)))
  /\ 0 <= scattering_prob (m_value (bssrdf_sample (slab_state Slab.Half))) <= 0.99.
Proof.
  apply (proj1 (walk_throughput_never_negative (E := Slab.environment)
                  (Slab.input_values Slab.medium) (slab_script Slab.Half)
                  Slab.entry_point Slab.empty_sample slab_contract slab_medium_valid
                  (vneg_normalized _ slab_z_axis_normalized))
               (slab_constants Slab.Half) (slab_state Slab.Half)
               (slab_state Slab.Half) (slab_walk_starts Slab.Half)
               (reaches_start _ _ _)).
Defined.

(** X18 in the slab: a segment of length 1 that ended on a surface. *)
Lemma compute_transmission_classical_sampling_bounds_witness :
  let r := compute_transmission_classical_sampling (E := Slab.environment)
             1 [4; 4] [1 / 2; 1 / 2] true [0; 0] in
  (forall i, (i < 2)%nat -> 0 <= spectrum_get (snd r) i <= 1)
  /\ 0 <= fst r
          <= sum_channels 2 (fun i => 1 * spectrum_get [1 / 2; 1 / 2] i).
Proof.
  apply (compute_transmission_classical_sampling_bounds (E := Slab.environment)
           1 [4; 4] [1 / 2; 1 / 2] true [0; 0]).
  - reflexivity.
  - lra.
  - intros [|[|i]] Hi; unfold spectrum_get; cbn; try lra; cbn in Hi; lia.
  - intros [|[|i]] Hi; unfold spectrum_get; cbn; try lra; cbn in Hi; lia.
Defined.

(** X19 in the slab, along the slab normal. *)
Lemma compute_mis_dwivedi_sampling_bounds_witness :
  0 <= compute_mis_dwivedi_sampling (E := Slab.environment)
         1 [4; 4] [1 / 2; 1 / 2] 1 [1 / 2; 1 / 2] false Slab.z_axis Slab.z_axis
    <= compute_mis_dwivedi_sampling (E := Slab.environment)
         0 [4; 4] [1 / 2; 1 / 2] 1 [1 / 2; 1 / 2] false Slab.z_axis Slab.z_axis.
Proof.
  apply (compute_mis_dwivedi_sampling_bounds (E := Slab.environment)
           1 [4; 4] [1 / 2; 1 / 2] 1 [1 / 2; 1 / 2] false Slab.z_axis Slab.z_axis).
  - lra.
  - lra.
  - intros [|[|i]] Hi; unfold spectrum_get; cbn; try lra; cbn in Hi; lia.
  - intros [|[|i]] Hi; unfold spectrum_get; cbn; try lra; cbn in Hi; lia.
  - intros [|[|i]] Hi; unfold spectrum_get; cbn; try lra; cbn in Hi; lia.
  - intros nu0. cbn. pose proof FourPi_positive.
    left; apply Rdiv_lt_0_compat; lra.
Defined.

(** X20 on the crossing walk: the weights being equal, the slab values and
    values that differ from them in reflectance, mean free path and index of
    refraction give the same sample. *)
Lemma sample_reads_precomputed_and_weights_witness :
  let v1 := Slab.input_values Slab.medium in
  let v2 := mkInputValues 0 [1; 1] 7 [3; 3] 7 2 0 2 5 3 Slab.medium in
  sample (E := Slab.environment) v1 crossing_script Slab.entry_point
    Slab.empty_sample Slab.empty_bsdf_sample
  = sample (E := Slab.environment) v2 crossing_script Slab.entry_point
      Slab.empty_sample Slab.empty_bsdf_sample.
Proof.
  intros v1 v2.
  apply (sample_reads_precomputed_and_weights (E := Slab.environment) v1 v2
           crossing_script Slab.entry_point Slab.empty_sample
           Slab.empty_bsdf_sample); reflexivity.
Defined.

(** X21 on the slab walk, whose medium is grey. *)
Lemma grey_medium_witness :
  exists st1 : LoopState,
    walk_reaches (E := Slab.environment) (Slab.input_values Slab.medium)
      (slab_constants Slab.Half) (slab_state Slab.Half) st1
    /\ n_iteration st1 = 1%nat
    /\ spectrum_get (m_value (bssrdf_sample st1)) 0
       = spectrum_get (m_value (bssrdf_sample st1)) 1.
Proof.
  destruct (slab_walk_first_pass_reached Slab.Half) as (it & st1 & _ & Hreach & Hn).
  exists st1. split; [exact Hreach|]. split; [exact Hn|].
  apply (proj1 (grey_medium_keeps_throughput_grey (E := Slab.environment)
                  (Slab.input_values Slab.medium) (slab_script Slab.Half)
                  Slab.entry_point Slab.empty_sample
                  ltac:(reflexivity)
                  ltac:(intros [|[|i]] [|[|j]] Hi Hj; try reflexivity;
                        cbn in Hi, Hj; lia)
                  ltac:(intros [|[|i]] [|[|j]] Hi Hj; try reflexivity;
                        cbn in Hi, Hj; lia))
               (slab_constants Slab.Half) (slab_state Slab.Half) st1
               (slab_walk_starts Slab.Half) Hreach); cbn; lia.
Defined.

(** X16 on the input values of the slab, prepared: the walk starts, and
    with a throughput that is not negative. *)
Lemma prepared_inputs_walk_witness :
  exists (c : WalkConstants) (st0 : LoopState),
    sample_initial (E := Slab.environment)
      (prepare_inputs (E := Slab.environment) (Slab.input_values Slab.medium))
      (slab_script Slab.Half) Slab.entry_point Slab.empty_sample = Some (c, st0)
    /\ throughput_nonneg (E := Slab.environment) (m_value (bssrdf_sample st0)).
Proof.
  assert (Hvalid : is_valid (@trace Slab.environment
                               (initial_ray (E := Slab.environment)
                                  (slab_script Slab.Half) Slab.entry_point)
                               (Some Slab.entry_point)) = true).
  { destruct (is_valid (@trace Slab.environment
                          (initial_ray (E := Slab.environment)
                             (slab_script Slab.Half) Slab.entry_point)
                          (Some Slab.entry_point))) eqn:Hv; [reflexivity|].
    pose proof (sample_initial_misses (E := Slab.environment)
                  (Slab.input_values Slab.medium) (slab_script Slab.Half)
                  Slab.entry_point Slab.empty_sample Hv) as Hnone.
    rewrite (slab_walk_starts Slab.Half) in Hnone. discriminate. }
  destruct (sample_initial_hits (E := Slab.environment)
              (prepare_inputs (E := Slab.environment) (Slab.input_values Slab.medium))
              (slab_script Slab.Half) Slab.entry_point Slab.empty_sample Hvalid)
    as (c & st0 & Hinit).
  exists c, st0. split; [exact Hinit|].
  apply (prepared_inputs_walk_well_defined (E := Slab.environment)
           (Slab.input_values Slab.medium) (slab_script Slab.Half)
           Slab.entry_point Slab.empty_sample
           ltac:(reflexivity) ltac:(reflexivity) ltac:(reflexivity)
           ltac:(reflexivity) ltac:(reflexivity) ltac:(reflexivity)
           slab_shape_positive slab_contract
           (vneg_normalized _ slab_z_axis_normalized)
           c st0 st0 Hinit (reaches_start _ _ _)).
Defined.
